(** * Weather Insights and Forecast Advisor: API client, guided tour and
      deployment script

    A shallow embedding of
    - [frontend/src/services/api.js] (class [WeatherAgentAPI]),
    - the alerts page ([Alerts], its [loadAlerts]),
    - the tour context ([TourProvider]) and the guide it drives
      ([frontend/src/components/TourGuide.jsx]), and
    - [deploy_agents_lab.sh],
    followed by the properties of the specification that were checked
    against them (C1 to C10) and by further properties of the same code
    (X1 to X25).

    Conventions.  A JavaScript string is a [string]: a sequence of code units,
    each below 256.  A JSON number is represented by its integer value.  The
    browser stores are finite maps from keys to strings. *)

From Stdlib Require Import ZArith Ascii String List DecimalString DecimalPos Lia Bool.
From stdpp Require Import gmap strings list.

Local Open Scope Z_scope.
Local Set Warnings "-register-all".

(** ** JavaScript strings *)

Module JsString.

(** White space as [String.prototype.trim] and [parseInt] see it, restricted
    to code units below 256: TAB, LF, VT, FF, CR, SP and NBSP. *)
Definition is_white (c : ascii) : bool :=
  match nat_of_ascii c with
  | 9%nat | 10%nat | 11%nat | 12%nat | 13%nat | 32%nat | 160%nat => true
  | _ => false
  end.

Fixpoint trimStart (s : string) : string :=
  match s with
  | String c s' => if is_white c then trimStart s' else s
  | EmptyString => EmptyString
  end.

Definition trimEnd (s : string) : string :=
  String.rev (trimStart (String.rev s)).

Definition trim (s : string) : string := trimEnd (trimStart s).

(** [s.split(sep)] for a one-character separator: the pieces between the
    separators, in order; never the empty array. *)
Fixpoint split (sep : ascii) (s : string) : list string :=
  match s with
  | EmptyString => [EmptyString]
  | String c s' =>
      if Ascii.eqb c sep then EmptyString :: split sep s'
      else match split sep s' with
           | piece :: rest => String c piece :: rest
           | [] => [String c EmptyString]
           end
  end.

(** Case folding of the letters A-Z, the only folding that the [i] flag of a
    regular expression applies between code units below 128. *)
Definition lower (c : ascii) : ascii :=
  let n := nat_of_ascii c in
  if (65 <=? n)%nat && (n <=? 90)%nat then ascii_of_nat (n + 32) else c.

Definition upper (c : ascii) : ascii :=
  let n := nat_of_ascii c in
  if (97 <=? n)%nat && (n <=? 122)%nat then ascii_of_nat (n - 32) else c.

(** [word] (lower case) matches at the start of [s], ignoring case. *)
Fixpoint startsWith_ci (word s : string) : bool :=
  match word, s with
  | EmptyString, _ => true
  | String w word', String c s' =>
      Ascii.eqb w (lower c) && startsWith_ci word' s'
  | String _ _, EmptyString => false
  end.

(** [s.startsWith(p)] *)
Definition startsWith (p s : string) : bool := String.prefix p s.

Definition digit (c : ascii) : option Z :=
  let n := nat_of_ascii c in
  if (48 <=? n)%nat && (n <=? 57)%nat then Some (Z.of_nat n - 48) else None.

(** The digits at the head of [s], accumulated in base ten; [seen] records
    whether a digit was consumed. *)
Fixpoint digits (acc : Z) (seen : bool) (s : string) : option Z :=
  match s with
  | String c s' =>
      match digit c with
      | Some d => digits (10 * acc + d) true s'
      | None => if seen then Some acc else None
      end
  | EmptyString => if seen then Some acc else None
  end.

(** [parseInt(s, 10)]; [None] is NaN. *)
Definition parseInt10 (s : string) : option Z :=
  match trimStart s with
  | String "-" s' => Z.opp <$> digits 0 false s'
  | String "+" s' => digits 0 false s'
  | s' => digits 0 false s'
  end.

(** [n.toString()] for an integer. *)
Definition ofZ (n : Z) : string := NilZero.string_of_int (Z.to_int n).

(** [a.join(sep)] on strings. *)
Fixpoint join (sep : string) (l : list string) : string :=
  match l with
  | [] => ""
  | [x] => x
  | x :: rest => x +:+ sep +:+ join sep rest
  end.

(** [s.toUpperCase()] on ASCII: the letters a-z are the only code units
    below 128 that it changes. *)
Fixpoint toUpperCase (s : string) : string :=
  match s with
  | EmptyString => EmptyString
  | String c s' => String (upper c) (toUpperCase s')
  end.

End JsString.

(** ** JavaScript values *)

Module Js.

(** The values that a parsed JSON body, and the expressions of the client
    over it, can take. *)
Inductive value : Type :=
| Undefined
| Null
| Bool (b : bool)
| Num (n : Z)
| Str (s : string)
| Arr (items : list value)
| Obj (fields : list (string * value)).

(** [if (v)]: the falsy values are [undefined], [null], [false], [0] and
    the empty string. *)
Definition truthy (v : value) : bool :=
  match v with
  | Undefined | Null => false
  | Bool b => b
  | Num n => negb (n =? 0)
  | Str s => negb (String.eqb s "")
  | Arr _ | Obj _ => true
  end.

(** The own property [k] of an object literal, [undefined] when missing. *)
Fixpoint field (k : string) (fields : list (string * value)) : value :=
  match fields with
  | [] => Undefined
  | (k', v) :: rest => if String.eqb k k' then v else field k rest
  end.

Fixpoint has_field (k : string) (fields : list (string * value)) : bool :=
  match fields with
  | [] => false
  | (k', _) :: rest => String.eqb k k' || has_field k rest
  end.

(** [v.k] for the property names the client reads ([content], [parts],
    [text], [id], [message], [event]): a TypeError ([None]) on [null] and
    [undefined], [undefined] on the other values that are not objects. *)
Definition get (v : value) (k : string) : option value :=
  match v with
  | Undefined | Null => None
  | Obj fs => Some (field k fs)
  | _ => Some Undefined
  end.

(** [v?.k] *)
Definition get_opt (v : value) (k : string) : value :=
  match v with
  | Obj fs => field k fs
  | _ => Undefined
  end.

(** [v?.[0]] *)
Definition first_opt (v : value) : value :=
  match v with
  | Arr (x :: _) => x
  | Str (String c _) => Str (String c "")
  | Obj fs => field "0" fs
  | _ => Undefined
  end.

(** The items that [for (const x of v)] visits; [None] when [v] is not
    iterable (a TypeError).  A string yields its characters. *)
Definition iterate (v : value) : option (list value) :=
  match v with
  | Arr items => Some items
  | Str s => Some ((λ c, Str (String c "")) <$> list_ascii_of_string s)
  | _ => None
  end.

(** [String(v)], as applied by [+=] on a string, by template literals and by
    [new Error(v)].  A number is written with all its digits, as JavaScript
    writes the integers below 1e21. *)
Fixpoint toString (v : value) : string :=
  match v with
  | Undefined => "undefined"
  | Null => "null"
  | Bool true => "true"
  | Bool false => "false"
  | Num n => JsString.ofZ n
  | Str s => s
  | Arr items =>
      JsString.join ","
        (List.map (λ x, match x with
                        | Undefined | Null => ""
                        | _ => toString x
                        end) items)
  | Obj _ => "[object Object]"
  end.

(** [a || b] *)
Definition or_else (a b : value) : value := if truthy a then a else b.

(** [JSON.parse] and [JSON.stringify] are taken as given. [JSON_parse] is
    [None] where [JSON.parse] throws a SyntaxError. *)
Class JSON := {
  JSON_parse : string → option value;
  JSON_stringify : value → string
}.

End Js.

(** ** The browser and the agents *)

Module Browser.
Import Js.

Inductive agent := alerts | forecast | risk | emergency | chat | hurricane | map_.

(** A POST issued through one of the axios clients. *)
Record request := {
  req_client : agent;
  req_url : string;
  req_body : value
}.

(** What comes back: an HTTP response, or none at all (network failure,
    timeout) with the message axios gives. *)
Inductive reply :=
| Responded (status : Z) (data : value)
| NoResponse (message : string).

Record http_response := { status : Z; data : value }.

(** A thrown value as the [catch] clauses inspect it: [error.message] and
    [error.response]. *)
Record js_error := { message : value; response : option http_response }.

Inductive level := LOG | ERROR.

(** The agents answer a request knowing the requests received so far
    (latest first, the current one at the head), after some time. *)
Class Agents := {
  respond : list request → reply;
  elapsed : list request → Z
}.

Record world := {
  localStorage : gmap string string;
  sessionStorage : gmap string string;
  console : list (level * string);      (* first argument of each call *)
  dispatched : list string;             (* window.dispatchEvent *)
  now : Z;                               (* Date.now() *)
  sent : list request                    (* latest first *)
}.

Inductive completion (A : Type) :=
| Return (a : A)
| Throw (e : js_error).
Global Arguments Return {A} a.
Global Arguments Throw {A} e.

(** A computation of the client run on its own: no other task touches the
    stores while it awaits, the listeners of a dispatched event are not run,
    and the clock moves only while a request is in flight. *)
Definition js (A : Type) : Type := world → completion A * world.

Global Instance js_ret : MRet js := λ A a w, (Return a, w).
Global Instance js_bind : MBind js := λ A B f m w,
  match m w with
  | (Return a, w') => f a w'
  | (Throw e, w') => (Throw e, w')
  end.

Definition throw {A} (e : js_error) : js A := λ w, (Throw e, w).

(** [try { m } catch (error) { h error }] *)
Definition try_catch {A} (m : js A) (h : js_error → js A) : js A := λ w,
  match m w with
  | (Return a, w') => (Return a, w')
  | (Throw e, w') => h e w'
  end.

Definition TypeError (msg : string) : js_error :=
  {| message := Str msg; response := None |}.

(** [new Error(v)] *)
Definition Error (v : value) : js_error :=
  {| message := Str (toString v); response := None |}.

(** A property read that throws on [null] and [undefined]. *)
Definition read (v : value) (k : string) : js value :=
  match get v k with
  | Some x => mret x
  | None => throw (TypeError ("Cannot read properties of " +:+ toString v
                               +:+ " (reading '" +:+ k +:+ "')"))
  end.

Definition console_log (tag : string) : js unit := λ w,
  (Return (), {| localStorage := localStorage w; sessionStorage := sessionStorage w;
                 console := console w ++ [(LOG, tag)]; dispatched := dispatched w;
                 now := now w; sent := sent w |}).

Definition console_error (tag : string) : js unit := λ w,
  (Return (), {| localStorage := localStorage w; sessionStorage := sessionStorage w;
                 console := console w ++ [(ERROR, tag)]; dispatched := dispatched w;
                 now := now w; sent := sent w |}).

Definition Date_now : js Z := λ w, (Return (now w), w).

Definition getItem (k : string) : js (option string) := λ w,
  (Return (localStorage w !! k), w).

Definition with_localStorage (f : gmap string string → gmap string string) : js unit :=
  λ w, (Return (), {| localStorage := f (localStorage w);
                      sessionStorage := sessionStorage w;
                      console := console w; dispatched := dispatched w;
                      now := now w; sent := sent w |}).

Definition setItem (k v : string) : js unit := with_localStorage (insert k v).
Definition removeItem (k : string) : js unit := with_localStorage (delete k).

Definition sessionStorage_clear : js unit := λ w,
  (Return (), {| localStorage := localStorage w; sessionStorage := ∅;
                 console := console w; dispatched := dispatched w;
                 now := now w; sent := sent w |}).

Definition dispatchEvent (name : string) : js unit := λ w,
  (Return (), {| localStorage := localStorage w; sessionStorage := sessionStorage w;
                 console := console w; dispatched := dispatched w ++ [name];
                 now := now w; sent := sent w |}).

(** The world with more lines on the console. *)
Definition logged (lines : list (level * string)) (w : world) : world :=
  {| localStorage := localStorage w; sessionStorage := sessionStorage w;
     console := console w ++ lines; dispatched := dispatched w;
     now := now w; sent := sent w |}.

Definition is_2xx (st : Z) : bool := (200 <=? st) && (st <? 300).

(** [await client.post(url, body)]: axios resolves with the response when
    the status is 2xx and rejects otherwise. *)
Definition post `{Agents} (c : agent) (url : string) (body : value)
  : js http_response := λ w,
  let r := {| req_client := c; req_url := url; req_body := body |} in
  let w' := {| localStorage := localStorage w; sessionStorage := sessionStorage w;
               console := console w; dispatched := dispatched w;
               now := now w + elapsed (r :: sent w); sent := r :: sent w |} in
  match respond (r :: sent w) with
  | Responded st d =>
      if is_2xx st
      then (Return {| status := st; data := d |}, w')
      else (Throw {| message := Str ("Request failed with status code "
                                      +:+ JsString.ofZ st);
                     response := Some {| status := st; data := d |} |}, w')
  | NoResponse msg => (Throw {| message := Str msg; response := None |}, w')
  end.

End Browser.

(** ** The API client: [class WeatherAgentAPI] *)

Module Api.
Import Js Browser.

Definition SESSION_STORAGE_KEY : string := "weather_agent_session_id".
Definition SESSION_TIMESTAMP_KEY : string := "weather_agent_session_timestamp".
Definition SESSION_TIMEOUT : Z := 30 * 60 * 1000.

(** What the methods return. *)
Record answer := { content : value; session_id : value }.

Section WeatherAgentAPI.
Context `{JSON} `{Agents}.

(** [!item] for the result of [localStorage.getItem]: [null] and the empty
    string are falsy. *)
Definition absent (item : option string) : bool :=
  match item with
  | None => true
  | Some s => String.eqb s ""
  end.

Definition item_value (item : option string) : value :=
  match item with
  | None => Null
  | Some s => Str s
  end.

(** *** The constructor *)

Definition AGENT_PORTS (a : agent) : Z :=
  match a with
  | alerts => 8081
  | forecast => 8082
  | risk => 8083
  | emergency => 8084
  | chat => 8090
  | hurricane => 8085
  | map_ => 8086
  end.

(** The first argument of [getBaseUrl] for each client. *)
Definition agentName (a : agent) : string :=
  match a with
  | alerts => "alerts_snapshot"
  | forecast => "forecast"
  | risk => "risk_analysis"
  | emergency => "emergency_resources"
  | chat => "chat"
  | hurricane => "hurricane_simulation"
  | map_ => "map"
  end.

Definition envVar (agentName : string) : string :=
  "REACT_APP_WEATHER_" +:+ JsString.toUpperCase agentName +:+ "_AGENT_URL".

(** [getBaseUrl] over [process.env] as the build fixed it: the URL and the
    line it logs. *)
Definition getBaseUrl (env : gmap string string) (agentName : string) (port : Z)
  : string * string :=
  let prodUrl := env !! envVar agentName in
  if absent prodUrl
  then ("http://localhost:" +:+ JsString.ofZ port,
        "[API] Using development URL for " +:+ agentName +:+ ": "
          +:+ "http://localhost:" +:+ JsString.ofZ port)
  else (default "" prodUrl,
        "[API] Using production URL for " +:+ agentName +:+ ": " +:+ default "" prodUrl).

(** [baseURL] of the client of an agent. *)
Definition baseURL (env : gmap string string) (a : agent) : string :=
  (getBaseUrl env (agentName a) (AGENT_PORTS a)).1.

Definition isSessionValid : js bool :=
  sessionId ← getItem SESSION_STORAGE_KEY;
  timestamp ← getItem SESSION_TIMESTAMP_KEY;
  if absent sessionId || absent timestamp then mret false
  else
    now ← Date_now;
    (* [now - NaN] is NaN, and [NaN > SESSION_TIMEOUT] is false; on integers
       the comparison of the doubles agrees with that of the exact values *)
    match JsString.parseInt10 (default "" timestamp) with
    | Some t =>
        let sessionAge := now - t in
        if sessionAge >? SESSION_TIMEOUT
        then console_log "[API] Session expired, age:";; mret false
        else mret true
    | None => mret true
    end.

Definition clearable (key : string) : bool :=
  negb (String.eqb key "")
  && (JsString.startsWith "dashboard" key
      || JsString.startsWith "weather_agent" key
      || JsString.startsWith "chat" key
      || JsString.startsWith "forecast" key
      || JsString.startsWith "risk" key
      || JsString.startsWith "emergency" key).

(** [l.forEach(f)] and the [for ... of] loops without a result. *)
Fixpoint forEach {A} (l : list A) (f : A → js unit) : js unit :=
  match l with
  | [] => mret ()
  | x :: rest => f x;; forEach rest f
  end.

(** The keys [localStorage.key(0)], ..., [localStorage.key(length - 1)]. *)
Definition localStorage_keys : js (list string) := λ w,
  (Return (map_to_list (localStorage w)).*1, w).

Definition clearBrowserState : js unit :=
  console_log "[API] Clearing browser state due to session expiration";;
  keys ← localStorage_keys;
  let keysToRemove := List.filter clearable keys in
  forEach keysToRemove removeItem;;
  sessionStorage_clear;;
  dispatchEvent "sessionExpired".


Definition new_session_body : value := Obj [("state", Obj [])].

Definition getOrCreateSession : js value :=
  valid ← isSessionValid;
  if valid : bool then
    sessionId ← getItem SESSION_STORAGE_KEY;
    console_log "[API] Reusing existing session:";;
    mret (item_value sessionId)
  else
    stored ← getItem SESSION_STORAGE_KEY;
    (if absent stored then mret () else clearBrowserState);;
    console_log "[API] Creating new session...";;
    sessionResponse ← post chat "/apps/chat/users/user_001/sessions" new_session_body;
    newSessionId ← read (data sessionResponse) "id";
    setItem SESSION_STORAGE_KEY (toString newSessionId);;
    now ← Date_now;
    setItem SESSION_TIMESTAMP_KEY (JsString.ofZ now);;
    console_log "[API] New session created:";;
    mret newSessionId.

Definition updateSessionTimestamp : js unit :=
  now ← Date_now;
  setItem SESSION_TIMESTAMP_KEY (JsString.ofZ now).

(** The body of every [/run] request but that of [geocode]. *)
Definition run_body (app : string) (sessionId : value) (parts : list value) : value :=
  Obj [("app_name", Str app);
       ("user_id", Str "user_001");
       ("session_id", sessionId);
       ("new_message", Obj [("role", Str "user"); ("parts", Arr parts)]);
       ("streaming", Bool false)].

Definition text_part (text : value) : value := Obj [("text", text)].

(** [part.text.substring(0, 100)], evaluated for the log line only: a
    TypeError when the truthy [part.text] is not a string. *)
Definition substring_of (text : value) : js unit :=
  match text with
  | Str _ => mret ()
  | _ => throw (TypeError "part.text.substring is not a function")
  end.

(** The inner loop of the array branch of [query]. *)
Fixpoint for_parts_logged (parts : list value) (responseText : string) : js string :=
  match parts with
  | [] => mret responseText
  | part :: rest =>
      text ← read part "text";
      if truthy text then
        let responseText := responseText +:+ toString text in
        substring_of text;;
        console_log "[API] Found text:";;
        for_parts_logged rest responseText
      else for_parts_logged rest responseText
  end.

(** The loop of the single-object branch of [query]. *)
Fixpoint for_parts (parts : list value) (responseText : string) : js string :=
  match parts with
  | [] => mret responseText
  | part :: rest =>
      text ← read part "text";
      if truthy text
      then for_parts rest (responseText +:+ toString text)
      else for_parts rest responseText
  end.

Definition not_iterable {A} : js A :=
  throw (TypeError "parts is not iterable").

Fixpoint for_events (events : list value) (responseText : string) : js string :=
  match events with
  | [] => mret responseText
  | event :: rest =>
      content ← read event "content";
      let parts := get_opt content "parts" in
      if truthy parts then
        match iterate parts with
        | Some ps =>
            responseText ← for_parts_logged ps responseText;
            for_events rest responseText
        | None => not_iterable
        end
      else for_events rest responseText
  end.

(** Lines 185-209 (and 283-307): the text of the response. *)
Definition response_text (data : value) : js string :=
  match data with
  | Arr events =>
      console_log "[API] Processing array of";;
      for_events events ""
  | _ =>
      content ← read data "content";
      let parts := get_opt content "parts" in
      if truthy parts then
        console_log "[API] Processing single object response";;
        match iterate parts with
        | Some ps => for_parts ps ""
        | None => not_iterable
        end
      else mret ""
  end.

(** [error.response?.status === n] *)
Definition status_is (e : js_error) (n : Z) : bool :=
  match response e with
  | Some r => status r =? n
  | None => false
  end.

(** [error.response?.data?.message] *)
Definition response_message (e : js_error) : value :=
  match response e with
  | Some r => get_opt (data r) "message"
  | None => Undefined
  end.

(** [new Error(error.response?.data?.message || error.message || fallback)] *)
Definition user_facing (e : js_error) (fallback : string) : js_error :=
  Error (or_else (or_else (response_message e) (message e)) (Str fallback)).

(** The [catch] clause shared by [query] and [queryWithImage]. *)
Definition query_catch {A} (fallback : string) (e : js_error) : js A :=
  console_error "[API] Error details:";;
  (if status_is e 404 || status_is e 401 then
     console_log "[API] Session may be invalid, clearing browser state";;
     clearBrowserState
   else mret ());;
  throw (user_facing e fallback).

Definition query (userQuery : value) : js answer :=
  try_catch
    (console_log "[API] Sending query to chat orchestrator:";;
     currentSessionId ← getOrCreateSession;
     response ← post chat "/run"
                  (run_body "chat" currentSessionId [text_part userQuery]);
     console_log "[API] Response status:";;
     console_log "[API] Response data:";;
     responseText ← response_text (data response);
     console_log "[API] Final response text length:";;
     updateSessionTimestamp;;
     mret {| content := Str responseText; session_id := currentSessionId |})
    (query_catch "Failed to query agent").


(** An image picked by the user: [imageFile.type] and what [FileReader]
    reads from it as a data URL ([None] when reading fails). *)
Record image_file := { type : string; data_url : option string }.

(** [reader.result.split(',')[1]], resolved on [loadend]; a failed read
    rejects with the error event, which has neither message nor response. *)
Definition read_base64 (imageFile : image_file) : js value :=
  match data_url imageFile with
  | Some url =>
      match JsString.split "," url with
      | _ :: base64 :: _ => mret (Str base64)
      | _ => mret Undefined
      end
  | None => throw {| message := Undefined; response := None |}
  end.

Definition image_part (imageFile : image_file) (imageBase64 : value) : value :=
  let mimeType := or_else (Str (type imageFile)) (Str "image/jpeg") in
  Obj [("inlineData", Obj [("mimeType", mimeType); ("data", imageBase64)])].

Definition queryWithImage (userQuery : value) (imageFile : image_file) : js answer :=
  try_catch
    (console_log "[API] Sending query with image:";;
     currentSessionId ← getOrCreateSession;
     imageBase64 ← read_base64 imageFile;
     response ← post chat "/run"
                  (run_body "chat" currentSessionId
                     [text_part userQuery; image_part imageFile imageBase64]);
     console_log "[API] Response status:";;
     console_log "[API] Response data:";;
     responseText ← response_text (data response);
     console_log "[API] Final response text length:";;
     updateSessionTimestamp;;
     mret {| content := Str responseText; session_id := currentSessionId |})
    (query_catch "Failed to query agent with image").

(** [finalStep?.content?.parts?.[0]?.text] of the last event, when
    [Array.isArray(data) && data.length > 0]. *)
Definition final_step_text (data : value) : option value :=
  match data with
  | Arr (e :: es) =>
      let finalStep := List.last (e :: es) Undefined in
      Some (get_opt (first_opt (get_opt (get_opt finalStep "content") "parts")) "text")
  | _ => None
  end.

(** The [/run] exchange of the per-agent methods: a fresh session of the
    agent, then the message. *)
Definition create_session (c : agent) (url created : string) : js value :=
  sessionResponse ← post c url new_session_body;
  sessionId ← read (data sessionResponse) "id";
  console_log created;;
  mret sessionId.

Definition getForecast (location : value) : js answer :=
  try_catch
    (console_log "[API] Getting forecast for:";;
     sessionId ← create_session forecast
                   "/apps/forecast_agent/users/user_001/sessions"
                   "[API] Created forecast session:";
     response ← post forecast "/run"
                  (run_body "forecast_agent" sessionId
                     [text_part (Str ("Get forecast for " +:+ toString location))]);
     console_log "[API] Forecast agent response:";;
     text ← match final_step_text (data response) with
            | Some text =>
                (if truthy text then
                   match JSON_parse (toString text) with
                   | Some _ => console_log "[API] Parsed ForecastSummary:"
                   | None => console_error "[API] Failed to parse forecast JSON:"
                   end
                 else mret ());;
                mret text
            | None => mret (Str "")
            end;
     updateSessionTimestamp;;
     mret {| content := text; session_id := sessionId |})
    (λ error, console_error "[API] Error getting forecast:";; throw error).

(** The parse of the final step shared by [getAlerts], [analyzeRisk] and
    [getMapForZones]: the summary stays [null] when there is no text or the
    text does not parse. *)
Definition parse_final_step (data : value) (parsed failed : string) : js value :=
  match final_step_text data with
  | Some text =>
      if truthy text then
        match JSON_parse (toString text) with
        | Some summary => console_log parsed;; mret summary
        | None => console_error failed;; mret Null
        end
      else mret Null
  | None => mret Null
  end.

Definition getAlerts (location : value) : js value :=
  try_catch
    (console_log "[API] Getting alerts for:";;
     sessionId ← create_session alerts
                   "/apps/alerts_snapshot_agent/users/user_001/sessions"
                   "[API] Created alerts session:";
     response ← post alerts "/run"
                  (run_body "alerts_snapshot_agent" sessionId
                     [text_part (Str ("Get alerts for " +:+ toString location))]);
     console_log "[API] Alerts agent response:";;
     alertsSummary ← parse_final_step (data response)
                       "[API] Parsed AlertsSummary:"
                       "[API] Failed to parse alerts JSON:";
     updateSessionTimestamp;;
     mret alertsSummary)
    (λ error, console_error "[API] Error getting alerts:";;
              throw (user_facing error "Failed to get alerts")).

Definition getEvacuationRoute (origin destination : value) : js value :=
  try_catch
    (console_log "[API] Getting evacuation route from:";;
     sessionId ← create_session emergency
                   "/apps/emergency_resources_agent/users/user_001/sessions"
                   "[API] Created emergency session:";
     response ← post emergency "/run"
                  (run_body "emergency_resources_agent" sessionId
                     [text_part (Str ("Find evacuation routes from " +:+ toString origin
                                      +:+ " to " +:+ toString destination))]);
     resourcesSummary ←
       match final_step_text (data response) with
       | Some text =>
           if truthy text then
             match JSON_parse (toString text) with
             | Some summary => mret summary
             | None => console_error "[API] Failed to parse resources JSON:";; mret Null
             end
           else mret Null
       | None => mret Null
       end;
     updateSessionTimestamp;;
     mret (Obj [("content", or_else (get_opt resourcesSummary "insights") (Str ""));
                ("evacuation_routes",
                 or_else (get_opt resourcesSummary "evacuation_routes") (Arr []));
                ("session_id", sessionId)]))
    (λ error, console_error "[API] Error getting evacuation route:";;
              throw (user_facing error "Failed to get evacuation route")).

Definition analyzeRisk (alert : value) : js value :=
  try_catch
    (_ ← read alert "event";
     console_log "[API] Analyzing risk for alert:";;
     sessionId ← create_session risk
                   "/apps/risk_analysis_agent/users/user_001/sessions"
                   "[API] Created risk session:";
     let alertJson := JSON_stringify alert in
     response ← post risk "/run"
                  (run_body "risk_analysis_agent" sessionId [text_part (Str alertJson)]);
     console_log "[API] Risk analysis agent response:";;
     riskSummary ← parse_final_step (data response)
                     "[API] Parsed RiskAnalysisSummary:"
                     "[API] Failed to parse risk JSON:";
     updateSessionTimestamp;;
     mret riskSummary)
    (λ error, console_error "[API] Error analyzing risk:";;
              throw (user_facing error "Failed to analyze risk")).

(** A parameter with the default value 10. *)
Definition radius_or_default (radius : value) : value :=
  match radius with
  | Undefined => Num 10
  | _ => radius
  end.

Definition findResources (location resourceType radius : value) : js value :=
  let radius := radius_or_default radius in
  try_catch
    (console_log ("[API] Finding " +:+ toString resourceType +:+ " near:");;
     sessionId ← create_session emergency
                   "/apps/emergency_resources_agent/users/user_001/sessions"
                   "[API] Created emergency session:";
     response ← post emergency "/run"
                  (run_body "emergency_resources_agent" sessionId
                     [text_part (Str ("Find " +:+ toString resourceType +:+ " near "
                                      +:+ toString location +:+ " within "
                                      +:+ toString radius +:+ " miles"))]);
     (* [inr] is the early [return null] of the inner catch *)
     parsed ← match final_step_text (data response) with
              | Some text =>
                  if truthy text then
                    match JSON_parse (toString text) with
                    | Some summary =>
                        console_log "[API] Parsed EmergencyResourcesSummary:";;
                        mret (inl summary)
                    | None =>
                        console_error "[API] Failed to parse resources JSON:";;
                        mret (inr Null)
                    end
                  else mret (inl Null)
              | None => mret (inl Null)
              end;
     match parsed with
     | inl resourcesSummary => updateSessionTimestamp;; mret resourcesSummary
     | inr early => mret early
     end)
    (λ error, console_error ("[API] Error finding " +:+ toString resourceType +:+ ":");;
              throw (user_facing error ("Failed to find " +:+ toString resourceType))).

Definition geocode_body (address : value) : value :=
  Obj [("app_name", Str "emergency_resources_agent");
       ("user_id", Str "user_001");
       ("new_message",
        Obj [("parts", Arr [text_part (Str ("Geocode: " +:+ toString address))])]);
       ("streaming", Bool false)].

(** A SyntaxError of [JSON.parse]. *)
Definition SyntaxError : js_error :=
  {| message := Str "Unexpected token in JSON"; response := None |}.

Definition geocode (address : value) : js value :=
  try_catch
    (console_log "[API] Geocoding address:";;
     response ← post emergency "/run" (geocode_body address);
     match final_step_text (data response) with
     | Some text =>
         if truthy text then
           match JSON_parse (toString text) with
           | Some v => mret v
           | None => throw SyntaxError
           end
         else mret Null
     | None => mret Null
     end)
    (λ error, console_error "[API] Error geocoding address:";; mret Null).

Definition answer_value (a : answer) : value :=
  Obj [("content", content a); ("session_id", session_id a)].

Definition getHistoricalData (location eventType : value) : js answer :=
  query (Str ("Find historical " +:+ toString eventType +:+ " events in "
              +:+ toString location)).

Definition getVulnerablePopulations (location : value) : js answer :=
  query (Str ("Which census tracts in " +:+ toString location
              +:+ " have high elderly populations in flood zones?")).

Definition getSevereWeatherEvents : js value :=
  try_catch
    (hurricanesResponse ←
       query (Str "What are the current active hurricanes or tropical storms?");
     alertsResponse ←
       query (Str "What are the most severe weather alerts currently active in the United States?");
     mret (Obj [("hurricanes", answer_value hurricanesResponse);
                ("alerts", answer_value alertsResponse)]))
    (λ error, console_error "[API] Error fetching severe weather events:";;
              throw error).

Definition nl : string := String "010" "".

(** [lastAgentResponse.substring(0, 500)] *)
Definition substring500 (lastAgentResponse : value) : js string :=
  match lastAgentResponse with
  | Str s => mret (String.substring 0 500 s)
  | Undefined | Null => throw (TypeError "Cannot read properties of undefined (reading 'substring')")
  | _ => throw (TypeError "lastAgentResponse.substring is not a function")
  end.

Definition suggestions_prompt (lastUserQuery : value) (head : string) : string :=
  "Based on this conversation:" +:+ nl +:+
  "User: " +:+ toString lastUserQuery +:+ nl +:+
  "Assistant: " +:+ head +:+ "..." +:+ nl +:+ nl +:+
  "Generate exactly 4 contextual follow-up questions the user might want to ask next. " +:+ nl +:+
  "- Make them specific and actionable" +:+ nl +:+
  "- Include the same location/context from the conversation" +:+ nl +:+
  "- Format as a simple list, one per line" +:+ nl +:+
  "- No numbering, bullets, or extra text" +:+ nl +:+
  "- Each should be a complete, ready-to-send question" +:+ nl +:+ nl +:+
  "Example format:" +:+ nl +:+
  "Show me the hourly forecast for Miami" +:+ nl +:+
  "Are there any weather alerts in Miami?" +:+ nl +:+
  "Find emergency shelters near Miami" +:+ nl +:+
  "What's the extended forecast for Miami?".

(** [line.match(/^(here|based|example|format)/i)] *)
Definition preamble (line : string) : bool :=
  JsString.startsWith_ci "here" line
  || JsString.startsWith_ci "based" line
  || JsString.startsWith_ci "example" line
  || JsString.startsWith_ci "format" line.

(** [line.length > 0 && !line.match(...)] *)
Definition keep (line : string) : bool :=
  negb (String.eqb line "") && negb (preamble line).

Definition parse_suggestions (content : string) : list string :=
  take 4 (List.filter keep (JsString.trim <$> JsString.split "010" content)).

Definition getSuggestedActions (lastUserQuery lastAgentResponse : value)
  : js (list string) :=
  try_catch
    (console_log "[API] Getting suggested actions...";;
     head ← substring500 lastAgentResponse;
     let prompt := suggestions_prompt lastUserQuery head in
     response ← query (Str prompt);
     if truthy (content response) then
       let suggestions := parse_suggestions (toString (content response)) in
       console_log "[API] Generated suggestions:";;
       mret suggestions
     else mret [])
    (λ error, console_error "[API] Error getting suggested actions:";; mret []).

Definition analyzeHurricaneImage (imageFile : image_file) : js value :=
  try_catch
    (console_log "[API] Analyzing hurricane image...";;
     sessionId ← create_session hurricane
                   "/apps/hurricane_simulation_agent/users/user_001/sessions"
                   "[API] Created hurricane session:";
     imageBase64 ← read_base64 imageFile;
     response ← post hurricane "/run"
                  (run_body "hurricane_simulation_agent" sessionId
                     [text_part (Str "Analyze this hurricane image and provide evacuation priorities");
                      image_part imageFile imageBase64]);
     console_log "[API] Hurricane analysis response:";;
     evacuationPlan ←
       match final_step_text (data response) with
       | Some text =>
           if truthy text then
             match JSON_parse (toString text) with
             | Some plan => console_log "[API] Parsed EvacuationPlan:";; mret plan
             | None =>
                 console_error "[API] Failed to parse evacuation plan JSON:";;
                 mret (Obj [("raw_response", text)])
             end
           else mret Null
       | None => mret Null
       end;
     updateSessionTimestamp;;
     mret evacuationPlan)
    (λ error, console_error "[API] Error analyzing hurricane image:";;
              throw (user_facing error "Failed to analyze hurricane image")).

(** [zones.join(', ')] *)
Definition join_zones (zones : value) : js string :=
  match zones with
  | Arr items =>
      mret (JsString.join ", "
              (List.map (λ z, match z with
                              | Undefined | Null => ""
                              | _ => toString z
                              end) items))
  | Undefined | Null => throw (TypeError "Cannot read properties of undefined (reading 'join')")
  | _ => throw (TypeError "zones.join is not a function")
  end.

Definition getMapForZones (zones : value) : js value :=
  try_catch
    (console_log "[API] Getting map for zones:";;
     sessionId ← create_session map_
                   "/apps/weather_map_agent/users/user_001/sessions"
                   "[API] Created map session:";
     joined ← join_zones zones;
     response ← post map_ "/run"
                  (run_body "weather_map_agent" sessionId
                     [text_part (Str ("Generate a map for these zones: " +:+ joined))]);
     console_log "[API] Map agent response:";;
     mapData ← parse_final_step (data response)
                 "[API] Parsed MapData:"
                 "[API] Failed to parse map data JSON:";
     updateSessionTimestamp;;
     mret mapData)
    (λ error, console_error "[API] Error getting map for zones:";;
              throw (user_facing error "Failed to get map data")).


(** The store after the loop of [clearBrowserState]. *)
Definition cleared (store : gmap string string) : gmap string string :=
  foldl (λ m k, delete k m) store (List.filter clearable (map_to_list store).*1).

(** The methods of the client with their arguments. *)
Inductive operation :=
| Query (userQuery : value)
| QueryWithImage (userQuery : value) (imageFile : image_file)
| GetForecast (location : value)
| GetAlerts (location : value)
| GetEvacuationRoute (origin destination : value)
| AnalyzeRisk (alert : value)
| FindResources (location resourceType radius : value)
| Geocode (address : value)
| GetHistoricalData (location eventType : value)
| GetVulnerablePopulations (location : value)
| GetSevereWeatherEvents
| GetSuggestedActions (lastUserQuery lastAgentResponse : value)
| AnalyzeHurricaneImage (imageFile : image_file)
| GetMapForZones (zones : value).

(** A call of a method, its result as a value. *)
Definition call (op : operation) : js value :=
  match op with
  | Query q => a ← query q; mret (answer_value a)
  | QueryWithImage q f => a ← queryWithImage q f; mret (answer_value a)
  | GetForecast l => a ← getForecast l; mret (answer_value a)
  | GetAlerts l => getAlerts l
  | GetEvacuationRoute o d => getEvacuationRoute o d
  | AnalyzeRisk a => analyzeRisk a
  | FindResources l t r => findResources l t r
  | Geocode a => geocode a
  | GetHistoricalData l t => a ← getHistoricalData l t; mret (answer_value a)
  | GetVulnerablePopulations l => a ← getVulnerablePopulations l; mret (answer_value a)
  | GetSevereWeatherEvents => getSevereWeatherEvents
  | GetSuggestedActions q r => l ← getSuggestedActions q r; mret (Arr (Str <$> l))
  | AnalyzeHurricaneImage f => analyzeHurricaneImage f
  | GetMapForZones z => getMapForZones z
  end.

End WeatherAgentAPI.
End Api.

(** ** What the specification says of a response *)

Module Claimed.
Import Js Browser.

(** The text field of a part when it is a non-empty string. *)
Definition part_text (part : value) : option string :=
  match get_opt part "text" with
  | Str s => if String.eqb s "" then None else Some s
  | _ => None
  end.

(** [content.parts] of an event. *)
Definition parts_of (event : value) : list value :=
  match get_opt (get_opt event "content") "parts" with
  | Arr parts => parts
  | _ => []
  end.

Definition concat (texts : list string) : string := foldr String.append "" texts.

(** The in-order concatenation of the non-empty texts of the parts. *)
Definition parts_text (parts : list value) : string := concat (omap part_text parts).

(** The same over every part of every event. *)
Definition events_text (events : list value) : string :=
  parts_text (events ≫= parts_of).

(** An event object with [content.parts[].text]: the text of a part is a
    string when present, the parts are an array of objects when present. *)
Definition is_text (v : value) : bool :=
  match v with
  | Undefined | Null | Str _ => true
  | _ => false
  end.

Definition is_part (v : value) : bool :=
  match v with
  | Obj fs => is_text (field "text" fs)
  | _ => false
  end.

Definition is_parts (v : value) : bool :=
  match v with
  | Undefined | Null => true
  | Arr parts => forallb is_part parts
  | _ => false
  end.

Definition is_event (v : value) : bool :=
  match v with
  | Obj fs =>
      match field "content" fs with
      | Undefined | Null => true
      | Obj content => is_parts (field "parts" content)
      | _ => false
      end
  | _ => false
  end.

(** The body has [content.parts]. *)
Definition has_parts (body : value) : bool :=
  truthy (get_opt (get_opt body "content") "parts").

Definition is_array (body : value) : bool :=
  match body with
  | Arr _ => true
  | _ => false
  end.

(** An item that [!item] takes for missing. *)
Definition missing (item : option string) : Prop := item = None ∨ item = Some "".

(** The age test of [isSessionValid] on the stored time stamp. *)
Definition too_old (now : Z) (timestamp : option string) : bool :=
  match JsString.parseInt10 (default "" timestamp) with
  | Some t => now - t >? Api.SESSION_TIMEOUT
  | None => false
  end.

(** The object handed to axios as the request body has the key (axios
    leaves a key whose value is [undefined] out of the JSON it sends). *)
Definition carries (k : string) (r : request) : bool :=
  match req_body r with
  | Obj fs => has_field k fs
  | _ => false
  end.

(** A request to [/run] with the four fields of the interface. *)
Definition run_request_ok (r : request) : bool :=
  negb (String.eqb (req_url r) "/run")
  || (carries "app_name" r && carries "user_id" r
      && carries "session_id" r && carries "new_message" r).

(** An error raised by the client itself, not by a request. *)
Definition internal {A} (c : completion A) : Prop :=
  match c with
  | Return _ => True
  | Throw e => response e = None ∧ ∃ m, message e = Str m
  end.

(** What a method leaves untouched: the console and the requests only
    grow, the new [/run] requests are well formed, and the keys that
    [clearBrowserState] spares keep their values. *)
Definition grown (w w' : world) : Prop :=
  (∃ lines, console w' = console w ++ lines)
  ∧ (∃ reqs, sent w' = reqs ++ sent w ∧ forallb run_request_ok reqs = true)
  ∧ (∀ k, Api.clearable k = false → localStorage w' !! k = localStorage w !! k).

(** The state after [clearBrowserState]. *)
Definition reset (w' : world) : Prop :=
  sessionStorage w' = ∅
  ∧ (∀ k, Api.clearable k = true → localStorage w' !! k = None)
  ∧ "sessionExpired" ∈ dispatched w'.

(** An error line was written to the console between [w] and [w']. *)
Definition error_logged (w w' : world) : Prop :=
  ∃ lines tag, console w' = console w ++ lines ∧ (ERROR, tag) ∈ lines.

(** The reply to the latest request, when a method that started in [w] and
    ended in [w'] has sent one. *)
Definition latest_reply `{Agents} (w w' : world) : option (request * reply) :=
  match sent w' with
  | r :: _ =>
      if (length (sent w) <? length (sent w'))%nat
      then Some (r, respond (sent w'))
      else None
  | [] => None
  end.

(** The reply to a [/run] call. *)
Definition run_reply `{Agents} (w w' : world) : option reply :=
  match latest_reply w w' with
  | Some (r, reply) => if String.eqb (req_url r) "/run" then Some reply else None
  | None => None
  end.

(** The reply is an HTTP error response or no response at all. *)
Definition failed (r : reply) : bool :=
  match r with
  | Responded st _ => negb (is_2xx st)
  | NoResponse _ => true
  end.

(** What a run of [query] or [queryWithImage] from [w] to [w'] amounts to:
    a returned answer carries the text of a 2xx reply to [/run]; a thrown
    error carries a message, was logged, and followed a reset of the
    browser state when the latest reply was a 401 or a 404. *)
Definition chat_post `{Agents} (w : world) (c : completion Api.answer) (w' : world) : Prop :=
  grown w w'
  ∧ match c with
    | Return a =>
        ∃ st body t w1,
          run_reply w w' = Some (Responded st body) ∧ is_2xx st = true
          ∧ (Api.response_text body w1).1 = Return t ∧ Api.content a = Str t
    | Throw e =>
        (∃ m, message e = Str m)
        ∧ (∃ lines, console w' = console w ++ lines
                    ∧ (ERROR, "[API] Error details:") ∈ lines)
        ∧ (∀ st body, run_reply w w' = Some (Responded st body) → is_2xx st = true →
             ∃ w1 e', (Api.response_text body w1).1 = Throw e')
        ∧ (∀ r st body, latest_reply w w' = Some (r, Responded st body) →
             st = 401 ∨ st = 404 → reset w')
    end.

(** The methods that swallow an HTTP failure, with what they return. *)
Definition swallows (op : Api.operation) : option value :=
  match op with
  | Api.Geocode _ => Some Null
  | Api.GetSuggestedActions _ _ => Some (Arr [])
  | _ => None
  end.

(** The methods that parse the text of the final step as JSON. *)
Definition parses (op : Api.operation) : bool :=
  match op with
  | Api.GetForecast _ | Api.GetAlerts _ | Api.GetEvacuationRoute _ _
  | Api.AnalyzeRisk _ | Api.FindResources _ _ _ | Api.Geocode _
  | Api.AnalyzeHurricaneImage _ | Api.GetMapForZones _ => true
  | _ => false
  end.

(** What such a method returns when the text does not parse. *)
Definition after_parse_failure (op : Api.operation) (text v : value) : Prop :=
  match op with
  | Api.GetAlerts _ | Api.AnalyzeRisk _ | Api.FindResources _ _ _
  | Api.GetMapForZones _ | Api.Geocode _ => v = Null
  | Api.GetForecast _ => get_opt v "content" = text
  | Api.GetEvacuationRoute _ _ =>
      get_opt v "content" = Str "" ∧ get_opt v "evacuation_routes" = Arr []
  | Api.AnalyzeHurricaneImage _ => v = Obj [("raw_response", text)]
  | _ => True
  end.

(** The two failures of a method that ran from [w] to [w'] with
    completion [c]: the latest reply was an HTTP failure; the text of the
    final step of a 2xx reply to [/run] did not parse. *)
Definition http_failure `{Agents} (w w' : world) : Prop :=
  ∃ r reply, latest_reply w w' = Some (r, reply) ∧ failed reply = true.

Definition parse_failure `{JSON} `{Agents} (w w' : world) (text : value) : Prop :=
  ∃ st body,
    run_reply w w' = Some (Responded st body) ∧ is_2xx st = true
    ∧ Api.final_step_text body = Some text ∧ truthy text = true
    ∧ JSON_parse (toString text) = None.

Definition http_post `{Agents} (swallowed : option value)
    (w : world) (c : completion value) (w' : world) : Prop :=
  http_failure w w' →
  error_logged w w'
  ∧ match swallowed with
    | Some v => c = Return v
    | None => ∃ e m, c = Throw e ∧ message e = Str m
    end.

Definition parse_post `{JSON} `{Agents} (parse_failed : value → value → Prop)
    (w : world) (c : completion value) (w' : world) : Prop :=
  ∀ text, parse_failure w w' text →
    error_logged w w' ∧ ∃ v, c = Return v ∧ parse_failed text v.

(** The chat response that [getSuggestedActions] reads, when it gets as far
    as asking: the completion of its call of [query]. *)
Definition underlying_query `{Agents} (lastUserQuery lastAgentResponse : value)
    (w : world) : option (completion Api.answer) :=
  match lastAgentResponse with
  | Str s =>
      Some (Api.query
              (Str (Api.suggestions_prompt lastUserQuery (String.substring 0 500 s)))
              (logged [(LOG, "[API] Getting suggested actions...")] w)).1
  | _ => None
  end.

End Claimed.

(** ** Scenarios for the examples *)

Module Scenario.
Import Js Browser.

(** A parser for the examples: it knows three texts and rejects the rest of
    the texts used below, as [JSON.parse] does; no example prints JSON. *)
Definition three_texts : JSON := {|
  JSON_parse text :=
    if String.eqb text "null" then Some Null
    else if String.eqb text "{}" then Some (Obj [])
    else if String.eqb text "[]" then Some (Arr [])
    else None;
  JSON_stringify v := toString v
|}.

Definition session_created : reply := Responded 200 (Obj [("id", Str "s-1")]).

(** Agents that create sessions and answer every [/run] with [answer]. *)
Definition answering (answer : reply) : Agents := {|
  respond reqs :=
    match reqs with
    | r :: _ => if String.eqb (req_url r) "/run" then answer else session_created
    | [] => NoResponse "Network Error"
    end;
  elapsed _ := 250
|}.

Definition event (texts : list string) : value :=
  Obj [("content", Obj [("parts", Arr ((λ t, Obj [("text", Str t)]) <$> texts))])].

(** A browser that has stored nothing but the tour flag, at some instant. *)
Definition fresh : world :=
  {| localStorage := {[ "tourCompleted" := "true" ]};
     sessionStorage := {[ "draft" := "hello" ]};
     console := []; dispatched := [];
     now := 1730000000000; sent := [] |}.

(** The same browser ten minutes into a chat session, and two hours after
    the last answer of one. *)
Definition in_session : world :=
  {| localStorage := {[ Api.SESSION_STORAGE_KEY := "s-1";
                        Api.SESSION_TIMESTAMP_KEY := "1730000000000";
                        "tourCompleted" := "true" ]};
     sessionStorage := {[ "draft" := "hello" ]};
     console := []; dispatched := [];
     now := 1730000600000; sent := [] |}.

Definition expired : world :=
  {| localStorage := {[ Api.SESSION_STORAGE_KEY := "s-1";
                        Api.SESSION_TIMESTAMP_KEY := "1730000000000";
                        "tourCompleted" := "true" ]};
     sessionStorage := {[ "draft" := "hello" ]};
     console := []; dispatched := [];
     now := 1730007200000; sent := [] |}.

End Scenario.

(** ** What the methods do beside what was claimed *)

Module Observed.
Import Js Browser.

(** The methods that end with [updateSessionTimestamp] on every path that
    returns. *)
Definition refreshes (op : Api.operation) : bool :=
  match op with
  | Api.GetForecast _ | Api.GetAlerts _ | Api.GetEvacuationRoute _ _
  | Api.AnalyzeRisk _ | Api.AnalyzeHurricaneImage _ | Api.GetMapForZones _ => true
  | _ => false
  end.

(** What a parsing method makes of the text [t] of the final step and of
    the value [v] it parses to. *)
Definition after_parse (op : Api.operation) (t : string) (v result : value) : Prop :=
  match op with
  | Api.GetForecast _ => get_opt result "content" = Str t
  | Api.GetEvacuationRoute _ _ =>
      get_opt result "content" = or_else (get_opt v "insights") (Str "")
      ∧ get_opt result "evacuation_routes"
        = or_else (get_opt v "evacuation_routes") (Arr [])
  | _ => result = v
  end.


(** [event.content?.parts?.[0]?.text] *)
Definition first_text (event : value) : value :=
  get_opt (first_opt (get_opt (get_opt event "content") "parts")) "text".

End Observed.

(** ** The alerts page: [Alerts] *)

Module AlertsPage.
Import Js Browser Api.

(** The state of the component. *)
Record page := {
  agentResponse : value;
  loading : bool;
  mapData : value;
  showMap : bool;
  mapLoading : bool
}.

Definition location : value := Str "California".

Definition unstructured : value :=
  Obj [("alerts", Arr []); ("insights", Str "Could not retrieve structured alert data.")].

Definition load_failed : value :=
  Obj [("alerts", Arr []); ("insights", Str "Failed to load alerts. Please try again.")].

Section Alerts.
Context `{JSON} `{Agents}.

(** [loadAlerts], from the state of the render that called it to the state
    once the promise has settled. *)
Definition loadAlerts (p : page) : js page :=
  let started := {| agentResponse := Str ""; loading := true; mapData := Null;
                    showMap := false; mapLoading := mapLoading p |} in
  settled ← try_catch
    (response ← getAlerts location;
     if truthy response && truthy (get_opt response "alerts")
     then mret {| agentResponse := response; loading := loading started;
                  mapData := mapData started; showMap := showMap started;
                  mapLoading := mapLoading started |}
     else mret {| agentResponse := unstructured; loading := loading started;
                  mapData := mapData started; showMap := showMap started;
                  mapLoading := mapLoading started |})
    (λ error,
       console_error "Failed to load alerts:";;
       mret {| agentResponse := load_failed; loading := loading started;
               mapData := mapData started; showMap := showMap started;
               mapLoading := mapLoading started |});
  mret {| agentResponse := agentResponse settled; loading := false;
          mapData := mapData settled; showMap := showMap settled;
          mapLoading := mapLoading settled |}.

(** The guard of [handleShowMap]: it goes on to the map. *)
Definition can_show_map (p : page) : bool :=
  truthy (agentResponse p) && truthy (get_opt (agentResponse p) "alerts").

End Alerts.
End AlertsPage.

(** ** The guided tour: [TourProvider] *)

Module Tour.

(** A step of the tour; the title and description shown to the user are
    left out. *)
Record step := {
  id : string;
  page : string;
  highlight : option string;
  position : string
}.

Definition tourSteps : list step := [
  {| id := "welcome"; page := "/"; highlight := None; position := "center" |};
  {| id := "demo-mode"; page := "/"; highlight := Some "demo-toggle"; position := "bottom" |};
  {| id := "dashboard-alerts-scroll"; page := "/"; highlight := Some "alerts-section"; position := "top" |};
  {| id := "risk-analysis-button"; page := "/"; highlight := Some "alerts-section"; position := "top" |};
  {| id := "risk-analysis-modal"; page := "/"; highlight := Some "alerts-section"; position := "top" |};
  {| id := "show-map-button"; page := "/"; highlight := Some "alerts-section"; position := "top" |};
  {| id := "dashboard-map"; page := "/"; highlight := Some "dashboard-map"; position := "top" |};
  {| id := "emergency-resources"; page := "/emergency-resources"; highlight := Some "resources-section"; position := "top" |};
  {| id := "chat-page"; page := "/chat"; highlight := Some "chat-interface"; position := "top" |};
  {| id := "forecast-page"; page := "/forecast"; highlight := Some "forecast-section"; position := "top" |};
  {| id := "hurricane-simulation"; page := "/hurricane-simulation"; highlight := Some "simulation-section"; position := "top" |};
  {| id := "complete"; page := "/hurricane-simulation"; highlight := None; position := "center" |}
].

(** The three [useState] cells and the browser store the provider writes. *)
Record state := {
  isTourActive : bool;
  currentStep : Z;
  hasCompletedTour : bool;
  localStorage : gmap string string
}.

(** What a handler asks for: state updates, queued by React until the
    handler has returned, and writes to the store. *)
Inductive effect :=
| setIsTourActive (b : bool)
| setCurrentStep (updater : Z → Z)
| setHasCompletedTour (b : bool)
| localStorage_setItem (k v : string)
| localStorage_removeItem (k : string).

(** The handlers of one render; [s] is the state that render closed over. *)
Definition startTour (s : state) : list effect :=
  [setIsTourActive true; setCurrentStep (λ _, 0)].

Definition completeTour (s : state) : list effect :=
  [setIsTourActive false;
   setCurrentStep (λ _, 0);
   setHasCompletedTour true;
   localStorage_setItem "tourCompleted" "true"].

Definition nextStep (s : state) : list effect :=
  if currentStep s <? Z.of_nat (length tourSteps) - 1
  then [setCurrentStep (λ prev, prev + 1)]
  else completeTour s.

Definition previousStep (s : state) : list effect :=
  if currentStep s >? 0
  then [setCurrentStep (λ prev, prev - 1)]
  else [].

Definition skipTour (s : state) : list effect :=
  [setIsTourActive false; setCurrentStep (λ _, 0)].

Definition resetTour (s : state) : list effect :=
  [setHasCompletedTour false; localStorage_removeItem "tourCompleted"].

(** [tourSteps[currentStep]]; [None] is [undefined]. *)
Definition getCurrentStep (s : state) : option step :=
  if currentStep s <? 0 then None else tourSteps !! Z.to_nat (currentStep s).

Definition apply (e : effect) (s : state) : state :=
  match e with
  | setIsTourActive b =>
      {| isTourActive := b; currentStep := currentStep s;
         hasCompletedTour := hasCompletedTour s; localStorage := localStorage s |}
  | setCurrentStep f =>
      {| isTourActive := isTourActive s; currentStep := f (currentStep s);
         hasCompletedTour := hasCompletedTour s; localStorage := localStorage s |}
  | setHasCompletedTour b =>
      {| isTourActive := isTourActive s; currentStep := currentStep s;
         hasCompletedTour := b; localStorage := localStorage s |}
  | localStorage_setItem k v =>
      {| isTourActive := isTourActive s; currentStep := currentStep s;
         hasCompletedTour := hasCompletedTour s;
         localStorage := <[k:=v]> (localStorage s) |}
  | localStorage_removeItem k =>
      {| isTourActive := isTourActive s; currentStep := currentStep s;
         hasCompletedTour := hasCompletedTour s;
         localStorage := delete k (localStorage s) |}
  end.

(** The effects of a handler take hold in order, and the next render sees
    the result. *)
Definition commit (es : list effect) (s : state) : state :=
  foldl (λ s e, apply e s) s es.

Inductive operation :=
| StartTour | NextStep | PreviousStep | SkipTour | CompleteTour | ResetTour.

Definition handler (op : operation) : state → list effect :=
  match op with
  | StartTour => startTour
  | NextStep => nextStep
  | PreviousStep => previousStep
  | SkipTour => skipTour
  | CompleteTour => completeTour
  | ResetTour => resetTour
  end.

(** One user action: the handler of the current render runs, React
    renders again before the next action is handled. *)
Definition perform (op : operation) (s : state) : state :=
  commit (handler op s) s.

Definition run (ops : list operation) (s : state) : state :=
  foldl (λ s op, perform op s) s ops.

(** Several calls from one render, one after the other: every handler is
    the one that render made, so each tests the state the render closed
    over, and the updates queue up in the order of the calls. *)
Definition perform_all (calls : list operation) (s : state) : state :=
  commit (calls ≫= λ op, handler op s) s.

(** Renders in turn, each with the calls made from it. *)
Definition run_renders (renders : list (list operation)) (s : state) : state :=
  foldl (λ s calls, perform_all calls s) s renders.

(** The invariant of the tour. *)
Definition last_step : Z := Z.of_nat (length tourSteps) - 1.

Definition in_bounds (s : state) : Prop := 0 ≤ currentStep s ≤ last_step.

(** The first render. *)
Definition mount (store : gmap string string) : state :=
  {| isTourActive := false;
     currentStep := 0;
     hasCompletedTour := bool_decide (store !! "tourCompleted" = Some "true");
     localStorage := store |}.

(** *** The guide shown during the tour: [TourGuide] *)

Inductive layout := Modal | Banner.

(** What the guide shows of a step: the layout, the progress text, the
    label of the skip button (the banner shows an icon only), whether the
    Back button is there, the label of the primary button and the element
    that is highlighted.  Title and description are left out. *)
Record view := {
  shape : layout;
  progress : string;
  skipLabel : option string;
  back : bool;
  nextLabel : string;
  highlighted : option string
}.

Definition is_complete (st : step) : bool := String.eqb (id st) "complete".

(** The centered modal of lines 54-154. *)
Definition modal (s : state) (st : step) : view :=
  {| shape := Modal;
     progress := JsString.ofZ (currentStep s + 1) +:+ " of "
                   +:+ JsString.ofZ (Z.of_nat (length tourSteps));
     skipLabel := Some (if is_complete st then "Close" else "Skip Tour");
     back := (currentStep s >? 0) && negb (is_complete st);
     nextLabel := if is_complete st then "Finish"
                  else if currentStep s =? 0 then "Start Tour" else "Next";
     highlighted := None |}.

(** The bottom banner of lines 157-249. *)
Definition banner (s : state) (st : step) : view :=
  {| shape := Banner;
     progress := JsString.ofZ (currentStep s + 1) +:+ "/"
                   +:+ JsString.ofZ (Z.of_nat (length tourSteps));
     skipLabel := None;
     back := currentStep s >? 0;
     nextLabel := "Next";
     highlighted := match highlight st with
                    | Some h => if String.eqb h "" then None else Some h
                    | None => None
                    end |}.

(** The component: nothing when the tour is not active or there is no
    step. *)
Definition TourGuide (s : state) : option view :=
  match getCurrentStep s with
  | Some st =>
      if isTourActive s
      then Some (if String.eqb (position st) "center" then modal s st else banner s st)
      else None
  | None => None
  end.

(** The first effect of the component: where it navigates, if anywhere,
    when the browser is at [pathname]. *)
Definition navigation (s : state) (pathname : string) : option string :=
  match getCurrentStep s with
  | Some st =>
      if isTourActive s && negb (String.eqb (page st) "")
         && negb (String.eqb pathname (page st))
      then Some (page st)
      else None
  | None => None
  end.

(** The flag in the state and the flag in the store agree. *)
Definition in_sync (s : state) : Prop :=
  hasCompletedTour s = bool_decide (localStorage s !! "tourCompleted" = Some "true").

End Tour.

(** ** The deployment script: [deploy_agents_lab.sh] *)

Module Deploy.

(** Format: service name, colon, path to the agent directory. *)
Definition AGENTS_TO_DEPLOY : list string := [
  "weather-alerts-snapshot-agent:agents/alerts_snapshot_agent";
  "weather-emergency-resources-agent:agents/emergency_resources_agent";
  "weather-forecast-agent:agents/forecast_agent";
  "weather-risk-analysis-agent:agents/risk_analysis_agent";
  "weather-hurricane-simulation-agent:agents/hurricane_simulation_agent";
  "weather-chat-agent:agents/chat"
].

(** [IFS=':' read -r service_name agent_path]: the text before the first
    colon, and the rest of the line, for a line that does not end with a
    colon (there [read] drops the colon). *)
Fixpoint read_fields (agent_info : string) : string * string :=
  match agent_info with
  | EmptyString => (EmptyString, EmptyString)
  | String c rest =>
      if Ascii.eqb c ":" then (EmptyString, rest)
      else let '(name, path) := read_fields rest in (String c name, path)
  end.

Fixpoint map_chars (f : ascii → ascii) (s : string) : string :=
  match s with
  | EmptyString => EmptyString
  | String c s' => String (f c) (map_chars f s')
  end.

(** [tr '[:lower:]' '[:upper:]'] and [tr '-' '_'] *)
Definition tr_upper : string → string := map_chars JsString.upper.
Definition tr_hyphen : string → string :=
  map_chars (λ c, if Ascii.eqb c "-" then "_"%char else c).

Definition newline : string := String "010" "".

(** Command substitution [$(...)] removes the newlines that end the output. *)
Fixpoint substitute (output : string) : string :=
  match output with
  | EmptyString => EmptyString
  | String c rest =>
      match substitute rest with
      | EmptyString => if Ascii.eqb c "010" then EmptyString else String c EmptyString
      | kept => String c kept
      end
  end.

Fixpoint all_chars (p : ascii → bool) (s : string) : bool :=
  match s with
  | EmptyString => true
  | String c s' => p c && all_chars p s'
  end.

Definition echo_flag (c : ascii) : bool :=
  Ascii.eqb c "n" || Ascii.eqb c "e" || Ascii.eqb c "E".

(** What the builtin [echo "$arg"] prints: the argument and a newline,
    unless the argument is itself a group of the options -n, -e, -E. *)
Definition echo (arg : string) : string :=
  match arg with
  | String "-" (String c flags) =>
      if all_chars echo_flag (String c flags)
      then (if all_chars (λ c, negb (Ascii.eqb c "n")) (String c flags)
            then newline else EmptyString)
      else arg +:+ newline
  | _ => arg +:+ newline
  end.

(** Line 61 *)
Definition env_var_name (service_name : string) : string :=
  substitute (tr_hyphen (tr_upper (echo service_name))) +:+ "_URL".

(** Line 64 *)
Definition lockfile (service_name : string) : string :=
  "/tmp/deploy_env_" +:+ service_name +:+ ".lock".

(** The two command-line tools: the exit status of [adk deploy cloud_run]
    for a service and a directory, and what [gcloud run services describe]
    prints (standard output and error) for a service. *)
Class Cloud := {
  adk_deploy : string → string → Z;
  gcloud_describe : string → string
}.

(** What the background jobs share: [frontend/.env.production] and the
    directories under [/tmp]. *)
Record files := {
  env_production : string;
  directories : gset string
}.

(** Where a [deploy_agent] job stands.  What it writes to its own log file
    is left out, and so are the emoji and rulers of the messages below. *)
Inductive pc :=
| Deploying                         (* line 46, [adk deploy] *)
| Describing                        (* line 57, [gcloud ... describe] *)
| Locking (service_url : string)    (* lines 65-67, [mkdir] until it succeeds *)
| Appending (service_url : string)  (* line 69 *)
| Unlocking (service_url : string)  (* line 70, [rmdir] *)
| Exited (status : Z).

Record job := {
  service_name : string;
  agent_path : string;
  at_ : pc
}.

Definition goto (j : job) (p : pc) : job :=
  {| service_name := service_name j; agent_path := agent_path j; at_ := p |}.

(** One command of a job. *)
Definition job_step `{Cloud} (j : job) (f : files) : job * files :=
  match at_ j with
  | Deploying =>
      if adk_deploy (service_name j) (agent_path j) =? 0
      then (goto j Describing, f)
      else (goto j (Exited 1), f)
  | Describing =>
      (goto j (Locking (substitute (gcloud_describe (service_name j)))), f)
  | Locking url =>
      if bool_decide (lockfile (service_name j) ∈ directories f)
      then (j, f)                                   (* [sleep 0.1], again *)
      else (goto j (Appending url),
            {| env_production := env_production f;
               directories := {[lockfile (service_name j)]} ∪ directories f |})
  | Appending url =>
      (goto j (Unlocking url),
       {| env_production :=
            env_production f +:+ "REACT_APP_" +:+ env_var_name (service_name j)
              +:+ "=" +:+ url +:+ newline;
          directories := directories f |})
  | Unlocking url =>
      (goto j (Exited 0),
       {| env_production := env_production f;
          directories := directories f ∖ {[lockfile (service_name j)]} |})
  | Exited _ => (j, f)
  end.

(** [deploy_agent] run without interruption, for at most [fuel] commands. *)
Fixpoint deploy_agent `{Cloud} (fuel : nat) (j : job) (f : files) : option (Z * files) :=
  match at_ j with
  | Exited status => Some (status, f)
  | _ =>
      match fuel with
      | O => None
      | S fuel' => let '(j', f') := job_step j f in deploy_agent fuel' j' f'
      end
  end.

(** Between [mkdir] and [rmdir]. *)
Definition in_critical_section (j : job) : bool :=
  match at_ j with
  | Appending _ | Unlocking _ => true
  | _ => false
  end.

(** The jobs of step 5, run in the background: any job that has not exited
    may take the next step. *)
Inductive system_step `{Cloud} : list job * files → list job * files → Prop :=
| Job_steps (i : nat) (jobs : list job) (f : files) (j j' : job) (f' : files) :
    jobs !! i = Some j →
    job_step j f = (j', f') →
    system_step (jobs, f) (<[i:=j']> jobs, f').

Definition reachable `{Cloud} : list job * files → list job * files → Prop :=
  rtc system_step.

Definition start (agent_info : string) : job :=
  let '(name, path) := read_fields agent_info in
  {| service_name := name; agent_path := path; at_ := Deploying |}.

(** Step 3 leaves the file empty. *)
Definition initial (dirs : gset string) : list job * files :=
  (start <$> AGENTS_TO_DEPLOY, {| env_production := ""; directories := dirs |}).

(** A name that Cloud Run accepts for a service: a lower-case letter, then
    lower-case letters, digits and hyphens. *)
Definition is_lower (c : ascii) : bool :=
  let n := nat_of_ascii c in (97 <=? n)%nat && (n <=? 122)%nat.

Definition name_char (c : ascii) : bool :=
  let n := nat_of_ascii c in
  is_lower c || ((48 <=? n)%nat && (n <=? 57)%nat) || Ascii.eqb c "-".

Definition valid_service_name (s : string) : bool :=
  match s with
  | String c rest => is_lower c && all_chars name_char rest
  | EmptyString => false
  end.

Fixpoint count_newlines (s : string) : nat :=
  match s with
  | EmptyString => 0
  | String c rest => (if Ascii.eqb c "010" then 1 else 0) + count_newlines rest
  end.

(** A run of the tools in which every deployment succeeds and every
    service gets a URL, for the examples. *)
Definition all_deployed : Cloud := {|
  adk_deploy _ _ := 0;
  gcloud_describe name := "https://" +:+ name +:+ "-uc.a.run.app" +:+ newline
|}.


(** *** Step 6: waiting for the jobs *)

Record counts := { success_count : Z; failed_count : Z }.

Inductive shell :=
| Running (c : counts) (stdout : list string)
| Exit (status : Z) (stdout : list string).

(** The exit status of [((v++))] is 1 when the expression, the value of [v]
    before the increment, is 0.  Since bash 4.1 such a command is subject to
    [set -e] like any other. *)
Definition arithmetic_status (v : Z) : Z := if v =? 0 then 1 else 0.

(** The loop of lines 136-149 over the names and exit statuses of the jobs.
    With [errexit] ([set -e]) a command of the loop body that fails ends the
    script with its status. *)
Fixpoint wait_loop (errexit : bool) (jobs : list (string * Z)) (c : counts)
    (stdout : list string) : shell :=
  match jobs with
  | [] => Running c stdout
  | (name, status) :: rest =>
      if status =? 0 then
        let stdout := stdout ++ [name +:+ " - Deployment completed successfully"] in
        let st := arithmetic_status (success_count c) in
        let c := {| success_count := success_count c + 1;
                    failed_count := failed_count c |} in
        if errexit && negb (st =? 0) then Exit st stdout
        else wait_loop errexit rest c stdout
      else
        let stdout := stdout ++ [name +:+ " - Deployment failed (check deploy_logs/"
                                   +:+ name +:+ ".log for details)"] in
        let st := arithmetic_status (failed_count c) in
        let c := {| success_count := success_count c;
                    failed_count := failed_count c + 1 |} in
        if errexit && negb (st =? 0) then Exit st stdout
        else wait_loop errexit rest c stdout
  end.

Definition summary (c : counts) (total : nat) : list string :=
  ["Deployment Summary:";
   "   Successful: " +:+ JsString.ofZ (success_count c);
   "   Failed: " +:+ JsString.ofZ (failed_count c);
   "   Total: " +:+ JsString.ofZ (Z.of_nat total)].

(** Lines 132-177, without the lines that only advise the user (161, 173
    and 174). *)
Definition wait_and_report (errexit : bool) (jobs : list (string * Z)) : shell :=
  match wait_loop errexit jobs {| success_count := 0; failed_count := 0 |} [] with
  | Exit status stdout => Exit status stdout
  | Running c stdout =>
      let stdout := stdout ++ summary c (length AGENTS_TO_DEPLOY) in
      if failed_count c >? 0 then
        Exit 1 (stdout ++ ["Failed agents:"]
                  ++ ((λ '(name, _), "   - " +:+ name +:+ " (deploy_logs/" +:+ name +:+ ".log)")
                        <$> List.filter (λ '(_, status), negb (status =? 0)) jobs))
      else Exit 0 (stdout ++ ["All agents deployed successfully!"])
  end.

(** The script as written: [set -e] on line 5 is in force. *)
Definition script (jobs : list (string * Z)) : shell := wait_and_report true jobs.

(** The jobs of [AGENTS_TO_DEPLOY], in order, with the status [wait] gets
    from each. *)
Definition main (statuses : list Z) : shell :=
  script (zip ((λ info, (read_fields info).1) <$> AGENTS_TO_DEPLOY) statuses).

Definition all_succeeded (jobs : list (string * Z)) : bool :=
  forallb (λ '(_, status), status =? 0) jobs.

Definition exit_status (s : shell) : option Z :=
  match s with
  | Exit status _ => Some status
  | Running _ _ => None
  end.

(** *** What the jobs keep *)

(** Upper-case letters, digits and underscores. *)
Definition identifier_char (c : ascii) : bool :=
  let n := nat_of_ascii c in
  ((65 <=? n)%nat && (n <=? 90)%nat) || ((48 <=? n)%nat && (n <=? 57)%nat)
  || Ascii.eqb c "_".

(** Every job between its [mkdir] and its [rmdir] has its directory. *)
Definition holds_locks (jobs : list job) (f : files) : Prop :=
  ∀ i j, jobs !! i = Some j → in_critical_section j = true →
         lockfile (service_name j) ∈ directories f.

(** No two jobs of one service are between [mkdir] and [rmdir]. *)
Definition exclusive (jobs : list job) : Prop :=
  ∀ i k ji jk, i ≠ k → jobs !! i = Some ji → jobs !! k = Some jk →
               service_name ji = service_name jk →
               in_critical_section ji = true → in_critical_section jk = true →
               False.

(** The directories are those of the start and those of the jobs between
    [mkdir] and [rmdir]. *)
Definition no_other_directory (dirs0 : gset string) (jobs : list job) (f : files) : Prop :=
  ∀ d, d ∈ directories f →
       d ∈ dirs0 ∨ ∃ i j, jobs !! i = Some j ∧ in_critical_section j = true
                          ∧ d = lockfile (service_name j).

Definition idle (jobs : list job) : Prop :=
  ∀ i j, jobs !! i = Some j → in_critical_section j = false.

(** What holds of the jobs and the directories all along, from the
    directories [dirs0] of the start. *)
Definition lock_invariant (dirs0 : gset string) (jobs : list job) (f : files) : Prop :=
  holds_locks jobs f ∧ exclusive jobs ∧ no_other_directory dirs0 jobs f
  ∧ dirs0 ⊆ directories f
  ∧ ∀ i j, jobs !! i = Some j → in_critical_section j = true →
           lockfile (service_name j) ∉ dirs0.

(** The character that [tr] made of a character of a service name, read
    back. *)
Definition untr (c : ascii) : ascii :=
  if Ascii.eqb c "_" then "-"%char else JsString.lower c.

(** The Cloud Run service behind a client: [weather-], the name of the
    client with hyphens for underscores, [-agent]. *)
Definition service_of (agentName : string) : string :=
  "weather-" +:+ map_chars (λ c, if Ascii.eqb c "_" then "-"%char else c) agentName
    +:+ "-agent".

(** Lower-case letters and underscores. *)
Definition client_char (c : ascii) : bool := is_lower c || Ascii.eqb c "_".

(** The variable that the script writes for an entry of its list. *)
Definition written (agent_info : string) : string :=
  "REACT_APP_" +:+ env_var_name (read_fields agent_info).1.

End Deploy.

(** * Properties *)

(** ** Strings *)

Section StringFacts.

Lemma app_cons c s t : String c s +:+ t = String c (s +:+ t).
Proof. reflexivity. Qed.

Lemma app_empty t : "" +:+ t = t.
Proof. reflexivity. Qed.

Lemma app_empty_r s : s +:+ "" = s.
Proof. induction s as [|c s IH]; [done|]. by rewrite app_cons, IH. Qed.

Lemma app_assoc_s s t u : (s +:+ t) +:+ u = s +:+ (t +:+ u).
Proof. induction s as [|c s IH]; [done|]. by rewrite !app_cons, IH. Qed.

Example trim_line : JsString.trim "  Are there alerts?  " = "Are there alerts?".
Proof. reflexivity. Qed.

Example split_lines :
  JsString.split "010" ("a" +:+ String "010" "" +:+ String "010" "b") = ["a"; ""; "b"].
Proof. reflexivity. Qed.

Example parseInt10_values :
  JsString.parseInt10 " 1730000000000ms" = Some 1730000000000
  ∧ JsString.parseInt10 "-12" = Some (-12)
  ∧ JsString.parseInt10 "abc" = None
  ∧ JsString.parseInt10 "" = None.
Proof. repeat split; reflexivity. Qed.

Example ofZ_values :
  JsString.ofZ 404 = "404" ∧ JsString.ofZ 0 = "0" ∧ JsString.ofZ (-7) = "-7".
Proof. repeat split; reflexivity. Qed.

Example startsWith_ci_values :
  JsString.startsWith_ci "here" "HERE are some" = true
  ∧ JsString.startsWith_ci "based" "Show me the forecast" = false.
Proof. split; reflexivity. Qed.

End StringFacts.

(** ** The guided tour *)

Section TourProperties.
Import Tour.

Lemma run_snoc ops op s : run (ops ++ [op]) s = perform op (run ops s).
Proof. unfold run. by rewrite foldl_app. Qed.

Lemma perform_in_bounds op s : in_bounds s → in_bounds (perform op s).
Proof.
  unfold in_bounds, last_step.
  change (Z.of_nat (length tourSteps) - 1) with 11. intros Hs.
  destruct op; unfold perform, handler; try (simpl; lia).
  - unfold nextStep. change (Z.of_nat (length tourSteps) - 1) with 11.
    destruct (Z.ltb_spec (currentStep s) 11); simpl; lia.
  - unfold previousStep.
    destruct (Z.gtb_spec (currentStep s) 0); simpl; lia.
Qed.

Lemma run_in_bounds ops s : in_bounds s → in_bounds (run ops s).
Proof.
  induction ops as [|op ops IH] using rev_ind; [done|].
  intros Hs. rewrite run_snoc. by apply perform_in_bounds, IH.
Qed.

Lemma getCurrentStep_defined s : in_bounds s → is_Some (getCurrentStep s).
Proof.
  unfold in_bounds, last_step, getCurrentStep. simpl. intros Hs.
  destruct (currentStep s <? 0) eqn:E; [lia|].
  apply lookup_lt_is_Some. simpl. lia.
Qed.

Lemma perform_all_nil s : perform_all [] s = s.
Proof. reflexivity. Qed.

Lemma perform_all_one op s : perform_all [op] s = perform op s.
Proof. unfold perform_all, perform. simpl. by rewrite app_nil_r. Qed.

Lemma run_renders_snoc renders calls s :
  run_renders (renders ++ [calls]) s = perform_all calls (run_renders renders s).
Proof. unfold run_renders. by rewrite foldl_app. Qed.

Lemma run_renders_in_bounds renders s :
  Forall (λ calls, (length calls ≤ 1)%nat) renders →
  in_bounds s → in_bounds (run_renders renders s).
Proof.
  induction renders as [|calls renders IH] using rev_ind; [done|].
  intros [Hrenders Hcalls]%Forall_app Hs. rewrite Forall_singleton in Hcalls.
  rewrite run_renders_snoc.
  destruct calls as [|op [|op' calls]]; [| |simpl in Hcalls; lia].
  - rewrite perform_all_nil. by apply IH.
  - rewrite perform_all_one. by apply perform_in_bounds, IH.
Qed.

(** C8, as stated, fails: the handlers test the step that their render
    closed over and update the live one, so two calls of [nextStep] from
    the render of step 10 leave the tour active at step 12, where
    [getCurrentStep] is undefined and the guide shows nothing, and two
    calls of [previousStep] from the render of step 1 leave it at step
    -1. *)
Lemma two_calls_from_one_render :
  let forward := run_renders ([StartTour] :: replicate 10 [NextStep]
                                ++ [[NextStep; NextStep]]) (mount ∅) in
  let backward := run_renders [[StartTour]; [NextStep]; [PreviousStep; PreviousStep]]
                    (mount ∅) in
  isTourActive forward = true ∧ currentStep forward = 12
  ∧ getCurrentStep forward = None ∧ TourGuide forward = None
  ∧ isTourActive backward = true ∧ currentStep backward = -1
  ∧ getCurrentStep backward = None.
Proof. vm_compute. repeat split. Qed.

(** C8, amended. From the first render on, whatever the sequence of
    [startTour], [nextStep], [previousStep], [skipTour], [completeTour] and
    [resetTour], as long as no render has more than one of them called
    from it (the buttons of the guide call one for a click, and React
    renders again before the next click is handled), [currentStep] stays
    between 0 and [tourSteps.length - 1] and [getCurrentStep] returns a
    step; [previousStep] at step 0 changes nothing; [nextStep] at the last
    step ends the tour, goes back to step 0 and stores the completion
    flag. *)
Theorem tour_currentStep_bounds (store : gmap string string)
    (renders : list (list operation)) :
  Forall (λ calls, (length calls ≤ 1)%nat) renders →
  let s := run_renders renders (mount store) in
  (0 ≤ currentStep s ≤ Z.of_nat (length tourSteps) - 1)
  ∧ is_Some (getCurrentStep s)
  ∧ (∀ active completed ls,
       let s0 := {| isTourActive := active; currentStep := 0;
                    hasCompletedTour := completed; localStorage := ls |} in
       perform_all [PreviousStep] s0 = s0)
  ∧ (∀ active completed ls,
       perform_all [NextStep]
         {| isTourActive := active;
            currentStep := Z.of_nat (length tourSteps) - 1;
            hasCompletedTour := completed; localStorage := ls |}
       = {| isTourActive := false; currentStep := 0;
            hasCompletedTour := true;
            localStorage := <["tourCompleted" := "true"]> ls |}).
Proof.
  intros Hrenders.
  assert (Hb : in_bounds (run_renders renders (mount store))).
  { apply run_renders_in_bounds; [done|]. unfold in_bounds, last_step. simpl. lia. }
  simpl. split; [exact Hb|]. split; [by apply getCurrentStep_defined|].
  split; reflexivity.
Qed.

Lemma tour_currentStep_bounds_witness :
  let renders := [[StartTour]; [NextStep]; []; [PreviousStep]; [PreviousStep]] in
  let s := run_renders renders (mount ∅) in
  Forall (λ calls, (length calls ≤ 1)%nat) renders
  ∧ (0 ≤ currentStep s ≤ Z.of_nat (length tourSteps) - 1)
  ∧ is_Some (getCurrentStep s).
Proof.
  intros renders s.
  assert (Hrenders : Forall (λ calls, (length calls ≤ 1)%nat) renders).
  { repeat constructor. }
  split; [exact Hrenders|].
  destruct (tour_currentStep_bounds ∅ renders Hrenders) as (Hbounds & Hstep & _).
  split; [exact Hbounds|exact Hstep].
Defined.

End TourProperties.

(** ** The session of the API client *)

Section SessionProperties.
Import Js Browser Api Claimed.

Lemma absent_missing item : absent item = true ↔ missing item.
Proof.
  unfold missing. destruct item as [s|]; simpl.
  - rewrite String.eqb_eq. split; [intros ->; by right | intros [|]; congruence].
  - split; [by left | done].
Qed.

Lemma isSessionValid_result (w : world) :
  (isSessionValid w).1
  = Return (negb (absent (localStorage w !! SESSION_STORAGE_KEY)
                  || absent (localStorage w !! SESSION_TIMESTAMP_KEY))
            && negb (too_old (now w) (localStorage w !! SESSION_TIMESTAMP_KEY))).
Proof.
  unfold isSessionValid, too_old, mbind, js_bind, getItem, Date_now, mret, js_ret.
  simpl.
  destruct (absent (localStorage w !! SESSION_STORAGE_KEY)
            || absent (localStorage w !! SESSION_TIMESTAMP_KEY)); simpl; [done|].
  destruct (JsString.parseInt10 _) as [t|]; simpl; [|done].
  destruct (now w - t >? SESSION_TIMEOUT); done.
Qed.

(** C9, as stated, fails: both keys are stored, the time stamp is a number
    that is not older than 30 minutes, and the session is invalid all the
    same, because the stored session id is the empty string. *)
Lemma isSessionValid_empty_id :
  let w := {| localStorage := {[ SESSION_STORAGE_KEY := "";
                                 SESSION_TIMESTAMP_KEY := "1000" ]};
              sessionStorage := ∅; console := []; dispatched := [];
              now := 1000; sent := [] |} in
  is_Some (localStorage w !! SESSION_STORAGE_KEY)
  ∧ localStorage w !! SESSION_TIMESTAMP_KEY = Some "1000"
  ∧ JsString.parseInt10 "1000" = Some 1000
  ∧ ¬ (now w - 1000 > 1800000)
  ∧ (isSessionValid w).1 = Return false.
Proof.
  simpl. split; [by eexists|]. split; [done|]. split; [done|].
  split; [lia|]. by vm_compute.
Qed.

(** C9, amended. [isSessionValid] returns false exactly when the session id
    or the time stamp is absent from localStorage or stored as the empty
    string, or the stored time stamp parses to a number more than 30 minutes
    (1,800,000 ms) before the current time; in every other case it returns
    true, in particular when the time stamp does not parse (NaN). *)
Theorem isSessionValid_amended (w : world) :
  ∃ valid : bool,
    (isSessionValid w).1 = Return valid
    ∧ (valid = false ↔
         missing (localStorage w !! SESSION_STORAGE_KEY)
         ∨ missing (localStorage w !! SESSION_TIMESTAMP_KEY)
         ∨ ∃ ts t, localStorage w !! SESSION_TIMESTAMP_KEY = Some ts
                   ∧ JsString.parseInt10 ts = Some t
                   ∧ now w - t > 1800000)
    ∧ (¬ missing (localStorage w !! SESSION_STORAGE_KEY) →
       ∀ ts, localStorage w !! SESSION_TIMESTAMP_KEY = Some ts →
             ts ≠ "" → JsString.parseInt10 ts = None → valid = true).
Proof.
  eexists. split; [apply isSessionValid_result|].
  rewrite andb_false_iff, negb_false_iff, negb_false_iff, orb_true_iff.
  rewrite !absent_missing. unfold too_old. split.
  - split.
    + intros [[?|?]|Hold]; [by left | by right; left |].
      right; right.
      destruct (localStorage w !! SESSION_TIMESTAMP_KEY) as [ts|] eqn:Ets; simpl in Hold.
      * destruct (JsString.parseInt10 ts) as [t|] eqn:Et; [|done].
        exists ts, t. repeat split; try done.
        unfold SESSION_TIMEOUT in Hold. lia.
      * done.
    + intros [?|[?|(ts & t & Ets & Et & Hage)]]; [by left; left | by left; right |].
      right. rewrite Ets. simpl. rewrite Et. unfold SESSION_TIMEOUT. lia.
  - intros Hid ts Ets Hne Hnan.
    rewrite andb_true_iff, !negb_true_iff, orb_false_iff.
    rewrite Ets. simpl. rewrite Hnan. repeat split; try done.
    + destruct (absent (localStorage w !! SESSION_STORAGE_KEY)) eqn:E; [|done].
      by apply absent_missing in E.
    + apply String.eqb_neq. done.
Qed.

End SessionProperties.

(** ** The deployment script *)

Section DeployProperties.
Import Deploy.

Example read_fields_chat :
  read_fields "weather-chat-agent:agents/chat" = ("weather-chat-agent", "agents/chat").
Proof. reflexivity. Qed.

Example substitute_url :
  substitute ("https://chat.run.app" +:+ newline +:+ newline) = "https://chat.run.app".
Proof. reflexivity. Qed.

Example env_var_name_chat : env_var_name "weather-chat-agent" = "WEATHER_CHAT_AGENT_URL".
Proof. reflexivity. Qed.

(** *** The wait loop *)

Lemma wait_loop_exits_at_once c out name status rest :
  success_count c = 0 → failed_count c = 0 →
  ∃ out', wait_loop true ((name, status) :: rest) c out = Exit 1 out'.
Proof.
  intros Hs Hf. simpl. rewrite Hs, Hf. simpl.
  destruct (status =? 0); eauto.
Qed.

(** Under [set -e] the first increment of a counter, from 0, ends the
    script: it never reaches the summary, and exits with status 1 whatever
    the jobs returned. *)
Lemma script_exit_status name status rest :
  exit_status (script ((name, status) :: rest)) = Some 1.
Proof.
  unfold script, wait_and_report.
  destruct (wait_loop_exits_at_once
              {| success_count := 0; failed_count := 0 |} [] name status rest)
    as [out' ->]; done.
Qed.

(** Without [set -e] the loop counts every job once. *)
Lemma wait_loop_counts jobs c out :
  ∃ c' out',
    wait_loop false jobs c out = Running c' out'
    ∧ success_count c' + failed_count c'
      = success_count c + failed_count c + Z.of_nat (length jobs)
    ∧ failed_count c ≤ failed_count c'
    ∧ (failed_count c' = failed_count c ↔ all_succeeded jobs = true).
Proof.
  revert c out. induction jobs as [|[name status] rest IH]; intros c out.
  - exists c, out. simpl. repeat split; lia || done.
  - simpl. destruct (status =? 0) eqn:E; simpl.
    + edestruct IH as (c' & out' & -> & Hsum & Hle & Hiff).
      exists c', out'. simpl in *. repeat split; try lia; apply Hiff.
    + edestruct IH as (c' & out' & -> & Hsum & Hle & Hiff).
      exists c', out'. simpl in *. repeat split; try lia; try done.
Qed.

(** What the loop and the report were written for: were it not for
    [set -e], the script would exit with a nonzero status exactly when a job
    failed, with counts that add up to the number of jobs. *)
Lemma wait_and_report_without_errexit jobs :
  ∃ status out,
    wait_and_report false jobs = Exit status out
    ∧ (status ≠ 0 ↔ all_succeeded jobs = false)
    ∧ (all_succeeded jobs = true → status = 0).
Proof.
  unfold wait_and_report.
  destruct (wait_loop_counts jobs {| success_count := 0; failed_count := 0 |} [])
    as (c' & out' & -> & Hsum & Hle & Hiff). simpl in *.
  destruct (Z.gtb_spec (failed_count c') 0) as [Hgt|Hngt].
  - eexists _, _. split; [done|].
    assert (all_succeeded jobs ≠ true) by (rewrite <- Hiff; lia).
    split; [|done]. split; [by destruct (all_succeeded jobs) | done].
  - eexists _, _. split; [done|].
    assert (all_succeeded jobs = true) as -> by (apply Hiff; lia).
    split; [|done]. split; [done | intros; done].
Qed.

(** C3 (defect in the script). All six agents deploy, every [wait] returns
    0, and the script still exits with status 1: [((success_count++))]
    evaluates to 0 on the first success, which is a failing command under
    the [set -e] of line 5. *)
Theorem script_fails_when_all_succeed :
  exit_status (main [0; 0; 0; 0; 0; 0]) = Some 1
  ∧ ∃ out, main [0; 0; 0; 0; 0; 0] = Exit 1 out
           ∧ ¬ ("Deployment Summary:" ∈ out).
Proof.
  split; [reflexivity|].
  eexists. split; [reflexivity|].
  intros Hin. apply list_elem_of_In in Hin. simpl in Hin.
  destruct Hin as [Hin|[]]. discriminate Hin.
Qed.


(** *** One job *)

Lemma map_chars_app f s t : map_chars f (s +:+ t) = map_chars f s +:+ map_chars f t.
Proof.
  induction s as [|c s IH]; [done|].
  rewrite app_cons. simpl. by rewrite IH, app_cons.
Qed.

Lemma substitute_line s :
  count_newlines s = 0%nat → substitute (s +:+ newline) = s.
Proof.
  induction s as [|c s IH]; [done|].
  rewrite app_cons. simpl.
  destruct (Ascii.eqb c "010") eqn:E; [done|]. simpl. intros Hs.
  rewrite (IH Hs). destruct s; [|done]. done.
Qed.

Lemma echo_name c rest : is_lower c = true → echo (String c rest) = String c rest +:+ newline.
Proof. destruct c as [[] [] [] [] [] [] [] []]; try discriminate; reflexivity. Qed.

Lemma tr_char_no_newline c :
  name_char c = true →
  Ascii.eqb (if Ascii.eqb (JsString.upper c) "-" then "_"%char else JsString.upper c) "010" = false.
Proof. destruct c as [[] [] [] [] [] [] [] []]; try discriminate; reflexivity. Qed.

Lemma tr_no_newline s :
  all_chars name_char s = true → count_newlines (tr_hyphen (tr_upper s)) = 0%nat.
Proof.
  induction s as [|c s IH]; [done|]. simpl.
  intros [Hc Hs]%andb_true_iff.
  unfold tr_hyphen, tr_upper in *. rewrite (tr_char_no_newline c Hc). by rewrite IH.
Qed.

Lemma is_lower_name_char c : is_lower c = true → name_char c = true.
Proof. unfold name_char. by intros ->. Qed.

Lemma env_var_name_valid name :
  valid_service_name name = true →
  env_var_name name = tr_hyphen (tr_upper name) +:+ "_URL"
  ∧ count_newlines (tr_hyphen (tr_upper name)) = 0%nat.
Proof.
  destruct name as [|c rest]; [done|]. simpl.
  intros [Hc Hrest]%andb_true_iff.
  assert (Hn : count_newlines (tr_hyphen (tr_upper (String c rest))) = 0%nat).
  { apply tr_no_newline. simpl. by rewrite (is_lower_name_char c Hc), Hrest. }
  split; [|exact Hn].
  unfold env_var_name. rewrite (echo_name c rest Hc).
  unfold tr_hyphen, tr_upper in *. rewrite !map_chars_app.
  change (map_chars _ (map_chars JsString.upper newline)) with newline.
  by rewrite substitute_line.
Qed.


Lemma waiting_for_lock `{Cloud} (j : job) (f : files) (url : string) (fuel : nat) :
  at_ j = Locking url →
  lockfile (service_name j) ∈ directories f →
  deploy_agent fuel j f = None.
Proof.
  intros Hat Hlock. induction fuel as [|fuel IH]; simpl; rewrite Hat; [done|].
  unfold job_step. rewrite Hat. by rewrite bool_decide_eq_true_2.
Qed.





(** The names of [AGENTS_TO_DEPLOY] are such names. *)
Lemma agents_have_valid_names :
  Forall (λ info, valid_service_name (read_fields info).1 = true) AGENTS_TO_DEPLOY.
Proof. repeat constructor. Qed.

(** The append is one step of the job, whatever the other jobs do around
    it, and a job takes it once. *)
Lemma job_step_appending `{Cloud} (j : job) (f : files) (url : string) :
  at_ j = Appending url →
  job_step j f
  = (goto j (Unlocking url),
     {| env_production :=
          env_production f +:+ "REACT_APP_" +:+ env_var_name (service_name j)
            +:+ "=" +:+ url +:+ newline;
        directories := directories f |}).
Proof. intros Hat. unfold job_step. by rewrite Hat. Qed.

Lemma job_step_elsewhere `{Cloud} (j : job) (f : files) :
  (∀ url, at_ j ≠ Appending url) →
  env_production (job_step j f).2 = env_production f.
Proof.
  intros Hat. unfold job_step. destruct (at_ j) eqn:E; simpl; try done.
  - by destruct (_ =? 0).
  - by destruct (bool_decide _).
  - by destruct (Hat service_url).
Qed.

(** *** The jobs together *)

Ltac job_steps i :=
  eapply rtc_l;
  [ eapply (Job_steps i); [ reflexivity | unfold job_step; simpl ] | simpl ].

(** C7 (defect in the script). The lock directory is named after the
    service, so two jobs never ask for the same one: the jobs of the first
    two agents can both be between their [mkdir] and their [rmdir], each
    about to append to the shared file. *)
Theorem lock_does_not_exclude `{Cloud} :
  adk_deploy "weather-alerts-snapshot-agent" "agents/alerts_snapshot_agent" = 0 →
  adk_deploy "weather-emergency-resources-agent" "agents/emergency_resources_agent" = 0 →
  ∃ jobs f j1 j2 url1 url2,
    reachable (initial ∅) (jobs, f)
    ∧ jobs !! 0%nat = Some j1 ∧ jobs !! 1%nat = Some j2
    ∧ at_ j1 = Appending url1 ∧ at_ j2 = Appending url2
    ∧ in_critical_section j1 = true ∧ in_critical_section j2 = true
    ∧ lockfile (service_name j1) ≠ lockfile (service_name j2).
Proof.
  intros H1 H2. do 6 eexists. split.
  - unfold reachable, initial. simpl.
    job_steps 0%nat. { rewrite H1. reflexivity. }
    job_steps 0%nat. { reflexivity. }
    job_steps 0%nat. { rewrite bool_decide_eq_false_2 by apply not_elem_of_empty. reflexivity. }
    job_steps 1%nat. { rewrite H2. reflexivity. }
    job_steps 1%nat. { reflexivity. }
    job_steps 1%nat.
    { rewrite bool_decide_eq_false_2; [reflexivity|].
      rewrite elem_of_union, elem_of_singleton. intros [Heq|Hin]; [discriminate Heq|].
      by apply not_elem_of_empty in Hin. }
    apply rtc_refl.
  - simpl. repeat split; try reflexivity. discriminate.
Qed.

Lemma lock_does_not_exclude_witness :
  @adk_deploy all_deployed "weather-alerts-snapshot-agent" "agents/alerts_snapshot_agent" = 0
  ∧ @adk_deploy all_deployed "weather-emergency-resources-agent" "agents/emergency_resources_agent" = 0
  ∧ ∃ jobs f j1 j2 url1 url2,
      @reachable all_deployed (initial ∅) (jobs, f)
      ∧ jobs !! 0%nat = Some j1 ∧ jobs !! 1%nat = Some j2
      ∧ at_ j1 = Appending url1 ∧ at_ j2 = Appending url2
      ∧ in_critical_section j1 = true ∧ in_critical_section j2 = true
      ∧ lockfile (service_name j1) ≠ lockfile (service_name j2).
Proof.
  split; [reflexivity|]. split; [reflexivity|].
  apply (@lock_does_not_exclude all_deployed); reflexivity.
Defined.

End DeployProperties.

(** ** The API client *)

Section ApiProperties.
Import Js Browser Api Claimed.
Context `{JSON} `{Agents}.

Lemma logged_logged l1 l2 w : logged l2 (logged l1 w) = logged (l1 ++ l2) w.
Proof. unfold logged. simpl. by rewrite app_assoc. Qed.

Lemma logged_nil w : logged [] w = w.
Proof. destruct w. unfold logged. simpl. by rewrite app_nil_r. Qed.

Ltac js_unfold :=
  unfold mbind, js_bind, mret, js_ret, throw, try_catch, read, console_log,
    console_error, substring_of, not_iterable, TypeError.

(** *** The loops of [query] only write to the console *)

Lemma for_parts_logged_run parts acc w :
  ∃ c lines, for_parts_logged parts acc w = (c, logged lines w) ∧ internal c.
Proof.
  revert acc w. induction parts as [|part rest IH]; intros acc w.
  - exists (Return acc), []. by rewrite logged_nil.
  - simpl. js_unfold. destruct (get part "text") as [text|]; simpl.
    + destruct (truthy text).
      * destruct text; simpl;
          try (eexists _, []; rewrite logged_nil; split; [done|]; simpl; eauto).
        edestruct IH as (c & lines & -> & Hc).
        eexists c, (_ :: lines). split; [|done]. unfold logged. simpl.
        by rewrite <- app_assoc.
      * apply IH.
    + eexists _, []. rewrite logged_nil. split; [done|]. simpl. eauto.
Qed.

Lemma for_parts_run parts acc w :
  ∃ c, for_parts parts acc w = (c, w) ∧ internal c.
Proof.
  revert acc w. induction parts as [|part rest IH]; intros acc w.
  - by exists (Return acc).
  - simpl. js_unfold. destruct (get part "text") as [text|]; simpl.
    + destruct (truthy text); apply IH.
    + eexists. split; [done|]. simpl. eauto.
Qed.

Lemma for_events_run events acc w :
  ∃ c lines, for_events events acc w = (c, logged lines w) ∧ internal c.
Proof.
  revert acc w. induction events as [|event rest IH]; intros acc w.
  - exists (Return acc), []. by rewrite logged_nil.
  - simpl. js_unfold. destruct (get event "content") as [content|]; simpl.
    + destruct (truthy _).
      * destruct (iterate _) as [ps|].
        -- destruct (for_parts_logged_run ps acc w) as ([t|e] & lines & -> & Hc).
           ++ destruct (IH t (logged lines w)) as (c & lines' & -> & Hc').
              exists c, (lines ++ lines'). by rewrite logged_logged.
           ++ by exists (Throw e), lines.
        -- eexists _, []. rewrite logged_nil. split; [done|]. simpl. eauto.
      * apply IH.
    + eexists _, []. rewrite logged_nil. split; [done|]. simpl. eauto.
Qed.

Lemma response_text_run body w :
  ∃ c lines, response_text body w = (c, logged lines w) ∧ internal c.
Proof.
  assert (Hother : ∃ c lines,
    (content ← read body "content";
     let parts := get_opt content "parts" in
     if truthy parts then
       console_log "[API] Processing single object response";;
       match iterate parts with
       | Some ps => for_parts ps ""
       | None => not_iterable
       end
     else mret "") w = (c, logged lines w) ∧ internal c).
  { js_unfold. destruct (get body "content") as [content|]; simpl.
    - destruct (truthy _).
      + destruct (iterate _) as [ps|].
        * edestruct for_parts_run as (c & -> & Hc). by eexists c, [_].
        * eexists _, [_]. split; [done|]. simpl. eauto.
      + eexists _, []. by rewrite logged_nil.
    - eexists _, []. rewrite logged_nil. split; [done|]. simpl. eauto. }
  destruct body; try exact Hother.
  unfold response_text. js_unfold.
  edestruct for_events_run as (c & lines & -> & Hc).
  eexists c, (_ :: lines). split; [|done]. unfold logged. simpl.
  by rewrite <- app_assoc.
Qed.

(** *** The text of a well-formed response *)

Lemma concat_app a b : Claimed.concat (a ++ b) = Claimed.concat a +:+ Claimed.concat b.
Proof.
  unfold Claimed.concat. induction a as [|x a IH]; [done|].
  simpl. by rewrite IH, app_assoc_s.
Qed.

Lemma parts_text_app a b : parts_text (a ++ b) = parts_text a +:+ parts_text b.
Proof. unfold parts_text. by rewrite omap_app, concat_app. Qed.

Lemma parts_text_cons part rest :
  parts_text (part :: rest) = from_option id "" (part_text part) +:+ parts_text rest.
Proof. unfold parts_text. simpl. by destruct (part_text part). Qed.

Lemma for_parts_logged_text parts acc w :
  forallb is_part parts = true →
  ∃ lines, for_parts_logged parts acc w = (Return (acc +:+ parts_text parts), logged lines w).
Proof.
  revert acc w. induction parts as [|part rest IH]; intros acc w Hparts.
  - exists []. rewrite logged_nil. simpl. by rewrite app_empty_r.
  - simpl in Hparts. apply andb_true_iff in Hparts as [Hpart Hrest].
    rewrite parts_text_cons. simpl. js_unfold.
    destruct part as [| | | | |?|fs]; try discriminate. simpl.
    unfold part_text. simpl. simpl in Hpart.
    destruct (field "text" fs) as [| | | |s| |]; try discriminate; simpl;
      try apply (IH _ _ Hrest).
    destruct (String.eqb s "") eqn:Es; simpl.
    + apply String.eqb_eq in Es as ->. apply (IH _ _ Hrest).
    + destruct (IH (acc +:+ s) (logged [(LOG, "[API] Found text:")] w) Hrest)
        as (lines & Hrun).
      unfold logged in Hrun at 1. rewrite Hrun. eexists (_ :: lines).
      rewrite app_assoc_s. unfold logged. simpl. by rewrite <- app_assoc.
Qed.

Lemma for_parts_text parts acc w :
  forallb is_part parts = true →
  for_parts parts acc w = (Return (acc +:+ parts_text parts), w).
Proof.
  revert acc w. induction parts as [|part rest IH]; intros acc w Hparts.
  - simpl. by rewrite app_empty_r.
  - simpl in Hparts. apply andb_true_iff in Hparts as [Hpart Hrest].
    rewrite parts_text_cons. simpl. js_unfold.
    destruct part as [| | | | |?|fs]; try discriminate. simpl.
    unfold part_text. simpl. simpl in Hpart.
    destruct (field "text" fs) as [| | | |s| |]; try discriminate; simpl;
      try apply (IH _ _ Hrest).
    destruct (String.eqb s "") eqn:Es; simpl.
    + apply String.eqb_eq in Es as ->. apply (IH _ _ Hrest).
    + rewrite (IH _ _ Hrest). by rewrite app_assoc_s.
Qed.

Lemma events_text_cons event rest :
  events_text (event :: rest) = parts_text (parts_of event) +:+ events_text rest.
Proof. unfold events_text. simpl. apply parts_text_app. Qed.

Lemma for_events_text events acc w :
  forallb is_event events = true →
  ∃ lines, for_events events acc w = (Return (acc +:+ events_text events), logged lines w).
Proof.
  revert acc w. induction events as [|event rest IH]; intros acc w Hevents.
  - exists []. rewrite logged_nil. simpl. by rewrite app_empty_r.
  - simpl in Hevents. apply andb_true_iff in Hevents as [Hevent Hrest].
    rewrite events_text_cons. simpl. js_unfold.
    destruct event as [| | | | |?|fs]; try discriminate. simpl.
    unfold parts_of. simpl. simpl in Hevent.
    destruct (field "content" fs) as [| | | | |?|cs]; try discriminate; simpl;
      try apply (IH _ _ Hrest).
    simpl in Hevent.
    destruct (field "parts" cs) as [| | | | |ps|]; try discriminate; simpl;
      try apply (IH _ _ Hrest).
    destruct (for_parts_logged_text ps acc w Hevent) as (lines & ->).
    destruct (IH (acc +:+ parts_text ps) (logged lines w) Hrest) as (lines' & ->).
    exists (lines ++ lines'). by rewrite logged_logged, app_assoc_s.
Qed.

Lemma response_text_events events w :
  forallb is_event events = true →
  (response_text (Arr events) w).1 = Return (events_text events).
Proof.
  intros Hevents. unfold response_text. js_unfold.
  edestruct for_events_text as (lines & ->); [exact Hevents|]. done.
Qed.

Lemma response_text_object body w :
  is_event body = true → has_parts body = true →
  (response_text body w).1 = Return (parts_text (parts_of body)).
Proof.
  unfold has_parts, parts_of.
  destruct body as [| | | | |?|fs]; try discriminate. simpl.
  js_unfold. simpl.
  destruct (field "content" fs) as [| | | | |?|cs]; try discriminate. simpl.
  destruct (field "parts" cs) as [| | | | |ps|]; try discriminate. simpl.
  intros Hparts _. by rewrite for_parts_text.
Qed.

Lemma response_text_other body w :
  is_array body = false → has_parts body = false →
  body ≠ Null → body ≠ Undefined →
  (response_text body w).1 = Return "".
Proof.
  unfold has_parts.
  destruct body as [| | | | |?|fs]; try discriminate; try done; simpl;
    js_unfold; simpl; try done.
  intros _ ->. done.
Qed.

Lemma response_text_null w :
  ∃ e, (response_text Null w).1 = Throw e.
Proof. by eexists. Qed.

(** *** [clearBrowserState] *)

Lemma forEach_removeItem keys w :
  forEach keys removeItem w
  = (Return (), {| localStorage := foldl (λ m k, delete k m) (localStorage w) keys;
                   sessionStorage := sessionStorage w; console := console w;
                   dispatched := dispatched w; now := now w; sent := sent w |}).
Proof.
  revert w. induction keys as [|k keys IH]; intros w; [by destruct w|].
  simpl. unfold mbind, js_bind, removeItem, with_localStorage. rewrite IH. done.
Qed.

Lemma lookup_foldl_delete (keys : list string) (m : gmap string string) k :
  foldl (λ m k, delete k m) m keys !! k = if decide (k ∈ keys) then None else m !! k.
Proof.
  revert m. induction keys as [|k' keys IH]; intros m.
  - destruct (decide (k ∈ [])) as [Hin|]; [|done]. by apply not_elem_of_nil in Hin.
  - change (foldl _ m (k' :: keys)) with (foldl (λ m k, delete k m) (delete k' m) keys).
    rewrite IH.
    destruct (decide (k ∈ keys)) as [Hin|Hnin];
      destruct (decide (k ∈ k' :: keys)) as [Hin'|Hnin']; try done.
    + exfalso. apply Hnin'. by right.
    + apply elem_of_cons in Hin' as [->|?]; [|done]. apply lookup_delete_eq.
    + apply lookup_delete_ne. intros ->. apply Hnin'. by left.
Qed.

(** The loop removes the keys with one of the six prefixes and no other. *)
Lemma cleared_lookup store k :
  cleared store !! k = if clearable k then None else store !! k.
Proof.
  unfold cleared. rewrite lookup_foldl_delete.
  destruct (decide _) as [Hin|Hnin].
  - apply list_elem_of_In, filter_In in Hin as [_ ->]. done.
  - destruct (clearable k) eqn:Ek; [|done].
    destruct (store !! k) as [v|] eqn:Ev; [|done].
    exfalso. apply Hnin. apply list_elem_of_In, filter_In. split; [|done].
    apply list_elem_of_In, list_elem_of_fmap. exists (k, v). split; [done|].
    by apply elem_of_map_to_list.
Qed.

Lemma clearBrowserState_run w :
  clearBrowserState w
  = (Return (), {| localStorage := cleared (localStorage w);
                   sessionStorage := ∅;
                   console := console w ++ [(LOG, "[API] Clearing browser state due to session expiration")];
                   dispatched := dispatched w ++ ["sessionExpired"];
                   now := now w; sent := sent w |}).
Proof.
  unfold clearBrowserState, mbind, js_bind, console_log, localStorage_keys.
  simpl. rewrite forEach_removeItem. done.
Qed.

Lemma isSessionValid_run w :
  ∃ valid lines, isSessionValid w = (Return valid, logged lines w).
Proof.
  unfold isSessionValid, mbind, js_bind, getItem, Date_now, mret, js_ret, console_log.
  simpl.
  destruct (absent _ || absent _); simpl.
  { eexists _, []. by rewrite logged_nil. }
  destruct (JsString.parseInt10 _) as [t|]; simpl.
  - destruct (_ >? _); [by eexists _, [_] | eexists _, []; by rewrite logged_nil].
  - eexists _, []. by rewrite logged_nil.
Qed.

Lemma clearable_session_id : clearable SESSION_STORAGE_KEY = true.
Proof. reflexivity. Qed.

Lemma clearable_session_timestamp : clearable SESSION_TIMESTAMP_KEY = true.
Proof. reflexivity. Qed.

(** *** The latest request *)

Lemma latest_reply_none w w' : sent w' = sent w → latest_reply w w' = None.
Proof.
  unfold latest_reply. intros ->. destruct (sent w); [done|].
  by rewrite Nat.ltb_irrefl.
Qed.

Lemma latest_reply_some w w' r reqs :
  sent w' = r :: reqs ++ sent w →
  latest_reply w w' = Some (r, respond (r :: reqs ++ sent w)).
Proof.
  unfold latest_reply. intros ->.
  assert ((length (sent w) <? length (r :: reqs ++ sent w))%nat = true) as ->; [|done].
  apply Nat.ltb_lt. simpl. rewrite length_app. lia.
Qed.

(** *** Running a method symbolically *)

Ltac run_step :=
  match goal with
  | |- context [isSessionValid ?W] =>
      let v := fresh "valid" in
      destruct (isSessionValid_run W) as (v & ? & ->); destruct v
  | |- context [clearBrowserState ?W] => rewrite (clearBrowserState_run W)
  | |- context [response_text ?b ?W] =>
      let Ht := fresh "Htext" in
      let Hi := fresh "Hint" in
      let c := fresh "c" in
      destruct (response_text_run b W) as (c & ? & Ht & Hi);
      rewrite Ht; apply (f_equal fst) in Ht; simpl in Ht;
      destruct c as [?|[? ?]]; [|simpl in Hi; destruct Hi as [-> [? ->]]]
  | |- context [respond ?x] => destruct (respond x) as [?|?] eqn:?
  | |- context [is_2xx ?st] => destruct (is_2xx st) eqn:?
  | |- context [?st =? 404] => destruct (Z.eqb_spec st 404)
  | |- context [?st =? 401] => destruct (Z.eqb_spec st 401)
  | |- context [absent ?i] => destruct (absent i) eqn:?
  | |- context [get ?v ?k] => destruct (get v k) eqn:?
  | |- context [data_url ?f] => destruct (data_url f) eqn:?
  | |- context [JsString.split ?c ?s] => destruct (JsString.split c s) as [|? [|? ?]] eqn:?
  | |- context [final_step_text ?d] => destruct (final_step_text d) eqn:?
  | |- context [truthy ?t] => destruct (truthy t) eqn:?
  | |- context [JSON_parse ?t] => destruct (JSON_parse t) eqn:?
  end; simpl.

Ltac find_member :=
  repeat first
    [ apply list_elem_of_here
    | apply list_elem_of_further
    | apply elem_of_app; right ].

Ltac solve_console :=
  simpl; rewrite <- ?app_assoc; eexists; split; [reflexivity|];
  simpl; find_member.

Ltac solve_store :=
  let k := fresh "k" in let Hk := fresh "Hk" in
  intros k Hk; simpl;
  repeat first
    [ rewrite cleared_lookup, Hk
    | rewrite lookup_insert_ne
        by (intros <-; first [ rewrite clearable_session_id in Hk
                             | rewrite clearable_session_timestamp in Hk ];
            discriminate Hk) ];
  reflexivity.

Ltac solve_grown :=
  split; [simpl; rewrite <- ?app_assoc; eexists; reflexivity|];
  split; [first [by exists [] | by eexists [_] | by eexists [_; _]
                | by eexists [_; _; _] | by eexists [_; _; _; _]]|];
  solve_store.

Ltac find_latest Hl :=
  first
    [ rewrite latest_reply_none in Hl by reflexivity
    | rewrite (latest_reply_some _ _ _ []) in Hl by reflexivity
    | rewrite (latest_reply_some _ _ _ [_]) in Hl by reflexivity
    | rewrite (latest_reply_some _ _ _ [_; _]) in Hl by reflexivity
    | rewrite (latest_reply_some _ _ _ [_; _; _]) in Hl by reflexivity ];
  simpl in Hl;
  repeat match goal with Hr : respond _ = _ |- _ => rewrite Hr in Hl end.

Ltac find_latest_goal :=
  first
    [ rewrite latest_reply_none by reflexivity
    | rewrite (latest_reply_some _ _ _ []) by reflexivity
    | rewrite (latest_reply_some _ _ _ [_]) by reflexivity
    | rewrite (latest_reply_some _ _ _ [_; _]) by reflexivity
    | rewrite (latest_reply_some _ _ _ [_; _; _]) by reflexivity ];
  simpl;
  repeat match goal with Hr : respond _ = _ |- _ => rewrite Hr end.

Ltac solve_reset :=
  split; [reflexivity|];
  split; [ let k := fresh "k" in let Hk := fresh "Hk" in
           intros k Hk; simpl; by rewrite cleared_lookup, Hk
         | simpl; find_member ].

(** *** [query] and [queryWithImage] *)

Lemma chat_catch_message e fallback : ∃ m, message (user_facing e fallback) = Str m.
Proof. unfold user_facing, Error. simpl. eauto. Qed.

Ltac solve_chat_throw :=
  split; [apply chat_catch_message|];
  split; [solve_console|];
  split;
  [ let Hr := fresh "Hr" in let Hs := fresh "Hs" in
    intros ? ? Hr Hs; unfold run_reply in Hr; find_latest Hr;
    simplify_eq; try congruence; eauto
  | let Hl := fresh "Hl" in let Hs := fresh "Hs" in
    intros ? ? ? Hl Hs; find_latest Hl; simplify_eq;
    try (destruct Hs; simplify_eq; fail);
    try solve_reset ].

Ltac solve_chat_return :=
  eexists _, _, _, _; unfold run_reply; find_latest_goal;
  split; [reflexivity|]; split; [eassumption|]; split; [eassumption|reflexivity].

Ltac run_chat :=
  unfold query_catch, getOrCreateSession, updateSessionTimestamp, read_base64;
  unfold try_catch, mbind, js_bind, mret, js_ret, throw, read, console_log,
    console_error, getItem, setItem, with_localStorage, Date_now, post, status_is;
  simpl;
  repeat run_step;
  intros [= <- <-];
  (split; [solve_grown|]);
  first [solve_chat_return | solve_chat_throw].

Lemma query_post q w c w' : query q w = (c, w') → chat_post w c w'.
Proof.
  destruct w as [ls ss con dis now sent]. unfold query. run_chat.
Qed.

Lemma queryWithImage_post q f w c w' : queryWithImage q f w = (c, w') → chat_post w c w'.
Proof.
  destruct w as [ls ss con dis now sent]. unfold queryWithImage. run_chat.
Qed.


Lemma run_reply_latest w w' reply :
  run_reply w w' = Some reply → ∃ r, latest_reply w w' = Some (r, reply) ∧ req_url r = "/run".
Proof.
  unfold run_reply. destruct (latest_reply w w') as [[r reply']|]; [|done].
  destruct (String.eqb_spec (req_url r) "/run"); [|done].
  intros [= ->]. eauto.
Qed.

Lemma chat_returns_text (run : js answer) w st body t :
  (∀ c w', run w = (c, w') → chat_post w c w') →
  run_reply w (run w).2 = Some (Responded st body) →
  is_2xx st = true →
  (∀ w1, (response_text body w1).1 = Return t) →
  ∃ sid, (run w).1 = Return {| content := Str t; session_id := sid |}.
Proof.
  intros Hrun. destruct (run w) as [c w'] eqn:Hout. simpl.
  intros Hreply H2xx Htext.
  destruct (Hrun c w' eq_refl) as [_ Hpost]. destruct c as [[cont sid]|e].
  - destruct Hpost as (st' & body' & t' & w1 & Hreply' & _ & Ht' & Hcont).
    simpl in Hcont. rewrite Hreply in Hreply'. injection Hreply' as <- <-.
    rewrite Htext in Ht'. injection Ht' as <-. subst cont. eauto.
  - destruct Hpost as (_ & _ & Hthrow & _).
    destruct (Hthrow st body Hreply H2xx) as (w1 & e' & He').
    rewrite Htext in He'. discriminate He'.
Qed.

Lemma chat_throws (run : js answer) w st body :
  (∀ c w', run w = (c, w') → chat_post w c w') →
  run_reply w (run w).2 = Some (Responded st body) →
  (∀ w1, ∃ e, (response_text body w1).1 = Throw e) →
  ∃ e m, (run w).1 = Throw e ∧ message e = Str m.
Proof.
  intros Hrun. destruct (run w) as [c w'] eqn:Hout. simpl.
  intros Hreply Hthrows.
  destruct (Hrun c w' eq_refl) as [_ Hpost]. destruct c as [[cont sid]|e].
  - destruct Hpost as (st' & body' & t' & w1 & Hreply' & _ & Ht' & _).
    rewrite Hreply in Hreply'. injection Hreply' as <- <-.
    destruct (Hthrows w1) as [e He]. rewrite He in Ht'. discriminate Ht'.
  - destruct Hpost as ((m & Hm) & _). eauto.
Qed.

(** C1, amended. Call an event object well formed when its [content] is
    missing, [null] or an object whose [parts] is missing, [null] or an
    array of objects whose [text] is missing, [null] or a string.  For a
    2xx response to the [/run] call of [query] (or of [queryWithImage]):
    when the body is an array of well-formed event objects, the returned
    content is the in-order concatenation of the non-empty texts of all
    parts of all events; when it is a single well-formed event object with
    [content.parts], the concatenation of the non-empty texts of its
    parts; when it is not an array, is neither [null] nor [undefined], and
    has no [content.parts] (missing or falsy), the empty string; when it
    is [null] or [undefined], the method throws an error with a message
    instead of returning.  Nothing is said of the bodies with an event
    that is not well formed. *)
Theorem query_content (q : value) (image : option image_file) (w : world)
    (st : Z) (body : value) :
  let run := match image with
             | Some f => queryWithImage q f
             | None => query q
             end in
  run_reply w (run w).2 = Some (Responded st body) →
  is_2xx st = true →
  (∀ events, body = Arr events → forallb is_event events = true →
     ∃ sid, (run w).1
            = Return {| content := Str (events_text events); session_id := sid |})
  ∧ (is_event body = true → has_parts body = true →
     ∃ sid, (run w).1
            = Return {| content := Str (parts_text (parts_of body)); session_id := sid |})
  ∧ (is_array body = false → has_parts body = false →
     body ≠ Null → body ≠ Undefined →
     ∃ sid, (run w).1 = Return {| content := Str ""; session_id := sid |})
  ∧ (body = Null ∨ body = Undefined →
     ∃ e m, (run w).1 = Throw e ∧ message e = Str m).
Proof.
  intros run Hreply H2xx.
  assert (Hrun : ∀ c w', run w = (c, w') → chat_post w c w').
  { subst run. destruct image as [f|]; intros c w';
      [apply queryWithImage_post | apply query_post]. }
  repeat split.
  - intros events -> Hevents. eapply chat_returns_text; [done..|].
    intros w1. by apply response_text_events.
  - intros Hevent Hparts. eapply chat_returns_text; [done..|].
    intros w1. by apply response_text_object.
  - intros Harr Hparts Hnull Hundef. eapply chat_returns_text; [done..|].
    intros w1. by apply response_text_other.
  - intros Hbody. eapply chat_throws; [done..|].
    intros w1. destruct Hbody as [-> | ->]; by eexists.
Qed.

(** C2, amended. When the latest reply received by [query] or
    [queryWithImage] is an HTTP 401 or 404, the method clears the browser
    state before it throws: every localStorage key that starts with
    dashboard, weather_agent, chat, forecast, risk or emergency is removed,
    the other keys keep their values, sessionStorage is emptied and the
    event sessionExpired is dispatched; then it throws an error with a
    message. *)
Theorem reset_on_401_404 (q : value) (image : option image_file) (w : world)
    (r : request) (st : Z) (body : value) :
  let run := match image with
             | Some f => queryWithImage q f
             | None => query q
             end in
  latest_reply w (run w).2 = Some (r, Responded st body) →
  st = 401 ∨ st = 404 →
  (∃ e m, (run w).1 = Throw e ∧ message e = Str m)
  ∧ sessionStorage (run w).2 = ∅
  ∧ (∀ k, clearable k = true → localStorage (run w).2 !! k = None)
  ∧ (∀ k, clearable k = false → localStorage (run w).2 !! k = localStorage w !! k)
  ∧ "sessionExpired" ∈ dispatched (run w).2.
Proof.
  intros run Hlatest Hst.
  assert (Hpost : chat_post w (run w).1 (run w).2).
  { subst run. destruct image as [f|].
    - apply (queryWithImage_post q f). by destruct (queryWithImage q f w).
    - apply (query_post q). by destruct (query q w). }
  destruct Hpost as [(_ & _ & Hkeep) Hpost].
  destruct ((run w).1) as [a|e].
  - exfalso. destruct Hpost as (st' & body' & t & w1 & Hreply & H2xx & _).
    apply run_reply_latest in Hreply as (r' & Hlatest' & _).
    rewrite Hlatest in Hlatest'. injection Hlatest' as <- <- <-.
    destruct Hst as [-> | ->]; discriminate H2xx.
  - destruct Hpost as ((m & Hm) & _ & _ & Hreset).
    destruct (Hreset r st body Hlatest Hst) as (Hss & Hcleared & Hevent).
    repeat split; eauto.
Qed.


(** *** [getSuggestedActions] *)

Lemma parse_suggestions_length content : (length (parse_suggestions content) ≤ 4)%nat.
Proof. unfold parse_suggestions. rewrite length_take. lia. Qed.

Lemma parse_suggestions_elem content s :
  s ∈ parse_suggestions content →
  s ∈ JsString.trim <$> JsString.split "010" content
  ∧ s ≠ ""
  ∧ ∀ word, word ∈ ["here"; "based"; "example"; "format"] →
            JsString.startsWith_ci word s = false.
Proof.
  unfold parse_suggestions. intros Hs.
  apply (subseteq_take 4) in Hs.
  apply list_elem_of_In, filter_In in Hs as [Hin Hkeep].
  apply list_elem_of_In in Hin. split; [done|].
  unfold keep, preamble in Hkeep.
  apply andb_true_iff in Hkeep as [Hne Hpre].
  apply negb_true_iff in Hne, Hpre.
  apply orb_false_iff in Hpre as [Hpre Hformat].
  apply orb_false_iff in Hpre as [Hpre Hexample].
  apply orb_false_iff in Hpre as [Hhere Hbased].
  split; [by apply String.eqb_neq|].
  intros word Hword. repeat (apply elem_of_cons in Hword as [->|Hword]; [done|]).
  by apply not_elem_of_nil in Hword.
Qed.

(** C10. [getSuggestedActions] always returns an array, of at most 4
    strings; each is a non-empty trimmed line of the content of the chat
    response and begins with none of here, based, example, format, whatever
    the case of the letters; when the underlying [query] throws or returns
    no content, or is not reached, the array is empty. *)
Theorem getSuggestedActions_returns (lastUserQuery lastAgentResponse : value) (w : world) :
  ∃ suggestions : list string,
    (getSuggestedActions lastUserQuery lastAgentResponse w).1 = Return suggestions
    ∧ (length suggestions ≤ 4)%nat
    ∧ (∀ s, s ∈ suggestions → s ≠ "")
    ∧ (∀ s word, s ∈ suggestions → word ∈ ["here"; "based"; "example"; "format"] →
         JsString.startsWith_ci word s = false)
    ∧ match underlying_query lastUserQuery lastAgentResponse w with
      | Some (Return a) =>
          (∀ s, s ∈ suggestions →
             s ∈ JsString.trim <$> JsString.split "010" (toString (content a)))
          ∧ (truthy (content a) = false → suggestions = [])
      | Some (Throw _) | None => suggestions = []
      end.
Proof.
  unfold getSuggestedActions, underlying_query, logged.
  unfold try_catch, mbind, js_bind, mret, js_ret, console_log, console_error,
    substring500, throw.
  assert (Hempty : ∀ P : list string → Prop, P [] →
    ∃ suggestions : list string,
      Return [] = Return suggestions
      ∧ (length suggestions ≤ 4)%nat
      ∧ (∀ s, s ∈ suggestions → s ≠ "")
      ∧ (∀ s word, s ∈ suggestions → word ∈ ["here"; "based"; "example"; "format"] →
           JsString.startsWith_ci word s = false)
      ∧ P suggestions).
  { intros P HP. exists []. split; [done|]. split; [simpl; lia|].
    split; [intros s Hin; by apply not_elem_of_nil in Hin|].
    split; [intros s word Hin; by apply not_elem_of_nil in Hin|done]. }
  destruct lastAgentResponse as [| | | |s| |]; simpl;
    try (apply (Hempty (λ l, l = [])); reflexivity).
  match goal with
  | |- context [query ?p ?W] => destruct (query p W) as [[a|e] w1]
  end; simpl.
  - destruct (truthy (content a)) eqn:Htruthy; simpl.
    + eexists. split; [reflexivity|]. split; [apply parse_suggestions_length|].
      split; [|split; [|split]].
      * intros s' Hs. by apply parse_suggestions_elem in Hs as (_ & ? & _).
      * intros s' word Hs Hword.
        apply parse_suggestions_elem in Hs as (_ & _ & Hwords). by apply Hwords.
      * intros s' Hs. by apply parse_suggestions_elem in Hs as (? & _).
      * done.
    + apply (Hempty (λ l, (∀ s', s' ∈ l → s' ∈ _) ∧ (_ → l = []))).
      split; [intros s' Hin; by apply not_elem_of_nil in Hin|done].
  - apply (Hempty (λ l, l = [])). reflexivity.
Qed.

(** *** The methods that talk to one agent *)

Ltac solve_error_logged :=
  unfold error_logged; simpl; rewrite <- ?app_assoc; eexists _, _;
  split; [reflexivity|]; simpl; find_member.

Ltac solve_http :=
  let Hl := fresh "Hl" in let Hf := fresh "Hf" in
  intros (? & ? & Hl & Hf); find_latest Hl; simplify_eq; simpl in Hf;
  first
    [ discriminate Hf
    | match goal with Hb : is_2xx _ = true |- _ => rewrite Hb in Hf; discriminate Hf end
    | split; [solve_error_logged|];
      first [ reflexivity
            | eexists _, _; split; [reflexivity|];
              unfold user_facing, Error; reflexivity ] ].

Ltac solve_parse :=
  let Hr := fresh "Hr" in
  intros ? (? & ? & Hr & ? & ? & ? & ?); unfold run_reply in Hr; find_latest Hr;
  simplify_eq;
  first
    [ congruence
    | split; [solve_error_logged|];
      eexists; split; [reflexivity|]; simpl; done ].

Ltac run_method :=
  unfold create_session, parse_final_step, updateSessionTimestamp, read_base64,
    join_zones;
  unfold try_catch, mbind, js_bind, mret, js_ret, throw, read, console_log,
    console_error, setItem, with_localStorage, Date_now, post;
  simpl;
  repeat run_step;
  intros [= <- <-].

Ltac method_spec :=
  run_method;
  (split; [solve_grown|]);
  (split; [solve_http|]);
  solve_parse.

Lemma getForecast_post l w c w' :
  call (GetForecast l) w = (c, w') →
  grown w w'
  ∧ http_post (swallows (GetForecast l)) w c w'
  ∧ parse_post (after_parse_failure (GetForecast l)) w c w'.
Proof.
  destruct w as [ls ss con dis now sent]. unfold call, getForecast. method_spec.
Qed.

Lemma getAlerts_post l w c w' :
  call (GetAlerts l) w = (c, w') →
  grown w w'
  ∧ http_post (swallows (GetAlerts l)) w c w'
  ∧ parse_post (after_parse_failure (GetAlerts l)) w c w'.
Proof.
  destruct w as [ls ss con dis now sent]. unfold call, getAlerts. method_spec.
Qed.

Lemma getEvacuationRoute_post o d w c w' :
  call (GetEvacuationRoute o d) w = (c, w') →
  grown w w'
  ∧ http_post (swallows (GetEvacuationRoute o d)) w c w'
  ∧ parse_post (after_parse_failure (GetEvacuationRoute o d)) w c w'.
Proof.
  destruct w as [ls ss con dis now sent]. unfold call, getEvacuationRoute. method_spec.
Qed.

Lemma analyzeRisk_post a w c w' :
  call (AnalyzeRisk a) w = (c, w') →
  grown w w'
  ∧ http_post (swallows (AnalyzeRisk a)) w c w'
  ∧ parse_post (after_parse_failure (AnalyzeRisk a)) w c w'.
Proof.
  destruct w as [ls ss con dis now sent]. unfold call, analyzeRisk. method_spec.
Qed.

Lemma findResources_post l t r w c w' :
  call (FindResources l t r) w = (c, w') →
  grown w w'
  ∧ http_post (swallows (FindResources l t r)) w c w'
  ∧ parse_post (after_parse_failure (FindResources l t r)) w c w'.
Proof.
  destruct w as [ls ss con dis now sent]. unfold call, findResources. method_spec.
Qed.

Lemma analyzeHurricaneImage_post f w c w' :
  call (AnalyzeHurricaneImage f) w = (c, w') →
  grown w w'
  ∧ http_post (swallows (AnalyzeHurricaneImage f)) w c w'
  ∧ parse_post (after_parse_failure (AnalyzeHurricaneImage f)) w c w'.
Proof.
  destruct w as [ls ss con dis now sent]. unfold call, analyzeHurricaneImage.
  method_spec.
Qed.

Lemma getMapForZones_post z w c w' :
  call (GetMapForZones z) w = (c, w') →
  grown w w'
  ∧ http_post (swallows (GetMapForZones z)) w c w'
  ∧ parse_post (after_parse_failure (GetMapForZones z)) w c w'.
Proof.
  destruct w as [ls ss con dis now sent]. unfold call, getMapForZones.
  destruct z; method_spec.
Qed.

Lemma geocode_post a w c w' :
  call (Geocode a) w = (c, w') →
  http_post (swallows (Geocode a)) w c w'
  ∧ parse_post (after_parse_failure (Geocode a)) w c w'.
Proof.
  destruct w as [ls ss con dis now sent]. unfold call, geocode.
  run_method; (split; [solve_http|]); solve_parse.
Qed.

(** *** The methods built on [query] *)

Lemma latest_reply_sent w w' v v' :
  sent w = sent v → sent w' = sent v' → latest_reply w w' = latest_reply v v'.
Proof. unfold latest_reply. by intros -> ->. Qed.

Lemma latest_reply_grows w w' x :
  latest_reply w w' = Some x → (length (sent w) < length (sent w'))%nat.
Proof.
  unfold latest_reply. destruct (sent w') as [|r rest]; [done|].
  destruct (Nat.ltb_spec (length (sent w)) (length (r :: rest))); done.
Qed.

Lemma latest_reply_earlier w w1 w2 x :
  grown w w1 → latest_reply w1 w2 = Some x → latest_reply w w2 = Some x.
Proof.
  intros (_ & (reqs & Hreqs & _) & _) Hlatest.
  pose proof (latest_reply_grows _ _ _ Hlatest) as Hlt.
  revert Hlatest. unfold latest_reply. destruct (sent w2) as [|r rest]; [done|].
  destruct (Nat.ltb_spec (length (sent w1)) (length (r :: rest))); [|done].
  intros <-.
  destruct (Nat.ltb_spec (length (sent w)) (length (r :: rest))) as [|Hge]; [done|].
  rewrite Hreqs, length_app in Hlt. lia.
Qed.

Lemma grown_trans w1 w2 w3 : grown w1 w2 → grown w2 w3 → grown w1 w3.
Proof.
  intros ((l1 & Hl1) & (r1 & Hr1 & Hok1) & Hk1) ((l2 & Hl2) & (r2 & Hr2 & Hok2) & Hk2).
  split; [|split].
  - exists (l1 ++ l2). by rewrite Hl2, Hl1, app_assoc.
  - exists (r2 ++ r1). split; [by rewrite Hr2, Hr1, app_assoc|].
    by rewrite forallb_app, Hok1, Hok2.
  - intros k Hk. by rewrite Hk2, Hk1.
Qed.

Lemma grown_logged lines w : grown w (logged lines w).
Proof.
  split; [by exists lines|]. split; [by exists []|]. done.
Qed.

Lemma chat_not_failed w a w' :
  chat_post w (Return a) w' → ¬ http_failure w w'.
Proof.
  intros [_ (st & body & t & w1 & Hreply & H2xx & _)] (r & reply & Hlatest & Hfailed).
  apply run_reply_latest in Hreply as (r' & Hlatest' & _).
  rewrite Hlatest in Hlatest'. injection Hlatest' as <- ->.
  simpl in Hfailed. by rewrite H2xx in Hfailed.
Qed.

Lemma chat_error_logged w e w' :
  chat_post w (Throw e) w' → error_logged w w' ∧ ∃ m, message e = Str m.
Proof.
  intros [_ (Hm & (lines & Hlines & Hin) & _)]. split; [|done].
  by exists lines, "[API] Error details:".
Qed.

Lemma chat_http_post w c w' :
  chat_post w c w' →
  http_post None w (match c with
                    | Return a => Return (answer_value a)
                    | Throw e => Throw e
                    end) w'.
Proof.
  intros Hpost Hfail. destruct c as [a|e].
  - by apply chat_not_failed in Hpost.
  - apply chat_error_logged in Hpost as [Hlog [m Hm]]. eauto.
Qed.

Lemma bind_answer_value (m : js answer) w :
  (a ← m; mret (answer_value a)) w
  = (match (m w).1 with
     | Return a => Return (answer_value a)
     | Throw e => Throw e
     end, (m w).2).
Proof. unfold mbind, js_bind, mret, js_ret. by destruct (m w) as [[a|e] w']. Qed.

Lemma query_call_post (m : js answer) w :
  (∀ c w', m w = (c, w') → chat_post w c w') →
  grown w ((a ← m; mret (answer_value a)) w).2
  ∧ http_post None w ((a ← m; mret (answer_value a)) w).1
                     ((a ← m; mret (answer_value a)) w).2.
Proof.
  intros Hm. rewrite bind_answer_value. simpl.
  destruct (m w) as [c w'] eqn:Hrun. specialize (Hm c w' eq_refl). simpl.
  split; [apply Hm | by apply chat_http_post].
Qed.

Lemma getSevereWeatherEvents_post w :
  grown w (getSevereWeatherEvents w).2
  ∧ http_post None w (getSevereWeatherEvents w).1 (getSevereWeatherEvents w).2.
Proof.
  unfold getSevereWeatherEvents, try_catch, mbind, js_bind, mret, js_ret,
    console_error, throw.
  destruct (query _ w) as [[a1|e1] w1] eqn:Hq1.
  - apply query_post in Hq1.
    destruct (query _ w1) as [[a2|e2] w2] eqn:Hq2; apply query_post in Hq2; simpl.
    + split; [eapply grown_trans; [apply Hq1 | apply Hq2]|].
      intros (r & reply & Hlatest & Hfailed). exfalso.
      destruct Hq2 as [_ (st & body & t & w0 & Hreply & H2xx & _)].
      apply run_reply_latest in Hreply as (r' & Hlatest' & _).
      apply (latest_reply_earlier w) in Hlatest'; [|apply Hq1].
      rewrite Hlatest in Hlatest'. injection Hlatest' as <- ->.
      simpl in Hfailed. by rewrite H2xx in Hfailed.
    + assert (Hg : grown w w2) by (eapply grown_trans; [apply Hq1 | apply Hq2]).
      split.
      * eapply grown_trans; [exact Hg|].
        apply (grown_logged [(ERROR, "[API] Error fetching severe weather events:")]).
      * intros _. apply chat_error_logged in Hq2 as [_ [m Hm]].
        split; [|eauto]. destruct Hg as ((lines & Hlines) & _).
        eexists (lines ++ [(ERROR, "[API] Error fetching severe weather events:")]), _.
        simpl. rewrite Hlines, app_assoc. split; [done|].
        apply elem_of_app. right. apply list_elem_of_here.
  - apply query_post in Hq1. simpl.
    assert (Hg : grown w w1) by apply Hq1.
    split.
    * eapply grown_trans; [exact Hg|].
      apply (grown_logged [(ERROR, "[API] Error fetching severe weather events:")]).
    * intros _. apply chat_error_logged in Hq1 as [_ [m Hm]].
      split; [|eauto]. destruct Hg as ((lines & Hlines) & _).
      eexists (lines ++ [(ERROR, "[API] Error fetching severe weather events:")]), _.
      simpl. rewrite Hlines, app_assoc. split; [done|].
      apply elem_of_app. right. apply list_elem_of_here.
Qed.

Lemma getSuggestedActions_post q r w :
  grown w (call (GetSuggestedActions q r) w).2
  ∧ http_post (Some (Arr [])) w (call (GetSuggestedActions q r) w).1
                                (call (GetSuggestedActions q r) w).2.
Proof.
  unfold call, getSuggestedActions, try_catch, mbind, js_bind, mret, js_ret,
    console_log, console_error, throw, substring500.
  assert (Hstart : ∀ tag,
    grown w {| localStorage := localStorage w; sessionStorage := sessionStorage w;
               console := console w ++ [(LOG, tag)]; dispatched := dispatched w;
               now := now w; sent := sent w |})
    by (intros tag; apply (grown_logged [(LOG, tag)])).
  assert (Hquiet : ∀ w' c,
    (∃ lines, console w' = console w ++ lines) →
    sent w' = sent w → localStorage w' = localStorage w →
    grown w w' ∧ http_post (Some (Arr [])) w c w').
  { intros w' c Hcon Hsent Hls. split.
    - split; [done|]. split; [exists []; by rewrite Hsent|]. by rewrite Hls.
    - intros (r0 & reply & Hlatest & _).
      by rewrite latest_reply_none in Hlatest. }
  destruct r as [| | | |s| |]; simpl;
    try (apply Hquiet; [simpl; rewrite <- app_assoc; by eexists | done | done]).
  match goal with
  | |- context [query ?p ?W] => destruct (query p W) as [[a|e] w1] eqn:Hq
  end; apply query_post in Hq; simpl.
  - assert (Hg : grown w w1) by (eapply grown_trans; [apply Hstart | apply Hq]).
    assert (Hnf : ¬ http_failure w w1).
    { intros (r0 & reply & Hlatest & Hfailed).
      apply (chat_not_failed _ _ _ Hq). exists r0, reply. split; [|done].
      by rewrite <- Hlatest. }
    destruct (truthy (content a)); simpl.
    + split.
      * eapply grown_trans; [exact Hg|].
        apply (grown_logged [(LOG, "[API] Generated suggestions:")]).
      * intros (r0 & reply & Hlatest & Hfailed). exfalso. apply Hnf.
        exists r0, reply. split; [|done]. by rewrite <- Hlatest.
    + split; [exact Hg|]. intros Hfail. by apply Hnf in Hfail.
  - assert (Hg : grown w w1) by (eapply grown_trans; [apply Hstart | apply Hq]).
    split.
    + eapply grown_trans; [exact Hg|].
      apply (grown_logged [(ERROR, "[API] Error getting suggested actions:")]).
    + intros _. split; [|done]. destruct Hg as ((lines & Hlines) & _).
      eexists (lines ++ [(ERROR, "[API] Error getting suggested actions:")]), _.
      simpl. rewrite Hlines, app_assoc. split; [done|].
      apply elem_of_app. right. apply list_elem_of_here.
Qed.

(** *** Failures, method by method *)

Lemma call_post (op : operation) (w : world) :
  http_post (swallows op) w (call op w).1 (call op w).2
  ∧ (parses op = true →
     parse_post (after_parse_failure op) w (call op w).1 (call op w).2)
  ∧ ((∀ a, op ≠ Geocode a) → grown w (call op w).2).
Proof.
  destruct (call op w) as [c w'] eqn:Hcall. simpl.
  destruct op.
  - unfold call in Hcall.
    destruct (query_call_post (query userQuery) w) as [Hg Hh];
      [intros ? ?; apply query_post|].
    rewrite Hcall in Hg, Hh. done.
  - unfold call in Hcall.
    destruct (query_call_post (queryWithImage userQuery imageFile) w) as [Hg Hh];
      [intros ? ?; apply queryWithImage_post|].
    rewrite Hcall in Hg, Hh. done.
  - apply getForecast_post in Hcall as (? & ? & ?). done.
  - apply getAlerts_post in Hcall as (? & ? & ?). done.
  - apply getEvacuationRoute_post in Hcall as (? & ? & ?). done.
  - apply analyzeRisk_post in Hcall as (? & ? & ?). done.
  - apply findResources_post in Hcall as (? & ? & ?). done.
  - apply geocode_post in Hcall as (? & ?).
    split; [done|]. split; [done|]. intros Hne. by destruct (Hne address).
  - unfold call, getHistoricalData in Hcall.
    destruct (query_call_post (query (Str ("Find historical " +:+ toString eventType
                +:+ " events in " +:+ toString location))) w) as [Hg Hh];
      [intros ? ?; apply query_post|].
    rewrite Hcall in Hg, Hh. done.
  - unfold call, getVulnerablePopulations in Hcall.
    destruct (query_call_post (query (Str ("Which census tracts in " +:+ toString location
                +:+ " have high elderly populations in flood zones?"))) w) as [Hg Hh];
      [intros ? ?; apply query_post|].
    rewrite Hcall in Hg, Hh. done.
  - unfold call in Hcall. destruct (getSevereWeatherEvents_post w) as [Hg Hh].
    rewrite Hcall in Hg, Hh. done.
  - destruct (getSuggestedActions_post lastUserQuery lastAgentResponse w) as [Hg Hh].
    rewrite Hcall in Hg, Hh. done.
  - apply analyzeHurricaneImage_post in Hcall as (? & ? & ?). done.
  - apply getMapForZones_post in Hcall as (? & ? & ?). done.
Qed.

(** C5, amended. When the latest reply to a method is an HTTP failure, the
    failure is logged, and the method throws an error that carries a
    message, except [geocode], which returns null, and
    [getSuggestedActions], which returns the empty array.  When the text of
    the final step of a 2xx reply to [/run] does not parse as JSON, the
    failure is logged and the method returns: null from [getAlerts],
    [analyzeRisk], [findResources], [getMapForZones] and [geocode], the raw
    text as content from [getForecast], empty content and routes from
    [getEvacuationRoute], the raw text under raw_response from
    [analyzeHurricaneImage]. *)
Theorem failures_by_method (op : operation) (w : world) :
  let c := (call op w).1 in
  let w' := (call op w).2 in
  (http_failure w w' →
     error_logged w w'
     ∧ match swallows op with
       | Some v => c = Return v
       | None => ∃ e m, c = Throw e ∧ message e = Str m
       end)
  ∧ (parses op = true → ∀ text, parse_failure w w' text →
       error_logged w w' ∧ ∃ v, c = Return v ∧ after_parse_failure op text v).
Proof.
  intros c w'. destruct (call_post op w) as (Hhttp & Hparse & _).
  split; [exact Hhttp | exact Hparse].
Qed.

(** *** The fields of a [/run] request *)

(** Every method but [geocode] sends its [/run] requests with the four
    fields. *)
Lemma run_requests_carry_fields (op : operation) (w : world) :
  (∀ a, op ≠ Geocode a) →
  ∃ reqs, sent (call op w).2 = reqs ++ sent w
          ∧ Forall (λ r, req_url r = "/run" →
                         carries "app_name" r = true ∧ carries "user_id" r = true
                         ∧ carries "session_id" r = true
                         ∧ carries "new_message" r = true) reqs.
Proof.
  intros Hop. destruct (call_post op w) as (_ & _ & Hg).
  destruct (Hg Hop) as (_ & (reqs & Hsent & Hok) & _).
  exists reqs. split; [done|].
  apply Forall_forall. intros r Hr Hurl.
  apply list_elem_of_In in Hr.
  rewrite forallb_forall in Hok. specialize (Hok r Hr).
  unfold run_request_ok in Hok. rewrite Hurl in Hok. simpl in Hok.
  repeat (apply andb_true_iff in Hok as [Hok ?]). done.
Qed.

(** C4 (defect in the client). The request that [geocode] sends to [/run]
    carries [app_name], [user_id] and [new_message] but no [session_id]. *)
Theorem geocode_omits_session_id (address : value) (w : world) :
  ∃ r, sent (geocode address w).2 = r :: sent w
       ∧ req_url r = "/run"
       ∧ carries "app_name" r = true
       ∧ carries "user_id" r = true
       ∧ carries "new_message" r = true
       ∧ carries "session_id" r = false.
Proof.
  eexists. split.
  { unfold geocode, try_catch, mbind, js_bind, mret, js_ret, throw, post,
      console_log, console_error.
    simpl.
    destruct (respond _) as [st d|msg]; simpl; [|reflexivity].
    destruct (is_2xx st); simpl; [|reflexivity].
    destruct (final_step_text d) as [text|]; simpl; [|reflexivity].
    destruct (truthy text); simpl; [|reflexivity].
    destruct (JSON_parse (toString text)); reflexivity. }
  repeat split; reflexivity.
Qed.
(** *** Numbers written and read back *)

Lemma digits_of_uint_acc (d : Decimal.uint) (acc : positive) :
  JsString.digits (Z.pos acc) true (NilEmpty.string_of_uint d)
  = Some (Z.pos (Pos.of_uint_acc d acc)).
Proof.
  revert acc. induction d; intros acc;
    cbn [NilEmpty.string_of_uint JsString.digits Pos.of_uint_acc]; [done|..];
    match goal with
    | |- context [JsString.digit ?c] =>
        let v := eval vm_compute in (JsString.digit c) in
        change (JsString.digit c) with v
    end; cbv beta iota; rewrite <- IHd; f_equal; lia.
Qed.

Lemma digits_of_uint (d : Decimal.uint) (seen : bool) :
  JsString.digits 0 seen (NilEmpty.string_of_uint d)
  = match Pos.of_uint d with
    | N.pos q => Some (Z.pos q)
    | N0 => if seen || match d with Decimal.Nil => false | _ => true end
            then Some 0 else None
    end.
Proof.
  revert seen. induction d; intros seen;
    cbn [NilEmpty.string_of_uint JsString.digits Pos.of_uint];
    [by destruct seen|..];
    match goal with
    | |- context [JsString.digit ?c] =>
        let v := eval vm_compute in (JsString.digit c) in
        change (JsString.digit c) with v
    end; cbv beta iota; [|apply (digits_of_uint_acc d)..].
  change (10 * 0 + 0) with 0. rewrite (IHd true), orb_true_r.
  by destruct (Pos.of_uint d).
Qed.

Lemma to_uint_head (p : positive) :
  ∃ c s, NilEmpty.string_of_uint (Pos.to_uint p) = String c s
         ∧ JsString.is_white c = false ∧ c ≠ "-"%char ∧ c ≠ "+"%char
         ∧ NilZero.string_of_uint (Pos.to_uint p) = String c s.
Proof.
  pose proof (DecimalPos.Unsigned.of_to p) as Hp.
  destruct (Pos.to_uint p); [discriminate Hp|..];
    eexists _, _; repeat split; discriminate.
Qed.

Lemma parseInt10_minus (s : string) :
  JsString.parseInt10 (String "-" s) = Z.opp <$> JsString.digits 0 false s.
Proof. reflexivity. Qed.

Lemma parseInt10_unsigned (c : ascii) (s : string) :
  JsString.is_white c = false → c ≠ "-"%char → c ≠ "+"%char →
  JsString.parseInt10 (String c s) = JsString.digits 0 false (String c s).
Proof.
  intros Hw Hminus Hplus. unfold JsString.parseInt10.
  cbn [JsString.trimStart]. rewrite Hw.
  destruct c as [[] [] [] [] [] [] [] []]; done.
Qed.

Lemma parseInt10_ofZ (n : Z) : JsString.parseInt10 (JsString.ofZ n) = Some n.
Proof.
  unfold JsString.ofZ. destruct n as [|p|p]; [reflexivity|..];
    cbn [Z.to_int NilZero.string_of_int];
    destruct (to_uint_head p) as (c & s & Hs & Hw & Hminus & Hplus & Hz);
    rewrite Hz; pose proof (digits_of_uint (Pos.to_uint p) false) as Hd;
    rewrite DecimalPos.Unsigned.of_to, Hs in Hd.
  - by rewrite parseInt10_unsigned.
  - by rewrite parseInt10_minus, Hd.
Qed.

Lemma ofZ_not_empty (n : Z) : JsString.ofZ n ≠ "".
Proof.
  unfold JsString.ofZ. destruct n as [|p|p]; [done| |done]. simpl.
  destruct (to_uint_head p) as (c & s & _ & _ & _ & _ & ->). done.
Qed.

(** *** The session, kept and renewed *)

Lemma updateSessionTimestamp_run w :
  updateSessionTimestamp w
  = (Return (), {| localStorage := <[SESSION_TIMESTAMP_KEY := JsString.ofZ (now w)]>
                                     (localStorage w);
                   sessionStorage := sessionStorage w; console := console w;
                   dispatched := dispatched w; now := now w; sent := sent w |}).
Proof. reflexivity. Qed.

Lemma absent_ofZ n : absent (Some (JsString.ofZ n)) = false.
Proof. simpl. apply String.eqb_neq, ofZ_not_empty. Qed.

Lemma isSessionValid_stamped (w : world) (t : Z) :
  localStorage w !! SESSION_TIMESTAMP_KEY = Some (JsString.ofZ t) →
  (isSessionValid w).1
  = Return (negb (absent (localStorage w !! SESSION_STORAGE_KEY))
            && (now w - t <=? 1800000)).
Proof.
  intros Hts. rewrite isSessionValid_result, Hts, absent_ofZ, orb_false_r.
  unfold too_old. simpl. rewrite parseInt10_ofZ.
  f_equal. f_equal. unfold SESSION_TIMEOUT. rewrite Z.gtb_ltb, Z.leb_antisym. done.
Qed.

(** X1. After [updateSessionTimestamp] at the instant [now w], and as long as
    the two items stay as they are, the session is valid up to 30 minutes
    later and no longer, provided a session id is stored: the time stamp
    that is written is read back as the same number. *)
Theorem session_lifetime (w later : world) :
  localStorage later = localStorage (updateSessionTimestamp w).2 →
  (isSessionValid later).1
  = Return (negb (absent (localStorage w !! SESSION_STORAGE_KEY))
            && (now later - now w <=? 1800000)).
Proof.
  intros Hstore. rewrite updateSessionTimestamp_run in Hstore. simpl in Hstore.
  rewrite (isSessionValid_stamped later (now w)), Hstore.
  - by rewrite lookup_insert_ne.
  - by rewrite Hstore, lookup_insert_eq.
Qed.

Lemma valid_session_id (w : world) :
  (isSessionValid w).1 = Return true →
  ∃ sid, localStorage w !! SESSION_STORAGE_KEY = Some sid ∧ sid ≠ "".
Proof.
  rewrite isSessionValid_result. intros [= Hvalid].
  apply andb_true_iff in Hvalid as [Hpresent _].
  apply negb_true_iff, orb_false_iff in Hpresent as [Hid _].
  destruct (localStorage w !! SESSION_STORAGE_KEY) as [sid|]; [|done].
  exists sid. split; [done|]. by apply String.eqb_neq.
Qed.

Lemma isSessionValid_true (w : world) :
  (isSessionValid w).1 = Return true → isSessionValid w = (Return true, w).
Proof.
  intros Hvalid. destruct (isSessionValid_run w) as (valid & lines & Hrun).
  rewrite Hrun in Hvalid. injection Hvalid as ->.
  revert Hrun. unfold isSessionValid, mbind, js_bind, getItem, Date_now, mret, js_ret.
  simpl. destruct (absent _ || absent _); [intros [= ]|].
  destruct (JsString.parseInt10 _); [|intros _; done].
  destruct (_ >? _); [|done]. unfold console_log. simpl. intros [= ].
Qed.

Lemma getOrCreateSession_valid (w : world) :
  (isSessionValid w).1 = Return true →
  ∃ sid, localStorage w !! SESSION_STORAGE_KEY = Some sid ∧ sid ≠ ""
         ∧ getOrCreateSession w
           = (Return (Str sid), logged [(LOG, "[API] Reusing existing session:")] w).
Proof.
  intros Hvalid. destruct (valid_session_id w Hvalid) as (sid & Hsid & Hne).
  exists sid. split; [done|]. split; [done|].
  unfold getOrCreateSession, mbind, js_bind.
  rewrite (isSessionValid_true w Hvalid).
  unfold getItem, console_log, mret, js_ret. simpl. by rewrite Hsid.
Qed.

(** X2. While the session is valid [getOrCreateSession] returns the stored
    id, which is not the empty string: it sends nothing, keeps both stores
    as they are, and writes one line to the console. *)
Theorem getOrCreateSession_reuses (w : world) :
  (isSessionValid w).1 = Return true →
  ∃ sid, localStorage w !! SESSION_STORAGE_KEY = Some sid ∧ sid ≠ ""
         ∧ (getOrCreateSession w).1 = Return (Str sid)
         ∧ sent (getOrCreateSession w).2 = sent w
         ∧ now (getOrCreateSession w).2 = now w
         ∧ localStorage (getOrCreateSession w).2 = localStorage w
         ∧ sessionStorage (getOrCreateSession w).2 = sessionStorage w
         ∧ dispatched (getOrCreateSession w).2 = dispatched w.
Proof.
  intros Hvalid.
  destruct (getOrCreateSession_valid w Hvalid) as (sid & Hsid & Hne & ->).
  exists sid. done.
Qed.

Lemma getOrCreateSession_new (w : world) (st : Z) (d v : value) :
  let r := {| req_client := chat; req_url := "/apps/chat/users/user_001/sessions";
              req_body := new_session_body |} in
  let stored := absent (localStorage w !! SESSION_STORAGE_KEY) in
  (isSessionValid w).1 = Return false →
  respond (r :: sent w) = Responded st d → is_2xx st = true → get d "id" = Some v →
  ∃ lines,
    getOrCreateSession w
    = (Return v,
       {| localStorage :=
            <[SESSION_TIMESTAMP_KEY := JsString.ofZ (now w + elapsed (r :: sent w))]>
              (<[SESSION_STORAGE_KEY := toString v]>
                 (if stored then localStorage w else cleared (localStorage w)));
          sessionStorage := if stored then sessionStorage w else ∅;
          console := console w ++ lines;
          dispatched := if stored then dispatched w
                        else dispatched w ++ ["sessionExpired"];
          now := now w + elapsed (r :: sent w);
          sent := r :: sent w |}).
Proof.
  intros r stored Hinvalid Hreply Hok Hid.
  destruct (isSessionValid_run w) as (valid & lines & Hrun).
  rewrite Hrun in Hinvalid. injection Hinvalid as ->.
  unfold getOrCreateSession, mbind, js_bind. rewrite Hrun.
  unfold getItem, mret, js_ret, console_log, setItem, with_localStorage, Date_now,
    read, post. simpl. subst stored.
  destruct (absent (localStorage w !! SESSION_STORAGE_KEY)) eqn:Habsent; simpl;
    rewrite ?clearBrowserState_run; simpl;
    fold r; rewrite Hreply, Hok; simpl; rewrite Hid; simpl;
    rewrite <- ?app_assoc; by eexists.
Qed.



Lemma field_missing (k : string) (fs : list (string * value)) :
  has_field k fs = false → field k fs = Undefined.
Proof.
  induction fs as [|[k' v] fs IH]; [done|]. simpl.
  intros [-> Hrest]%orb_false_iff. by apply IH.
Qed.

(** X4. When the answer to the session request is an object without [id],
    [getOrCreateSession] returns [undefined] and stores the nine letters
    of that word as the session id: the session counts as valid, and the
    next call returns the string, without asking again. *)
Theorem session_without_id (w : world) (st : Z) (fs : list (string * value)) :
  let r := {| req_client := chat; req_url := "/apps/chat/users/user_001/sessions";
              req_body := new_session_body |} in
  let w' := (getOrCreateSession w).2 in
  (isSessionValid w).1 = Return false →
  respond (r :: sent w) = Responded st (Obj fs) → is_2xx st = true →
  has_field "id" fs = false →
  (getOrCreateSession w).1 = Return Undefined
  ∧ localStorage w' !! SESSION_STORAGE_KEY = Some "undefined"
  ∧ (getOrCreateSession w').1 = Return (Str "undefined")
  ∧ sent (getOrCreateSession w').2 = sent w'.
Proof.
  intros r w' Hinvalid Hreply Hok Hid.
  assert (Hget : get (Obj fs) "id" = Some Undefined).
  { simpl. by rewrite field_missing. }
  destruct (getOrCreateSession_new w st (Obj fs) Undefined Hinvalid Hreply Hok Hget)
    as (lines & Hrun).
  subst w'. fold r in Hrun. rewrite Hrun. simpl.
  match goal with
  | |- context [getOrCreateSession ?W] => set (w1 := W)
  end.
  assert (Hstored : localStorage w1 !! SESSION_STORAGE_KEY = Some "undefined").
  { simpl. by rewrite lookup_insert_ne, lookup_insert_eq. }
  assert (Hvalid : (isSessionValid w1).1 = Return true).
  { rewrite (isSessionValid_stamped w1 (now w1)) by (simpl; by rewrite lookup_insert_eq).
    rewrite Hstored. simpl. by rewrite Z.sub_diag. }
  split; [done|]. split; [exact Hstored|].
  unfold getOrCreateSession, mbind, js_bind.
  rewrite (isSessionValid_true w1 Hvalid).
  unfold getItem, console_log, mret, js_ret. simpl.
  rewrite lookup_insert_ne, lookup_insert_eq by done. done.
Qed.


Lemma isSessionValid_logged (lines : list (level * string)) (w : world) :
  (isSessionValid (logged lines w)).1 = (isSessionValid w).1.
Proof. by rewrite !isSessionValid_result. Qed.


(** *** The methods that talk to one agent, when they succeed *)

Lemma refresh_post (op : operation) (w : world) (c : completion value) (w' : world) :
  Observed.refreshes op = true →
  call op w = (c, w') →
  sessionStorage w' = sessionStorage w ∧ dispatched w' = dispatched w
  ∧ localStorage w'
    = match c with
      | Return _ => <[SESSION_TIMESTAMP_KEY := JsString.ofZ (now w')]> (localStorage w)
      | Throw _ => localStorage w
      end.
Proof.
  destruct w as [ls ss con dis now sent].
  destruct op as [| | | | | | | | | | | | |z]; try discriminate; intros _.
  - unfold call, getForecast. run_method; done.
  - unfold call, getAlerts. run_method; done.
  - unfold call, getEvacuationRoute. run_method; done.
  - unfold call, analyzeRisk. run_method; done.
  - unfold call, analyzeHurricaneImage. run_method; done.
  - unfold call, getMapForZones. destruct z; run_method; done.
Qed.

(** X8. [getForecast], [getAlerts], [getEvacuationRoute], [analyzeRisk],
    [analyzeHurricaneImage] and [getMapForZones] never use the chat
    session, and yet each of them, when it returns, stamps it with the
    current instant: a stored session id counts as valid again however
    old it was.  When they throw, localStorage is as before; in both cases
    sessionStorage is untouched and no event is dispatched. *)
Theorem agent_success_renews_session (op : operation) (w : world) :
  let c := (call op w).1 in
  let w' := (call op w).2 in
  Observed.refreshes op = true →
  sessionStorage w' = sessionStorage w ∧ dispatched w' = dispatched w
  ∧ match c with
    | Return _ =>
        localStorage w'
        = <[SESSION_TIMESTAMP_KEY := JsString.ofZ (now w')]> (localStorage w)
        ∧ (isSessionValid w').1
          = Return (negb (absent (localStorage w !! SESSION_STORAGE_KEY)))
    | Throw _ => localStorage w' = localStorage w
    end.
Proof.
  intros c w' Hop. subst c w'.
  destruct (call op w) as [c w'] eqn:Hcall. simpl.
  destruct (refresh_post op w c w' Hop Hcall) as (Hss & Hdis & Hls).
  split; [done|]. split; [done|]. destruct c as [v|e]; [|done].
  split; [done|].
  rewrite (isSessionValid_stamped w' (now w')) by (by rewrite Hls, lookup_insert_eq).
  rewrite Hls, lookup_insert_ne by done. by rewrite Z.sub_diag, andb_true_r.
Qed.

Lemma last_snoc (events : list value) (final d : value) :
  List.last (events ++ [final]) d = final.
Proof. induction events as [|e [|e' events] IH]; done. Qed.

Lemma final_step_text_snoc (events : list value) (final : value) :
  final_step_text (Arr (events ++ [final])) = Some (Observed.first_text final).
Proof.
  unfold final_step_text.
  destruct (events ++ [final]) as [|e es] eqn:Heq; [by destruct events|].
  by rewrite <- Heq, last_snoc.
Qed.

Ltac solve_parsed :=
  let Hr := fresh "Hr" in
  intros Hr ? ? ? ?; unfold run_reply in Hr; find_latest Hr; simplify_eq;
  repeat match goal with
         | Hf : final_step_text (Arr (_ ++ [_])) = _ |- _ =>
             rewrite final_step_text_snoc in Hf
         end;
  simplify_eq;
  repeat match goal with
         | Hf : Observed.first_text ?f = _, Hg : context [Observed.first_text ?f] |- _ =>
             rewrite Hf in Hg
         end;
  simpl in *; simplify_eq;
  first
    [ congruence
    | match goal with
      | Ht : negb (String.eqb ?t "") = false |- _ =>
          apply negb_false_iff, String.eqb_eq in Ht; congruence
      end
    | eexists; split; [reflexivity|]; simpl; done ].

Lemma parsed_post (op : operation) (w : world) (c : completion value) (w' : world)
    (st : Z) (events : list value) (final : value) (t : string) (v : value) :
  parses op = true →
  call op w = (c, w') →
  run_reply w w' = Some (Responded st (Arr (events ++ [final]))) →
  is_2xx st = true →
  Observed.first_text final = Str t → t ≠ "" →
  JSON_parse t = Some v →
  ∃ result, c = Return result ∧ Observed.after_parse op t v result.
Proof.
  destruct w as [ls ss con dis now sent].
  destruct op as [| | | | | | | | | | | | |z]; try discriminate; intros _.
  - unfold call, getForecast. run_method; solve_parsed.
  - unfold call, getAlerts. run_method; solve_parsed.
  - unfold call, getEvacuationRoute. run_method; solve_parsed.
  - unfold call, analyzeRisk. run_method; solve_parsed.
  - unfold call, findResources. run_method; solve_parsed.
  - unfold call, geocode. run_method; solve_parsed.
  - unfold call, analyzeHurricaneImage. run_method; solve_parsed.
  - unfold call, getMapForZones. destruct z; run_method; solve_parsed.
Qed.

(** X9. When the [/run] of a parsing method is answered 2xx with an array of
    events, the result is made of the first part of the last event alone:
    if its text is a non-empty string that parses, [getAlerts],
    [analyzeRisk], [findResources], [geocode], [analyzeHurricaneImage]
    and [getMapForZones] return the parsed value, [getForecast] returns the
    text unparsed, and [getEvacuationRoute] returns the insights and routes
    of the parsed value, with their defaults.  The earlier events and the
    other parts play no part. *)
Theorem final_step_decides (op : operation) (w : world) (st : Z)
    (events : list value) (final : value) (t : string) (v : value) :
  parses op = true →
  run_reply w (call op w).2 = Some (Responded st (Arr (events ++ [final]))) →
  is_2xx st = true →
  Observed.first_text final = Str t → t ≠ "" →
  JSON_parse t = Some v →
  ∃ result, (call op w).1 = Return result ∧ Observed.after_parse op t v result.
Proof.
  intros Hop Hreply Hok Htext Hne Hparse.
  destruct (call op w) as [c w'] eqn:Hcall.
  exact (parsed_post op w c w' st events final t v Hop Hcall Hreply Hok Htext Hne Hparse).
Qed.

(** X7. When the picked file cannot be read, [queryWithImage] throws an error
    with a message and sends no [/run]: at most the request for a
    session went out before the file was read.  With a valid session
    nothing is sent at all and the message is the fallback of the
    method. *)
Theorem unreadable_image_is_not_sent (q : value) (f : image_file) (w : world) :
  data_url f = None →
  (∃ e m, (queryWithImage q f w).1 = Throw e ∧ message e = Str m)
  ∧ (∃ reqs, sent (queryWithImage q f w).2 = reqs ++ sent w
             ∧ Forall (λ r, req_url r ≠ "/run") reqs)
  ∧ ((isSessionValid w).1 = Return true →
     (queryWithImage q f w).1 = Throw (Error (Str "Failed to query agent with image"))
     ∧ sent (queryWithImage q f w).2 = sent w).
Proof.
  intros Hdata.
  pose (w0 := logged [(LOG, "[API] Sending query with image:")] w).
  assert (Hvalid0 : (isSessionValid w0).1 = (isSessionValid w).1)
    by (unfold w0; by rewrite isSessionValid_logged).
  unfold queryWithImage, try_catch, mbind, js_bind.
  change (console_log "[API] Sending query with image:" w) with (Return (), w0).
  cbv beta iota.
  destruct (isSessionValid w0).1 as [[]|] eqn:Hvalid.
  - destruct (getOrCreateSession_valid w0 Hvalid) as (sid & _ & _ & ->).
    unfold read_base64. rewrite Hdata.
    unfold query_catch, mbind, js_bind, throw, console_error, status_is, mret, js_ret.
    simpl. split; [by eexists _, _|]. split; [by exists []|]. done.
  - destruct (isSessionValid_run w0) as (valid & lines & Hrun).
    rewrite Hrun in Hvalid. injection Hvalid as ->.
    unfold getOrCreateSession, mbind, js_bind. rewrite Hrun.
    unfold read_base64. rewrite Hdata.
    unfold query_catch, mbind, js_bind, mret, js_ret, throw, read, console_log,
      console_error, getItem, setItem, with_localStorage, Date_now, post, status_is.
    simpl. rewrite <- Hvalid0.
    repeat run_step;
      (split; [by eexists _, _|]);
      (split; [eexists [_]; split; [reflexivity|]; by repeat constructor|]);
      intros [= ].
  - destruct (isSessionValid_run w0) as (valid & lines & Hrun).
    rewrite Hrun in Hvalid. discriminate Hvalid.
Qed.

End ApiProperties.

(** ** The API client on examples *)

Section ApiExamples.
Import Js Browser Api Claimed.

(** C1, as stated, fails: the body [null] is neither an array nor an object
    with [content.parts], and [query] does not return the empty string: it
    throws. *)
Lemma query_null_body :
  let agents := Scenario.answering (Responded 200 Null) in
  let out := @query agents (Str "hello") Scenario.fresh in
  @run_reply agents Scenario.fresh out.2 = Some (Responded 200 Null)
  ∧ is_array Null = false ∧ has_parts Null = false
  ∧ out.1 = Throw (Error (Str "Cannot read properties of null (reading 'content')")).
Proof. vm_compute. repeat split. Qed.

(** C2, as stated, fails: after a 404 the key [tourCompleted] is still in
    localStorage. *)
Lemma tour_flag_survives_404 :
  let agents := Scenario.answering (Responded 404 (Obj [])) in
  let out := @query agents (Str "hello") Scenario.fresh in
  (∃ r, @latest_reply agents Scenario.fresh out.2 = Some (r, Responded 404 (Obj [])))
  ∧ (∃ e, out.1 = Throw e)
  ∧ localStorage out.2 !! "tourCompleted" = Some "true".
Proof. vm_compute. split; [by eexists|]. split; [by eexists|done]. Qed.

Lemma reset_on_401_404_witness :
  let agents := Scenario.answering (Responded 404 (Obj [])) in
  let out := @query agents (Str "hello") Scenario.fresh in
  (∃ r, @latest_reply agents Scenario.fresh out.2 = Some (r, Responded 404 (Obj [])))
  ∧ (404 = 401 ∨ 404 = 404)
  ∧ sessionStorage out.2 = ∅
  ∧ localStorage out.2 !! SESSION_STORAGE_KEY = None
  ∧ localStorage out.2 !! "tourCompleted" = Some "true".
Proof.
  intros agents out.
  destruct (@reset_on_401_404 agents (Str "hello") None Scenario.fresh
              {| req_client := chat; req_url := "/run";
                 req_body := run_body "chat" (Str "s-1") [text_part (Str "hello")] |}
              404 (Obj []))
    as (_ & Hss & Hcleared & Hkept & _); [reflexivity | by right |].
  split; [eexists; reflexivity|]. split; [by right|]. split; [exact Hss|].
  split; [by apply Hcleared|]. by rewrite Hkept.
Defined.

Lemma query_content_witness :
  let body := Arr [Scenario.event ["Hello, "; ""; "world"]; Obj [];
                   Scenario.event ["!"]] in
  let agents := Scenario.answering (Responded 200 body) in
  let out := @query agents (Str "hello") Scenario.fresh in
  @run_reply agents Scenario.fresh out.2 = Some (Responded 200 body)
  ∧ is_2xx 200 = true
  ∧ ∃ sid, out.1 = Return {| content := Str "Hello, world!"; session_id := sid |}.
Proof.
  intros body agents out. split; [reflexivity|]. split; [reflexivity|].
  destruct (@query_content agents (Str "hello") None Scenario.fresh 200 body)
    as (Harray & _); [reflexivity | reflexivity |].
  exact (Harray _ eq_refl eq_refl).
Defined.

(** Bodies with an event that is not well formed, of which C1 says
    nothing: [query] throws on an array with a [null] event and on parts
    that are a number, and its single-object branch writes a text that is
    a number. *)
Example query_malformed_bodies :
  (let agents := Scenario.answering (Responded 200 (Arr [Null])) in
   ∃ e, (@query agents (Str "hello") Scenario.fresh).1 = Throw e)
  ∧ (let agents := Scenario.answering
                     (Responded 200 (Obj [("content", Obj [("parts", Num 5)])])) in
     ∃ e, (@query agents (Str "hello") Scenario.fresh).1 = Throw e)
  ∧ (let agents := Scenario.answering
                     (Responded 200
                        (Obj [("content",
                               Obj [("parts", Arr [Obj [("text", Num 5)]])])])) in
     (@query agents (Str "hello") Scenario.fresh).1
     = Return {| content := Str "5"; session_id := Str "s-1" |}).
Proof. split; [by eexists|]. split; [by eexists|reflexivity]. Qed.

(** C5, as stated, fails: [geocode] returns null after an HTTP 500, and
    [getAlerts] returns null when the text of the agent is not JSON. *)
Lemma failures_swallowed :
  (let agents := Scenario.answering (Responded 500 Null) in
   let out := @geocode Scenario.three_texts agents (Str "Miami") Scenario.fresh in
   @http_failure agents Scenario.fresh out.2 ∧ out.1 = Return Null)
  ∧ (let agents := Scenario.answering
                     (Responded 200 (Arr [Scenario.event ["<html>"]])) in
     let out := @getAlerts Scenario.three_texts agents (Str "Miami") Scenario.fresh in
     @parse_failure Scenario.three_texts agents Scenario.fresh out.2 (Str "<html>")
     ∧ out.1 = Return Null).
Proof.
  split.
  - split; [|reflexivity]. eexists _, _. split; reflexivity.
  - split; [|reflexivity]. eexists _, _. repeat split; reflexivity.
Qed.

Lemma failures_by_method_witness :
  let agents := Scenario.answering (Responded 500 Null) in
  let out := @call Scenario.three_texts agents (GetAlerts (Str "Miami")) Scenario.fresh in
  @http_failure agents Scenario.fresh out.2
  ∧ ∃ e m, out.1 = Throw e ∧ message e = Str m.
Proof.
  intros agents out.
  assert (Hfail : @http_failure agents Scenario.fresh out.2).
  { eexists _, _. split; reflexivity. }
  split; [exact Hfail|].
  destruct (@failures_by_method Scenario.three_texts agents (GetAlerts (Str "Miami"))
              Scenario.fresh) as [Hhttp _].
  by destruct (Hhttp Hfail) as [_ Hthrow].
Defined.

Example query_single_object :
  let agents := Scenario.answering (Responded 200 (Scenario.event ["Sunny"; " and warm"])) in
  (@query agents (Str "hello") Scenario.fresh).1
  = Return {| content := Str "Sunny and warm"; session_id := Str "s-1" |}.
Proof. reflexivity. Qed.

Example query_other_body :
  let agents := Scenario.answering (Responded 200 (Obj [("detail", Str "ok")])) in
  (@query agents (Str "hello") Scenario.fresh).1
  = Return {| content := Str ""; session_id := Str "s-1" |}.
Proof. reflexivity. Qed.

Example query_stores_session :
  let agents := Scenario.answering (Responded 200 (Arr [])) in
  let w' := (@query agents (Str "hello") Scenario.fresh).2 in
  localStorage w' !! SESSION_STORAGE_KEY = Some "s-1"
  ∧ localStorage w' !! SESSION_TIMESTAMP_KEY = Some "1730000000500"
  ∧ (@isSessionValid w').1 = Return true.
Proof. vm_compute. repeat split. Qed.

Example hurricane_raw_response :
  let agents := Scenario.answering (Responded 200 (Arr [Scenario.event ["Category 4"]])) in
  let image := {| type := ""; data_url := Some "data:image/png;base64,iVBOR" |} in
  (@analyzeHurricaneImage Scenario.three_texts agents image Scenario.fresh).1
  = Return (Obj [("raw_response", Str "Category 4")]).
Proof. reflexivity. Qed.

Example suggestions_of_a_response :
  parse_suggestions
    ("Here are some questions:" +:+ nl +:+ "  Show me the hourly forecast  " +:+ nl
     +:+ nl +:+ "EXAMPLE: none" +:+ nl +:+ "Any alerts?" +:+ nl +:+ "a" +:+ nl
     +:+ "b" +:+ nl +:+ "c")
  = ["Show me the hourly forecast"; "Any alerts?"; "a"; "b"].
Proof. reflexivity. Qed.

Lemma session_lifetime_witness :
  let later := {| localStorage := localStorage (updateSessionTimestamp Scenario.in_session).2;
                  sessionStorage := ∅; console := []; dispatched := [];
                  now := now Scenario.in_session + 1800001; sent := [] |} in
  localStorage later = localStorage (updateSessionTimestamp Scenario.in_session).2
  ∧ (isSessionValid later).1 = Return false.
Proof.
  intros later. split; [reflexivity|].
  exact (session_lifetime Scenario.in_session later eq_refl).
Defined.

Lemma getOrCreateSession_reuses_witness :
  let agents := Scenario.answering (Responded 200 (Arr [])) in
  (isSessionValid Scenario.in_session).1 = Return true
  ∧ ∃ sid, localStorage Scenario.in_session !! SESSION_STORAGE_KEY = Some sid ∧ sid ≠ ""
           ∧ (@getOrCreateSession agents Scenario.in_session).1 = Return (Str sid)
           ∧ sent (@getOrCreateSession agents Scenario.in_session).2 = sent Scenario.in_session
           ∧ now (@getOrCreateSession agents Scenario.in_session).2 = now Scenario.in_session
           ∧ localStorage (@getOrCreateSession agents Scenario.in_session).2
             = localStorage Scenario.in_session
           ∧ sessionStorage (@getOrCreateSession agents Scenario.in_session).2
             = sessionStorage Scenario.in_session
           ∧ dispatched (@getOrCreateSession agents Scenario.in_session).2
             = dispatched Scenario.in_session.
Proof.
  intros agents. split; [reflexivity|].
  exact (@getOrCreateSession_reuses agents Scenario.in_session eq_refl).
Defined.


Lemma session_without_id_witness :
  let agents := {| respond _ := Responded 201 (Obj [("state", Obj [])]);
                   elapsed _ := 250 |} in
  let w := Scenario.fresh in
  let r := {| req_client := chat; req_url := "/apps/chat/users/user_001/sessions";
              req_body := new_session_body |} in
  let w' := (@getOrCreateSession agents w).2 in
  (isSessionValid w).1 = Return false
  ∧ @respond agents (r :: sent w) = Responded 201 (Obj [("state", Obj [])])
  ∧ is_2xx 201 = true
  ∧ has_field "id" [("state", Obj [])] = false
  ∧ (@getOrCreateSession agents w).1 = Return Undefined
  ∧ localStorage w' !! SESSION_STORAGE_KEY = Some "undefined"
  ∧ (@getOrCreateSession agents w').1 = Return (Str "undefined")
  ∧ sent (@getOrCreateSession agents w').2 = sent w'.
Proof.
  intros agents w r w'.
  do 4 (split; [reflexivity|]).
  exact (@session_without_id agents w 201 [("state", Obj [])]
           eq_refl eq_refl eq_refl eq_refl).
Defined.


Lemma agent_success_renews_session_witness :
  let agents := Scenario.answering (Responded 200 (Arr [Scenario.event ["{}"]])) in
  let op := GetAlerts (Str "California") in
  let w := Scenario.expired in
  let c := (@call Scenario.three_texts agents op w).1 in
  let w' := (@call Scenario.three_texts agents op w).2 in
  Observed.refreshes op = true
  ∧ (isSessionValid w).1 = Return false
  ∧ c = Return (Obj [])
  ∧ sessionStorage w' = sessionStorage w ∧ dispatched w' = dispatched w
  ∧ match c with
    | Return _ =>
        localStorage w'
        = <[SESSION_TIMESTAMP_KEY := JsString.ofZ (now w')]> (localStorage w)
        ∧ (isSessionValid w').1
          = Return (negb (absent (localStorage w !! SESSION_STORAGE_KEY)))
    | Throw _ => localStorage w' = localStorage w
    end.
Proof.
  intros agents op w c w'.
  do 3 (split; [reflexivity|]).
  exact (@agent_success_renews_session Scenario.three_texts agents op w eq_refl).
Defined.

Lemma final_step_decides_witness :
  let body := Arr ([Scenario.event ["thinking"; "[]"]]
                   ++ [Scenario.event ["{}"; "null"]]) in
  let agents := Scenario.answering (Responded 200 body) in
  let op := GetMapForZones (Arr [Str "CAZ006"; Str "CAZ505"]) in
  let w := Scenario.fresh in
  parses op = true
  ∧ @run_reply agents w (@call Scenario.three_texts agents op w).2
    = Some (Responded 200 body)
  ∧ is_2xx 200 = true
  ∧ Observed.first_text (Scenario.event ["{}"; "null"]) = Str "{}"
  ∧ "{}" ≠ ""
  ∧ @JSON_parse Scenario.three_texts "{}" = Some (Obj [])
  ∧ ∃ result, (@call Scenario.three_texts agents op w).1 = Return result
              ∧ Observed.after_parse op "{}" (Obj []) result.
Proof.
  intros body agents op w.
  assert (Hne : "{}" ≠ "") by discriminate.
  do 6 (split; [first [reflexivity|exact Hne]|]).
  exact (@final_step_decides Scenario.three_texts agents op w 200
           [Scenario.event ["thinking"; "[]"]] (Scenario.event ["{}"; "null"])
           "{}" (Obj []) eq_refl eq_refl eq_refl eq_refl Hne eq_refl).
Defined.

Lemma unreadable_image_is_not_sent_witness :
  let agents := Scenario.answering (Responded 200 (Arr [])) in
  let f := {| type := "image/png"; data_url := None |} in
  let w := Scenario.in_session in
  data_url f = None
  ∧ (isSessionValid w).1 = Return true
  ∧ (@queryWithImage agents (Str "What is this storm?") f w).1
    = Throw (Error (Str "Failed to query agent with image"))
  ∧ sent (@queryWithImage agents (Str "What is this storm?") f w).2 = sent w.
Proof.
  intros agents f w.
  split; [reflexivity|]. split; [reflexivity|].
  exact (proj2 (proj2 (@unreadable_image_is_not_sent agents (Str "What is this storm?")
                         f w eq_refl)) eq_refl).
Defined.
End ApiExamples.

(** ** The alerts page *)

Section AlertsPageProperties.
Import Js Browser Api Claimed AlertsPage.
Context `{JSON} `{Agents}.

Lemma loadAlerts_run (p : page) (w : world) :
  loadAlerts p w
  = match getAlerts location w with
    | (Return response, w') =>
        (Return {| agentResponse :=
                     if truthy response && truthy (get_opt response "alerts")
                     then response else unstructured;
                   loading := false; mapData := Null; showMap := false;
                   mapLoading := mapLoading p |}, w')
    | (Throw _, w') =>
        (Return {| agentResponse := load_failed; loading := false; mapData := Null;
                   showMap := false; mapLoading := mapLoading p |},
         logged [(ERROR, "Failed to load alerts:")] w')
    end.
Proof.
  unfold loadAlerts, try_catch, mbind, js_bind, mret, js_ret, console_error, logged.
  destruct (getAlerts location w) as [[response|e] w']; simpl; [|done].
  by destruct (truthy response && truthy (get_opt response "alerts")).
Qed.

(** X12. [loadAlerts] always settles: whatever the agent does, the page ends
    with [loading] false, the map closed, and a response whose [alerts]
    is truthy, so that the guard of [handleShowMap] lets it through. *)
Theorem loadAlerts_settles (p : page) (w : world) :
  ∃ p', (loadAlerts p w).1 = Return p'
        ∧ loading p' = false ∧ showMap p' = false ∧ mapData p' = Null
        ∧ mapLoading p' = mapLoading p
        ∧ can_show_map p' = true.
Proof.
  rewrite loadAlerts_run.
  destruct (getAlerts location w) as [[response|e] w']; simpl;
    eexists; (split; [reflexivity|]); simpl; repeat (split; [done|]);
    unfold can_show_map; simpl; [|done].
  by destruct (truthy response && truthy (get_opt response "alerts")) eqn:E.
Qed.

Lemma parse_failure_sent (w w1 w2 : world) (text : value) :
  sent w1 = sent w2 → parse_failure w w1 text → parse_failure w w2 text.
Proof.
  intros Hsent (st & body & Hr & Hrest). exists st, body. split; [|done].
  unfold run_reply in *. by rewrite <- (latest_reply_sent w w1 w w2).
Qed.

(** X13. What the page shows tells the two failures apart.  When the latest
    request of [getAlerts] failed (an HTTP error, or no response), the
    insights say that the alerts failed to load, and the failure is
    logged; when the agent answered but its final text did not parse, they
    say that no structured data could be retrieved.  In both cases the
    list of alerts is empty. *)
Theorem loadAlerts_reports_failures (p : page) (w : world) :
  let w' := (loadAlerts p w).2 in
  ∃ p', (loadAlerts p w).1 = Return p'
        ∧ (http_failure w w' →
             agentResponse p' = load_failed
             ∧ ∃ lines, console w' = console w ++ lines
                        ∧ (ERROR, "Failed to load alerts:") ∈ lines)
        ∧ (∀ text, parse_failure w w' text → agentResponse p' = unstructured).
Proof.
  intros w'. subst w'. rewrite loadAlerts_run.
  destruct (getAlerts location w) as [c w1] eqn:Hrun.
  destruct (getAlerts_post location w c w1 Hrun) as (Hgrown & Hhttp & Hparse).
  destruct c as [response|e]; simpl; eexists; (split; [reflexivity|]); simpl; split.
  - intros Hfail. destruct (Hhttp Hfail) as (_ & e & m & Hthrow & _). discriminate Hthrow.
  - intros text Hfail. destruct (Hparse text Hfail) as (_ & v & [= <-] & ->). done.
  - intros Hfail. split; [done|].
    destruct Hgrown as ((lines & Hlines) & _). exists (lines ++ [(ERROR, "Failed to load alerts:")]).
    rewrite Hlines, app_assoc. split; [done|]. apply elem_of_app. right.
    apply list_elem_of_here.
  - intros text Hfail.
    assert (Hfail1 : parse_failure w w1 text) by (by apply (parse_failure_sent w _ w1 text) in Hfail).
    destruct (Hparse text Hfail1) as (_ & v & Hret & _). discriminate Hret.
Qed.

End AlertsPageProperties.

Section AlertsPageExamples.
Import Js Browser Api Claimed AlertsPage.

Lemma loadAlerts_reports_failures_witness :
  let agents := Scenario.answering (Responded 503 (Obj [])) in
  let p := {| agentResponse := Str ""; loading := false; mapData := Null;
              showMap := false; mapLoading := false |} in
  let w := Scenario.fresh in
  let w' := (@loadAlerts Scenario.three_texts agents p w).2 in
  @http_failure agents w w'
  ∧ ∃ p', (@loadAlerts Scenario.three_texts agents p w).1 = Return p'
          ∧ agentResponse p' = load_failed.
Proof.
  intros agents p w w'.
  assert (Hfail : @http_failure agents w w').
  { eexists _, _. split; reflexivity. }
  split; [exact Hfail|].
  destruct (@loadAlerts_reports_failures Scenario.three_texts agents p w)
    as (p' & Hret & Hhttp & _).
  exists p'. split; [exact Hret|]. exact (proj1 (Hhttp Hfail)).
Defined.

End AlertsPageExamples.

(** ** The clients and the deployed services *)

Section ConfigurationProperties.
Import Browser Api Deploy.

Lemma all_chars_app (p : ascii → bool) (s t : string) :
  all_chars p (s +:+ t) = all_chars p s && all_chars p t.
Proof.
  induction s as [|c s IH]; [done|]. rewrite app_cons. simpl.
  by rewrite IH, andb_assoc.
Qed.

Lemma client_char_translated (c : ascii) :
  client_char c = true →
  name_char (if Ascii.eqb c "_" then "-"%char else c) = true
  ∧ (if Ascii.eqb (JsString.upper (if Ascii.eqb c "_" then "-"%char else c)) "-"
     then "_"%char
     else JsString.upper (if Ascii.eqb c "_" then "-"%char else c))
    = JsString.upper c.
Proof. destruct c as [[] [] [] [] [] [] [] []]; try discriminate; split; reflexivity. Qed.

Lemma client_name_translated (n : string) :
  all_chars client_char n = true →
  all_chars name_char (map_chars (λ c, if Ascii.eqb c "_" then "-"%char else c) n) = true
  ∧ tr_hyphen (tr_upper (map_chars (λ c, if Ascii.eqb c "_" then "-"%char else c) n))
    = JsString.toUpperCase n.
Proof.
  unfold tr_hyphen, tr_upper.
  induction n as [|c n IH]; [done|].
  cbn [map_chars all_chars JsString.toUpperCase].
  intros [Hc Hn]%andb_true_iff. destruct (IH Hn) as [IH1 IH2].
  destruct (client_char_translated c Hc) as [Hc1 Hc2].
  by rewrite Hc1, Hc2, IH1, IH2.
Qed.

(** X10. The variable that the client named [n] reads is the variable that the
    deployment script writes for the service [weather-n-agent], with
    hyphens for the underscores of [n]: the two files agree on the name,
    for every client name made of lower-case letters and underscores. *)
Theorem client_reads_deployed_variable (n : string) :
  all_chars client_char n = true →
  valid_service_name (service_of n) = true
  ∧ envVar n = "REACT_APP_" +:+ env_var_name (service_of n).
Proof.
  intros Hn. destruct (client_name_translated n Hn) as [Hname Hupper].
  assert (Hvalid : valid_service_name (service_of n) = true).
  { unfold service_of. rewrite !app_cons, app_empty. simpl.
    rewrite !all_chars_app, Hname. reflexivity. }
  split; [exact Hvalid|].
  destruct (env_var_name_valid _ Hvalid) as [-> _].
  unfold service_of, envVar, tr_hyphen, tr_upper in *.
  rewrite !map_chars_app, Hupper. simpl.
  rewrite !app_cons, !app_empty, !app_assoc_s. reflexivity.
Qed.

Lemma client_reads_deployed_variable_witness :
  all_chars client_char "hurricane_simulation" = true
  ∧ valid_service_name (service_of "hurricane_simulation") = true
  ∧ envVar "hurricane_simulation"
    = "REACT_APP_" +:+ env_var_name (service_of "hurricane_simulation").
Proof.
  split; [reflexivity|].
  exact (client_reads_deployed_variable "hurricane_simulation" eq_refl).
Defined.

(** X11. In a build whose variables [REACT_APP_WEATHER_...] are those that the
    script wrote, every URL that the script recorded is the base URL of
    one of the six clients other than the map client, and the map client,
    whose service is not in the list of the script, talks to localhost. *)
Theorem deployed_urls_reach_clients (env : gmap string string) :
  (∀ k, JsString.startsWith "REACT_APP_WEATHER_" k = true → is_Some (env !! k) →
        ∃ info, info ∈ AGENTS_TO_DEPLOY ∧ k = written info) →
  baseURL env map_ = "http://localhost:8086"
  ∧ ∀ info url, info ∈ AGENTS_TO_DEPLOY → env !! written info = Some url → url ≠ "" →
                ∃ a, a ≠ map_ ∧ baseURL env a = url.
Proof.
  intros Hkeys. split.
  - unfold baseURL, getBaseUrl.
    destruct (env !! envVar (agentName map_)) as [url|] eqn:Hmap; [|reflexivity].
    destruct (Hkeys (envVar (agentName map_)) eq_refl (mk_is_Some _ _ Hmap))
      as (info & Hin & Heq).
    unfold AGENTS_TO_DEPLOY in Hin.
    repeat (apply elem_of_cons in Hin as [->|Hin]; [discriminate Heq|]).
    by apply elem_of_nil in Hin.
  - intros info url Hin Hurl Hne.
    assert (Hpresent : absent (Some url) = false) by (by apply String.eqb_neq).
    unfold AGENTS_TO_DEPLOY in Hin.
    repeat (apply elem_of_cons in Hin as [->|Hin];
            [first [ exists alerts; split; [done|]; unfold baseURL, getBaseUrl;
                     change (envVar (agentName alerts)) with (written "weather-alerts-snapshot-agent:agents/alerts_snapshot_agent");
                     by rewrite Hurl, Hpresent
                   | exists emergency; split; [done|]; unfold baseURL, getBaseUrl;
                     change (envVar (agentName emergency)) with (written "weather-emergency-resources-agent:agents/emergency_resources_agent");
                     by rewrite Hurl, Hpresent
                   | exists forecast; split; [done|]; unfold baseURL, getBaseUrl;
                     change (envVar (agentName forecast)) with (written "weather-forecast-agent:agents/forecast_agent");
                     by rewrite Hurl, Hpresent
                   | exists risk; split; [done|]; unfold baseURL, getBaseUrl;
                     change (envVar (agentName risk)) with (written "weather-risk-analysis-agent:agents/risk_analysis_agent");
                     by rewrite Hurl, Hpresent
                   | exists hurricane; split; [done|]; unfold baseURL, getBaseUrl;
                     change (envVar (agentName hurricane)) with (written "weather-hurricane-simulation-agent:agents/hurricane_simulation_agent");
                     by rewrite Hurl, Hpresent
                   | exists chat; split; [done|]; unfold baseURL, getBaseUrl;
                     change (envVar (agentName chat)) with (written "weather-chat-agent:agents/chat");
                     by rewrite Hurl, Hpresent ]|]).
    by apply elem_of_nil in Hin.
Qed.

Lemma deployed_urls_reach_clients_witness :
  let env : gmap string string :=
    {[ written "weather-chat-agent:agents/chat" := "https://chat.example" ]} in
  (∀ k, JsString.startsWith "REACT_APP_WEATHER_" k = true → is_Some (env !! k) →
        ∃ info, info ∈ AGENTS_TO_DEPLOY ∧ k = written info)
  ∧ baseURL env map_ = "http://localhost:8086"
  ∧ baseURL env chat = "https://chat.example".
Proof.
  intros env.
  assert (Hkeys : ∀ k, JsString.startsWith "REACT_APP_WEATHER_" k = true →
                       is_Some (env !! k) →
                       ∃ info, info ∈ AGENTS_TO_DEPLOY ∧ k = written info).
  { intros k _ [url Hk]. apply lookup_singleton_Some in Hk as [<- _].
    exists "weather-chat-agent:agents/chat". split; [|reflexivity].
    unfold AGENTS_TO_DEPLOY. repeat first [apply list_elem_of_here|apply list_elem_of_further]. }
  split; [exact Hkeys|].
  destruct (deployed_urls_reach_clients env Hkeys) as [Hmap _].
  split; [exact Hmap|]. reflexivity.
Defined.

End ConfigurationProperties.

(** ** More on the guided tour *)

Section TourGuideProperties.
Import Tour.

Lemma perform_in_sync op s : in_sync s → in_sync (perform op s).
Proof.
  unfold in_sync. intros Hs.
  destruct op; unfold perform, handler, nextStep, previousStep; simpl; try done.
  - destruct (currentStep s <? _); simpl; [done|].
    by rewrite lookup_insert_eq, bool_decide_eq_true_2.
  - by destruct (currentStep s >? 0).
  - by rewrite lookup_insert_eq, bool_decide_eq_true_2.
  - rewrite lookup_delete_eq. by rewrite bool_decide_eq_false_2.
Qed.

Lemma run_in_sync ops s : in_sync s → in_sync (run ops s).
Proof.
  induction ops as [|op ops IH] using rev_ind; [done|].
  intros Hs. rewrite run_snoc. by apply perform_in_sync, IH.
Qed.

(** X14. Whatever the user does, [hasCompletedTour] is true exactly when
    localStorage holds tourCompleted = true, so a reload of the page (a new
    first render over the same store) restores the flag. *)
Theorem completion_flag_survives_reload (store : gmap string string)
    (ops : list operation) :
  let s := run ops (mount store) in
  in_sync s ∧ hasCompletedTour (mount (localStorage s)) = hasCompletedTour s.
Proof.
  assert (Hs : in_sync (run ops (mount store))) by (by apply run_in_sync).
  simpl. split; [exact Hs|]. by rewrite Hs.
Qed.

Lemma run_cons op ops s : run (op :: ops) s = run ops (perform op s).
Proof. reflexivity. Qed.

Lemma next_steps (n : nat) (c : Z) active completed ls :
  0 ≤ c → c + Z.of_nat n ≤ 11 →
  run (replicate n NextStep)
    {| isTourActive := active; currentStep := c;
       hasCompletedTour := completed; localStorage := ls |}
  = {| isTourActive := active; currentStep := c + Z.of_nat n;
       hasCompletedTour := completed; localStorage := ls |}.
Proof.
  revert c. induction n as [|n IH]; intros c Hc Hn.
  - simpl. by rewrite Z.add_0_r.
  - change (replicate (S n) NextStep) with (NextStep :: replicate n NextStep).
    rewrite run_cons. unfold perform, handler, nextStep.
    change (Z.of_nat (length tourSteps) - 1) with 11. simpl currentStep.
    destruct (Z.ltb_spec c 11); [|lia]. simpl.
    rewrite IH by lia. f_equal. lia.
Qed.

(** X15. Started from any state, the tour is at step [n] after [n] presses of
    Next, for [n] up to 11, with the completion flag and the store as they
    were; the twelfth press ends it: inactive, back at step 0, completed,
    and the flag stored. *)
Theorem tour_walk (s : state) (n : nat) :
  (n ≤ 11)%nat →
  run (StartTour :: replicate n NextStep) s
  = {| isTourActive := true; currentStep := Z.of_nat n;
       hasCompletedTour := hasCompletedTour s; localStorage := localStorage s |}
  ∧ run (StartTour :: replicate 12 NextStep) s
    = {| isTourActive := false; currentStep := 0;
         hasCompletedTour := true;
         localStorage := <["tourCompleted" := "true"]> (localStorage s) |}.
Proof.
  intros Hn. split.
  - rewrite run_cons. unfold perform. simpl handler. simpl commit.
    rewrite next_steps by lia. f_equal.
  - change (replicate 12 NextStep) with (replicate 11 NextStep ++ [NextStep]).
    rewrite app_comm_cons, run_snoc, run_cons.
    unfold perform at 2. simpl handler. simpl commit.
    rewrite next_steps by lia. reflexivity.
Qed.

Lemma tour_walk_witness :
  (3 ≤ 11)%nat
  ∧ currentStep (run [StartTour; NextStep; NextStep; NextStep] (mount ∅)) = 3
  ∧ getCurrentStep (run [StartTour; NextStep; NextStep; NextStep] (mount ∅))
    = tourSteps !! 3%nat.
Proof.
  split; [lia|].
  destruct (tour_walk (mount ∅) 3) as [Hwalk _]; [lia|].
  change (StartTour :: replicate 3 NextStep)
    with [StartTour; NextStep; NextStep; NextStep] in Hwalk.
  rewrite Hwalk. split; reflexivity.
Defined.

(** X16. Before the last step, Back undoes Next when the click on Back is
    handled by the render that follows the click on Next.  Called one after
    the other from one render they cancel too, except at step 0: there
    [previousStep] tests the step that its render closed over, does
    nothing, and the tour is left at step 1. *)
Theorem previous_undoes_next (s : state) :
  0 ≤ currentStep s < Z.of_nat (length tourSteps) - 1 →
  perform PreviousStep (perform NextStep s) = s
  ∧ perform_all [NextStep; PreviousStep] s
    = (if currentStep s =? 0
       then {| isTourActive := isTourActive s; currentStep := 1;
               hasCompletedTour := hasCompletedTour s;
               localStorage := localStorage s |}
       else s).
Proof.
  change (Z.of_nat (length tourSteps) - 1) with 11. intros Hs.
  destruct s as [active c completed ls]. simpl in Hs. split.
  - unfold perform at 2. unfold handler, nextStep.
    change (Z.of_nat (length tourSteps) - 1) with 11. simpl currentStep.
    destruct (Z.ltb_spec c 11); [|lia]. simpl commit.
    unfold perform, handler, previousStep. simpl currentStep.
    destruct (Z.gtb_spec (c + 1) 0); [|lia]. simpl. f_equal. lia.
  - unfold perform_all. simpl. unfold nextStep, previousStep.
    change (Z.of_nat (length tourSteps) - 1) with 11. simpl currentStep.
    destruct (Z.ltb_spec c 11); [|lia].
    destruct (Z.gtb_spec c 0); destruct (Z.eqb_spec c 0); try lia; simpl.
    + f_equal. lia.
    + by subst c.
Qed.

Lemma previous_undoes_next_witness :
  let s := run [StartTour] (mount ∅) in
  0 ≤ currentStep s < Z.of_nat (length tourSteps) - 1
  ∧ perform PreviousStep (perform NextStep s) = s
  ∧ currentStep (perform_all [NextStep; PreviousStep] s) = 1.
Proof.
  intros s. assert (Hs : 0 ≤ currentStep s < Z.of_nat (length tourSteps) - 1).
  { subst s. simpl. lia. }
  split; [exact Hs|].
  destruct (previous_undoes_next s Hs) as [Hrender Hsame].
  split; [exact Hrender|]. rewrite Hsame. reflexivity.
Defined.

Lemma perform_other_keys op s k :
  k ≠ "tourCompleted" → localStorage (perform op s) !! k = localStorage s !! k.
Proof.
  intros Hk.
  destruct op; unfold perform, handler, nextStep, previousStep; simpl; try done.
  - destruct (currentStep s <? _); simpl; [done|]. by rewrite lookup_insert_ne.
  - by destruct (currentStep s >? 0).
  - by rewrite lookup_insert_ne.
  - by rewrite lookup_delete_ne.
Qed.

(** X17. The tour writes to no key of localStorage but tourCompleted, and
    neither starting, stepping back nor skipping writes at all. *)
Theorem tour_store_frame (ops : list operation) (s : state) :
  (∀ k, k ≠ "tourCompleted" → localStorage (run ops s) !! k = localStorage s !! k)
  ∧ (Forall (λ op, op = StartTour ∨ op = PreviousStep ∨ op = SkipTour) ops →
     localStorage (run ops s) = localStorage s
     ∧ hasCompletedTour (run ops s) = hasCompletedTour s).
Proof.
  split.
  - intros k Hk. induction ops as [|op ops IH] using rev_ind; [done|].
    rewrite run_snoc, perform_other_keys by done. exact IH.
  - induction ops as [|op ops IH] using rev_ind; [done|].
    intros [Hops Hop]%Forall_app. rewrite Forall_singleton in Hop.
    rewrite run_snoc. destruct (IH Hops) as [Hls Hflag]. rewrite <- Hls, <- Hflag.
    destruct Hop as [Hop|[Hop|Hop]]; subst op;
      unfold perform, handler, previousStep; simpl; try done.
    by destruct (currentStep (run ops s) >? 0).
Qed.

Lemma tour_store_frame_witness :
  let s := mount {[ "theme" := "dark" ]} in
  let ops := [StartTour; NextStep; PreviousStep; SkipTour] in
  Forall (λ op, op = StartTour ∨ op = PreviousStep ∨ op = SkipTour)
    [StartTour; PreviousStep; SkipTour]
  ∧ localStorage (run ops s) !! "theme" = Some "dark"
  ∧ localStorage (run [StartTour; PreviousStep; SkipTour] s) = localStorage s.
Proof.
  intros s ops.
  assert (Hops : Forall (λ op, op = StartTour ∨ op = PreviousStep ∨ op = SkipTour)
                   [StartTour; PreviousStep; SkipTour]).
  { do 3 (constructor; [auto|]). constructor. }
  assert (Hkey : "theme" ≠ "tourCompleted") by discriminate.
  split; [exact Hops|]. split.
  - rewrite (proj1 (tour_store_frame ops s) "theme" Hkey). reflexivity.
  - exact (proj1 (proj2 (tour_store_frame [StartTour; PreviousStep; SkipTour] s) Hops)).
Defined.

(** X18. In every state whatever, the guide is shown exactly when the tour
    is active and the step is one of the twelve, which is exactly while the
    tour is active in the states reached with at most one call from each
    render; wherever it is shown, Back is offered on every step but the
    first and the last, the primary button reads Start Tour on the first
    step and Finish on the last, and the modal layout is that of these two
    steps. *)
Theorem guide_buttons (s : state) :
  (TourGuide s = None
   ↔ isTourActive s = false ∨ currentStep s < 0 ∨ 11 < currentStep s)
  ∧ (∀ v, TourGuide s = Some v →
       (back v = true ↔ 0 < currentStep s < 11)
       ∧ (nextLabel v = "Finish" ↔ currentStep s = 11)
       ∧ (nextLabel v = "Start Tour" ↔ currentStep s = 0)
       ∧ (shape v = Modal ↔ currentStep s = 0 ∨ currentStep s = 11))
  ∧ (∀ store renders,
       Forall (λ calls, (length calls ≤ 1)%nat) renders →
       s = run_renders renders (mount store) →
       (TourGuide s = None ↔ isTourActive s = false)).
Proof.
  assert (Hreach : ∀ store renders,
            Forall (λ calls, (length calls ≤ 1)%nat) renders →
            s = run_renders renders (mount store) → 0 ≤ currentStep s ≤ 11).
  { intros store renders Hrenders ->.
    apply (run_renders_in_bounds renders (mount store) Hrenders).
    unfold in_bounds, last_step. simpl. lia. }
  destruct s as [active c completed ls]. simpl in Hreach. simpl.
  assert (Hc : c < 0 ∨ 11 < c ∨ c = 0 ∨ c = 1 ∨ c = 2 ∨ c = 3 ∨ c = 4 ∨ c = 5
               ∨ c = 6 ∨ c = 7 ∨ c = 8 ∨ c = 9 ∨ c = 10 ∨ c = 11) by lia.
  destruct Hc as [Hneg|[Hbig|Hc]].
  - assert (Hnone : TourGuide {| isTourActive := active; currentStep := c;
                                 hasCompletedTour := completed; localStorage := ls |}
                    = None).
    { unfold TourGuide, getCurrentStep. simpl.
      by destruct (Z.ltb_spec c 0); [|lia]. }
    rewrite Hnone. split; [split; auto|]. split; [discriminate|].
    intros store renders Hrenders Hs. specialize (Hreach store renders Hrenders Hs). lia.
  - assert (Hnone : TourGuide {| isTourActive := active; currentStep := c;
                                 hasCompletedTour := completed; localStorage := ls |}
                    = None).
    { unfold TourGuide, getCurrentStep. simpl.
      destruct (Z.ltb_spec c 0); [done|].
      rewrite (proj2 (lookup_ge_None tourSteps (Z.to_nat c))); [done|]. simpl. lia. }
    rewrite Hnone. split; [split; auto|]. split; [discriminate|].
    intros store renders Hrenders Hs. specialize (Hreach store renders Hrenders Hs). lia.
  - clear Hreach. unfold TourGuide, getCurrentStep. simpl.
    repeat (destruct Hc as [->|Hc]); try subst c; destruct active; simpl;
      (split; [split; [try done; auto|intros [|[|]]; try done; lia]|]);
      (split; [|intros; split; done]);
      intros v [= <-]; simpl;
      repeat split; try done; try lia; try (intros [|]; done); auto.
Qed.

Lemma guide_buttons_witness :
  let s := run_renders [[StartTour]; [NextStep]] (mount ∅) in
  Forall (λ calls, (length calls ≤ 1)%nat) [[StartTour]; [NextStep]]
  ∧ isTourActive s = true
  ∧ ∃ v, TourGuide s = Some v
         ∧ shape v = Banner ∧ nextLabel v = "Next"
         ∧ (back v = true ↔ 0 < currentStep s < 11).
Proof.
  intros s. split; [repeat constructor|]. split; [reflexivity|].
  eexists. split; [reflexivity|]. split; [reflexivity|].
  split; [reflexivity|].
  exact (proj1 (proj1 (proj2 (guide_buttons s)) _ eq_refl)).
Defined.

End TourGuideProperties.

(** ** More on the deployment script *)

Section DeployJobsProperties.
Import Deploy.

Lemma length_app_s s t : String.length (s +:+ t) = (String.length s + String.length t)%nat.
Proof. induction s as [|c s IH]; [done|]. rewrite app_cons. simpl. by rewrite IH. Qed.

Lemma app_inj_same_length s s' t t' :
  String.length s = String.length s' → s +:+ t = s' +:+ t' → s = s'.
Proof.
  revert s'. induction s as [|c s IH]; intros [|c' s'] Hlen Heq; try done.
  rewrite !app_cons in Heq. injection Heq as -> Heq. f_equal.
  apply IH; [|done]. simpl in Hlen. lia.
Qed.

Lemma app_inj_r s s' t : s +:+ t = s' +:+ t → s = s'.
Proof.
  intros Heq. apply (app_inj_same_length s s' t t); [|done].
  apply (f_equal String.length) in Heq. rewrite !length_app_s in Heq. lia.
Qed.

Lemma lockfile_inj a b : lockfile a = lockfile b → a = b.
Proof.
  unfold lockfile. intros Heq. apply String.app_inj in Heq.
  by apply app_inj_r in Heq.
Qed.

(** *** One job *)

(** X19. When [adk deploy] fails the job exits with status 1 and has touched
    neither the env file nor the lock directories. *)
Theorem failed_deployment_changes_nothing `{Cloud} (name path : string) (f : files)
    (extra : nat) :
  adk_deploy name path ≠ 0 →
  deploy_agent (1 + extra)
    {| service_name := name; agent_path := path; at_ := Deploying |} f
  = Some (1, f).
Proof.
  intros Hadk. simpl. unfold job_step. simpl.
  destruct (Z.eqb_spec (adk_deploy name path) 0); [done|]. simpl.
  by destruct extra.
Qed.

Lemma failed_deployment_changes_nothing_witness :
  let failing := {| adk_deploy _ _ := 1; gcloud_describe _ := "" |} in
  @adk_deploy failing "weather-chat-agent" "agents/chat" ≠ 0
  ∧ @deploy_agent failing 1
      {| service_name := "weather-chat-agent"; agent_path := "agents/chat";
         at_ := Deploying |}
      {| env_production := ""; directories := ∅ |}
    = Some (1, {| env_production := ""; directories := ∅ |}).
Proof.
  intros failing. assert (Hadk : @adk_deploy failing "weather-chat-agent" "agents/chat" ≠ 0).
  { simpl. lia. }
  split; [exact Hadk|].
  exact (@failed_deployment_changes_nothing failing "weather-chat-agent" "agents/chat"
           {| env_production := ""; directories := ∅ |} 0 Hadk).
Defined.

(** X20. When the lock directory of the service is already there, left by an
    interrupted run, the job of a deployed service never gets past
    [mkdir]: however long it runs it does not finish. *)
Theorem stale_lock_blocks `{Cloud} (name path : string) (f : files) (fuel : nat) :
  adk_deploy name path = 0 →
  lockfile name ∈ directories f →
  deploy_agent fuel
    {| service_name := name; agent_path := path; at_ := Deploying |} f
  = None.
Proof.
  intros Hadk Hlock.
  destruct fuel as [|[|fuel]]; simpl; [done| |].
  - unfold job_step. simpl. by rewrite Hadk.
  - unfold job_step at 1 2. simpl. rewrite Hadk. simpl.
    by apply (waiting_for_lock _ _ (substitute (gcloud_describe name))).
Qed.

Lemma stale_lock_blocks_witness :
  let f := {| env_production := "";
              directories := {[ lockfile "weather-chat-agent" ]} |} in
  @adk_deploy all_deployed "weather-chat-agent" "agents/chat" = 0
  ∧ lockfile "weather-chat-agent" ∈ directories f
  ∧ @deploy_agent all_deployed 1000
      {| service_name := "weather-chat-agent"; agent_path := "agents/chat";
         at_ := Deploying |} f
    = None.
Proof.
  intros f. split; [reflexivity|].
  assert (Hlock : lockfile "weather-chat-agent" ∈ directories f).
  { simpl. by apply elem_of_singleton_2. }
  split; [exact Hlock|].
  exact (@stale_lock_blocks all_deployed "weather-chat-agent" "agents/chat" f 1000
           eq_refl Hlock).
Defined.

(** *** The names *)

Lemma untr_tr c :
  name_char c = true →
  untr (if Ascii.eqb (JsString.upper c) "-" then "_"%char else JsString.upper c) = c
  ∧ identifier_char
      (if Ascii.eqb (JsString.upper c) "-" then "_"%char else JsString.upper c) = true.
Proof. destruct c as [[] [] [] [] [] [] [] []]; try discriminate; split; reflexivity. Qed.

Lemma untr_tr_string s :
  all_chars name_char s = true →
  map_chars untr (tr_hyphen (tr_upper s)) = s
  ∧ all_chars identifier_char (tr_hyphen (tr_upper s)) = true.
Proof.
  induction s as [|c s IH]; [done|]. simpl.
  intros [Hc Hs]%andb_true_iff. destruct (IH Hs) as [IH1 IH2].
  destruct (untr_tr c Hc) as [Hc1 Hc2].
  unfold tr_hyphen, tr_upper in *. rewrite Hc1, Hc2, IH1, IH2. done.
Qed.

Lemma valid_name_chars name :
  valid_service_name name = true → all_chars name_char name = true.
Proof.
  destruct name as [|c rest]; [done|]. simpl.
  intros [Hc Hrest]%andb_true_iff. by rewrite (is_lower_name_char c Hc), Hrest.
Qed.

(** X21. For the names Cloud Run accepts, the variable name is made of
    upper-case letters, digits and underscores, and two services never get
    the same variable: no line of the env file shadows another. *)
Theorem env_var_names_distinct (a b : string) :
  valid_service_name a = true → valid_service_name b = true →
  all_chars identifier_char (env_var_name a) = true
  ∧ (env_var_name a = env_var_name b → a = b).
Proof.
  intros Ha Hb.
  destruct (env_var_name_valid a Ha) as [Hva _].
  destruct (env_var_name_valid b Hb) as [Hvb _].
  destruct (untr_tr_string a (valid_name_chars a Ha)) as [Hinva Hida].
  destruct (untr_tr_string b (valid_name_chars b Hb)) as [Hinvb _].
  rewrite Hva, Hvb. split.
  - clear -Hida. induction (tr_hyphen (tr_upper a)) as [|c s IH]; [done|].
    rewrite app_cons. simpl in *. apply andb_true_iff in Hida as [-> Hs].
    by rewrite IH.
  - intros Heq. apply app_inj_r in Heq.
    rewrite <- Hinva, <- Hinvb. by rewrite Heq.
Qed.

Lemma env_var_names_distinct_witness :
  valid_service_name "weather-chat-agent" = true
  ∧ valid_service_name "weather-forecast-agent" = true
  ∧ all_chars identifier_char (env_var_name "weather-chat-agent") = true
  ∧ (env_var_name "weather-chat-agent" = env_var_name "weather-forecast-agent" →
     "weather-chat-agent" = "weather-forecast-agent").
Proof.
  split; [reflexivity|]. split; [reflexivity|].
  exact (env_var_names_distinct "weather-chat-agent" "weather-forecast-agent"
           eq_refl eq_refl).
Defined.


(** *** The jobs together, again *)

Lemma job_step_cases `{Cloud} (j j' : job) (f f' : files) :
  job_step j f = (j', f') →
  service_name j' = service_name j
  ∧ ((in_critical_section j = false ∧ in_critical_section j' = false
      ∧ directories f' = directories f)
     ∨ (in_critical_section j = false ∧ in_critical_section j' = true
        ∧ (lockfile (service_name j) ∉ directories f)
        ∧ directories f' = {[lockfile (service_name j)]} ∪ directories f)
     ∨ (in_critical_section j = true ∧ in_critical_section j' = true
        ∧ directories f' = directories f)
     ∨ (in_critical_section j = true ∧ in_critical_section j' = false
        ∧ directories f' = directories f ∖ {[lockfile (service_name j)]})).
Proof.
  unfold job_step, in_critical_section. destruct j as [name path p]. simpl.
  destruct p as [| |url|url|url|status]; simpl.
  - destruct (_ =? 0); intros [= <- <-]; simpl; auto.
  - intros [= <- <-]; simpl; auto.
  - destruct (bool_decide _) eqn:Hlock; intros [= <- <-]; simpl; [auto|].
    apply bool_decide_eq_false in Hlock. split; [done|]. right. left. auto.
  - intros [= <- <-]; simpl. split; [done|]. right. right. left. auto.
  - intros [= <- <-]; simpl. split; [done|]. right. right. right. auto.
  - intros [= <- <-]; simpl; auto.
Qed.

Lemma lock_invariant_step `{Cloud} (dirs0 : gset string) (x y : list job * files) :
  system_step x y → lock_invariant dirs0 x.1 x.2 → lock_invariant dirs0 y.1 y.2.
Proof.
  intros Hstep. destruct Hstep as [i jobs f j j' f' Hi Hjob]. simpl.
  intros (Hholds & Hexcl & Hdirs & Hsub & Hfresh).
  destruct (job_step_cases _ _ _ _ Hjob) as [Hname Hcases].
  assert (Hlen : (i < length jobs)%nat) by (by eapply lookup_lt_Some).
  destruct Hcases as [(Hj & Hj' & Hf)|[(Hj & Hj' & Hlock & Hf)
                       |[(Hj & Hj' & Hf)|(Hj & Hj' & Hf)]]].
  - (* outside, before and after *)
    repeat split.
    + intros k jk [(<- & <- & _)|[Hne Hk]]%list_lookup_insert_Some Hcs;
        [congruence|]. rewrite Hf. eauto.
    + intros k l jk jl Hkl
        [(<- & <- & _)|[Hnek Hk]]%list_lookup_insert_Some
        [(<- & <- & _)|[Hnel Hl]]%list_lookup_insert_Some Hsame Hk' Hl';
        try congruence. eauto.
    + intros d Hd. rewrite Hf in Hd. destruct (Hdirs d Hd) as [?|(k & jk & Hk & Hcs & ->)];
        [by left|right].
      exists k, jk. split; [|done]. apply list_lookup_insert_Some. right.
      split; [|done]. intros <-. congruence.
    + by rewrite Hf.
    + intros k jk [(<- & <- & _)|[Hne Hk]]%list_lookup_insert_Some Hcs;
        [congruence|]. eauto.
  - (* [mkdir] succeeds *)
    repeat split.
    + intros k jk [(<- & <- & _)|[Hne Hk]]%list_lookup_insert_Some Hcs;
        rewrite Hf, elem_of_union, elem_of_singleton; [left; by rewrite Hname|].
      right. eauto.
    + intros k l jk jl Hkl
        [(<- & <- & _)|[Hnek Hk]]%list_lookup_insert_Some
        [(<- & <- & _)|[Hnel Hl]]%list_lookup_insert_Some Hsame Hk' Hl';
        try congruence.
      * apply Hlock. rewrite <- Hname, Hsame. eauto.
      * apply Hlock. rewrite <- Hname, <- Hsame. eauto.
      * eauto.
    + intros d Hd. rewrite Hf, elem_of_union, elem_of_singleton in Hd.
      destruct Hd as [->|Hd].
      * right. exists i, j'. split; [|by rewrite Hname].
        apply list_lookup_insert_Some. left. done.
      * destruct (Hdirs d Hd) as [?|(k & jk & Hk & Hcs & ->)]; [by left|right].
        exists k, jk. split; [|done]. apply list_lookup_insert_Some. right.
        split; [|done]. intros <-. congruence.
    + rewrite Hf. intros d Hd. apply elem_of_union. right. by apply Hsub.
    + intros k jk [(<- & <- & _)|[Hne Hk]]%list_lookup_insert_Some Hcs; [|eauto].
      rewrite Hname. intros Hin. apply Hlock. by apply Hsub.
  - (* the line is appended *)
    repeat split.
    + intros k jk [(<- & <- & _)|[Hne Hk]]%list_lookup_insert_Some Hcs;
        rewrite Hf; [rewrite Hname|]; eauto.
    + intros k l jk jl Hkl
        [(<- & <- & _)|[Hnek Hk]]%list_lookup_insert_Some
        [(<- & <- & _)|[Hnel Hl]]%list_lookup_insert_Some Hsame Hk' Hl';
        try congruence.
      * rewrite Hname in Hsame. eauto.
      * rewrite Hname in Hsame. eauto.
      * eauto.
    + intros d Hd. rewrite Hf in Hd.
      destruct (Hdirs d Hd) as [?|(k & jk & Hk & Hcs & ->)]; [by left|right].
      destruct (decide (k = i)) as [->|Hne].
      * exists i, j'. assert (jk = j) as -> by congruence.
        split; [|by rewrite Hname]. apply list_lookup_insert_Some. left. done.
      * exists k, jk. split; [|done]. apply list_lookup_insert_Some. right. done.
    + by rewrite Hf.
    + intros k jk [(<- & <- & _)|[Hne Hk]]%list_lookup_insert_Some Hcs; [|eauto].
      rewrite Hname. eauto.
  - (* [rmdir] *)
    repeat split.
    + intros k jk [(<- & <- & _)|[Hne Hk]]%list_lookup_insert_Some Hcs;
        [congruence|].
      rewrite Hf, elem_of_difference, elem_of_singleton. split; [eauto|].
      intros Heq%lockfile_inj. eapply (Hexcl k i); eauto.
    + intros k l jk jl Hkl
        [(<- & <- & _)|[Hnek Hk]]%list_lookup_insert_Some
        [(<- & <- & _)|[Hnel Hl]]%list_lookup_insert_Some Hsame Hk' Hl';
        try congruence. eauto.
    + intros d Hd. rewrite Hf, elem_of_difference, elem_of_singleton in Hd.
      destruct Hd as [Hd Hnot].
      destruct (Hdirs d Hd) as [?|(k & jk & Hk & Hcs & ->)]; [by left|right].
      exists k, jk. split; [|done]. apply list_lookup_insert_Some. right.
      split; [|done]. intros <-. congruence.
    + rewrite Hf. intros d Hd. apply elem_of_difference. split; [by apply Hsub|].
      rewrite elem_of_singleton. intros ->. by eapply Hfresh.
    + intros k jk [(<- & <- & _)|[Hne Hk]]%list_lookup_insert_Some Hcs;
        [congruence|]. eauto.
Qed.

Lemma lock_invariant_start (jobs : list job) (f : files) :
  idle jobs → lock_invariant (directories f) jobs f.
Proof.
  intros Hidle. repeat split.
  - intros i j Hi Hcs. rewrite (Hidle i j Hi) in Hcs. done.
  - intros i k ji jk _ Hi _ _ Hcs. rewrite (Hidle i ji Hi) in Hcs. done.
  - intros d Hd. by left.
  - done.
  - intros i j Hi Hcs. rewrite (Hidle i j Hi) in Hcs. done.
Qed.

Lemma lock_invariant_steps `{Cloud} (dirs0 : gset string) (x y : list job * files) :
  rtc system_step x y → lock_invariant dirs0 x.1 x.2 → lock_invariant dirs0 y.1 y.2.
Proof. induction 1; eauto using lock_invariant_step. Qed.

Lemma lock_invariant_reachable `{Cloud} (jobs0 jobs : list job) (f0 f : files) :
  idle jobs0 → reachable (jobs0, f0) (jobs, f) →
  lock_invariant (directories f0) jobs f.
Proof.
  intros Hidle Hreach.
  apply (lock_invariant_steps _ _ _ Hreach), lock_invariant_start, Hidle.
Qed.

Lemma initial_idle (dirs : gset string) : idle (initial dirs).1.
Proof.
  intros i j Hi. unfold initial in Hi. cbn [fst] in Hi.
  apply list_lookup_fmap_Some in Hi as (info & -> & _).
  unfold start. by destruct (read_fields info).
Qed.

(** X22. Whatever the interleaving of the background jobs, two jobs of the same
    service are never both between their [mkdir] and their [rmdir]: the
    lock does exclude runs that deploy the same service at the same
    time. *)
Theorem lock_excludes_same_service `{Cloud} (jobs0 jobs : list job) (f0 f : files)
    (i k : nat) (ji jk : job) :
  idle jobs0 → reachable (jobs0, f0) (jobs, f) →
  i ≠ k → jobs !! i = Some ji → jobs !! k = Some jk →
  service_name ji = service_name jk →
  ¬ (in_critical_section ji = true ∧ in_critical_section jk = true).
Proof.
  intros Hidle Hreach Hik Hi Hk Hsame [Hci Hck].
  destruct (lock_invariant_reachable _ _ _ _ Hidle Hreach) as (_ & Hexcl & _).
  eapply Hexcl; eauto.
Qed.

(** X23. Once no job is between its [mkdir] and its [rmdir], the directories
    are those of the start: the jobs leave no lock behind and remove none
    that was not theirs. *)
Theorem locks_are_given_back `{Cloud} (jobs0 jobs : list job) (f0 f : files) :
  idle jobs0 → reachable (jobs0, f0) (jobs, f) → idle jobs →
  directories f = directories f0.
Proof.
  intros Hidle Hreach Hdone.
  destruct (lock_invariant_reachable _ _ _ _ Hidle Hreach) as (_ & _ & Hdirs & Hsub & _).
  apply set_eq. intros d. split; [|apply Hsub].
  intros Hd. destruct (Hdirs d Hd) as [?|(n & j & Hn & Hcs & _)]; [done|].
  rewrite (Hdone n j Hn) in Hcs. done.
Qed.

Ltac job_runs i :=
  eapply rtc_l;
  [ eapply (Job_steps i); [ reflexivity | unfold job_step; simpl ] | simpl ].

Ltac all_idle :=
  let i := fresh "i" in
  let j := fresh "j" in
  let Hi := fresh "Hi" in
  intros i j Hi;
  repeat (destruct i as [|i]; [injection Hi as <-; reflexivity|simpl in Hi]);
  discriminate Hi.

Lemma lock_excludes_same_service_witness :
  let first_run := start "weather-chat-agent:agents/chat" in
  let second_run := start "weather-chat-agent:agents/chat" in
  let f0 := {| env_production := ""; directories := ∅ |} in
  ∃ jobs f ji jk,
    idle [first_run; second_run]
    ∧ @reachable all_deployed ([first_run; second_run], f0) (jobs, f)
    ∧ 0%nat ≠ 1%nat ∧ jobs !! 0%nat = Some ji ∧ jobs !! 1%nat = Some jk
    ∧ service_name ji = service_name jk
    ∧ in_critical_section ji = true
    ∧ ¬ (in_critical_section ji = true ∧ in_critical_section jk = true).
Proof.
  intros first_run second_run f0. do 4 eexists.
  assert (Hidle : idle [first_run; second_run]) by all_idle.
  split; [exact Hidle|].
  match goal with
  | |- ?reach ∧ _ => assert (Hreach : reach)
  end.
  { unfold reachable. subst first_run second_run f0. simpl.
    job_runs 0%nat. { reflexivity. }
    job_runs 0%nat. { reflexivity. }
    job_runs 0%nat.
    { rewrite bool_decide_eq_false_2 by apply not_elem_of_empty. reflexivity. }
    job_runs 1%nat. { reflexivity. }
    job_runs 1%nat. { reflexivity. }
    job_runs 1%nat.
    { rewrite bool_decide_eq_true_2; [reflexivity|].
      apply elem_of_union. left. by apply elem_of_singleton_2. }
    apply rtc_refl. }
  split; [exact Hreach|].
  assert (Hne : 0%nat ≠ 1%nat) by lia.
  split; [exact Hne|]. split; [reflexivity|]. split; [reflexivity|].
  split; [reflexivity|]. split; [reflexivity|].
  exact (@lock_excludes_same_service all_deployed _ _ _ _ 0%nat 1%nat _ _
           Hidle Hreach Hne eq_refl eq_refl eq_refl).
Defined.

Lemma locks_are_given_back_witness :
  let f0 := {| env_production := ""; directories := ∅ |} in
  ∃ jobs f,
    idle [start "weather-chat-agent:agents/chat"]
    ∧ @reachable all_deployed ([start "weather-chat-agent:agents/chat"], f0) (jobs, f)
    ∧ idle jobs
    ∧ env_production f ≠ ""
    ∧ directories f = directories f0.
Proof.
  intros f0. do 2 eexists.
  assert (Hidle : idle [start "weather-chat-agent:agents/chat"]) by all_idle.
  split; [exact Hidle|].
  match goal with
  | |- ?reach ∧ _ => assert (Hreach : reach)
  end.
  { unfold reachable. subst f0. simpl.
    job_runs 0%nat. { reflexivity. }
    job_runs 0%nat. { reflexivity. }
    job_runs 0%nat.
    { rewrite bool_decide_eq_false_2 by apply not_elem_of_empty. reflexivity. }
    job_runs 0%nat. { reflexivity. }
    job_runs 0%nat. { reflexivity. }
    apply rtc_refl. }
  split; [exact Hreach|].
  match goal with
  | |- ?done ∧ _ => assert (Hdone : done) by all_idle
  end.
  split; [exact Hdone|]. split; [discriminate|].
  exact (@locks_are_given_back all_deployed _ _ _ _ Hidle Hreach Hdone).
Defined.

(** *** The report, again *)

(** X24. Whatever the jobs returned, the script as written stops at the first
    of them: it prints the one line about that job and exits with status
    1, so the later jobs, failed or not, are never reported and neither
    summary is printed. *)
Theorem script_stops_at_first_job (name : string) (status : Z)
    (rest : list (string * Z)) :
  script ((name, status) :: rest)
  = Exit 1 [if status =? 0
            then name +:+ " - Deployment completed successfully"
            else name +:+ " - Deployment failed (check deploy_logs/"
                   +:+ name +:+ ".log for details)"].
Proof.
  unfold script, wait_and_report. simpl. by destruct (status =? 0).
Qed.

Lemma wait_loop_tally (jobs : list (string * Z)) (c : counts) (out : list string) :
  ∃ out',
    wait_loop false jobs c out
    = Running {| success_count :=
                   success_count c
                   + Z.of_nat (length (List.filter (λ '(_, status), status =? 0) jobs));
                 failed_count :=
                   failed_count c
                   + Z.of_nat (length (List.filter (λ '(_, status), negb (status =? 0)) jobs)) |}
              (out ++ out')
    ∧ length out' = length jobs.
Proof.
  revert c out. induction jobs as [|[name status] rest IH]; intros c out.
  - exists []. simpl. rewrite !Z.add_0_r, app_nil_r. by destruct c.
  - simpl. destruct (status =? 0) eqn:E; simpl.
    + edestruct IH as (out' & -> & Hlen). eexists (_ :: out'). simpl.
      rewrite <- app_assoc. simpl. split; [|by rewrite Hlen].
      f_equal. f_equal; lia.
    + edestruct IH as (out' & -> & Hlen). eexists (_ :: out'). simpl.
      rewrite <- app_assoc. simpl. split; [|by rewrite Hlen].
      f_equal. f_equal; lia.
Qed.

(** X25. Where the increments do not end the script (no [set -e], or a bash
    older than 4.1), lines 132-177 do what they are written for: one line
    for each job, then the summary with the number of jobs that returned 0
    and the number that did not, and the exit status is 0 exactly when
    every job returned 0. *)
Theorem report_without_errexit (jobs : list (string * Z)) :
  let succeeded := List.filter (λ '(_, status), status =? 0) jobs in
  let failed := List.filter (λ '(_, status), negb (status =? 0)) jobs in
  ∃ lines rest,
    wait_and_report false jobs
    = Exit (if all_succeeded jobs then 0 else 1)
        (lines
         ++ ["Deployment Summary:";
             "   Successful: " +:+ JsString.ofZ (Z.of_nat (length succeeded));
             "   Failed: " +:+ JsString.ofZ (Z.of_nat (length failed));
             "   Total: 6"]
         ++ rest)
    ∧ length lines = length jobs
    ∧ (all_succeeded jobs = true ↔ failed = []).
Proof.
  intros succeeded failed. unfold wait_and_report.
  destruct (wait_loop_tally jobs {| success_count := 0; failed_count := 0 |} [])
    as (lines & -> & Hlen). simpl. rewrite !Z.add_0_l.
  fold succeeded failed.
  assert (Hall : all_succeeded jobs = true ↔ failed = []).
  { subst failed. clear. induction jobs as [|[name status] rest IH]; [done|].
    simpl. destruct (status =? 0); simpl; [done|]. split; discriminate. }
  exists lines. destruct (Z.gtb_spec (Z.of_nat (length failed)) 0) as [Hgt|Hngt].
  - eexists. split; [|done].
    assert (all_succeeded jobs = false) as ->.
    { destruct (all_succeeded jobs); [|done].
      rewrite (proj1 Hall eq_refl) in Hgt. simpl in Hgt. lia. }
    rewrite <- app_assoc. reflexivity.
  - eexists. split; [|done].
    assert (all_succeeded jobs = true) as ->.
    { apply Hall. destruct failed; [done|]. simpl in Hngt. lia. }
    rewrite <- app_assoc. reflexivity.
Qed.

End DeployJobsProperties.
